(** * Gophertown realtime core: server registry, broadcast batcher and
      client reconnection, embedded from [server/server.js] and the
      [GameWebSocket] class of the client transport.

    Conventions of the embedding.
    - A JavaScript [Map] is an association list in insertion order
      ([JsMap]): the server iterates its maps ([players.values()],
      [movementUpdates.forEach]), so the order is observable.
    - A coordinate ([Coord]) is a number, [NaN], or [undefined] for a
      field a position object does not have.  Numbers are rationals
      ([Q]); on them [Math.min] and [Math.max] are [Qmin] and [Qmax];
      arithmetic on [undefined] or [NaN] gives [NaN], as in JavaScript.
      The rounding of [+] and the infinite doubles are not modelled, and
      a coordinate field of a request is a JSON number or absent: the
      coercions JavaScript applies to strings, booleans and [null] are
      outside the embedding.  Clock readings, sequence numbers and
      delays are integers ([Z]).
    - Requests are the decoded messages of the wire protocol (type
      [WebSocketMessage] of the client transport).  A field the handler
      tests before use is an [option], [None] for an absent
      ([undefined]) field; the falsy tests of the source ([a || b],
      [if (a && ...)]) are written out with [truthy], [id_or], [str_or],
      [bool_or] and [num_or].  [msg.player], which the handlers read
      without a test, is an [option] as well: reading a field of an
      absent ([undefined] or [null]) player throws, the [catch] of the
      ['message'] handler logs the error, and the writes made before
      the throw stay.
    - [Date.now()] and [Math.random().toString(36)] are inputs of the
      handler ([Env]); every [client.send] is appended to the [sent] log. *)

From Stdlib Require Import List String Ascii ZArith QArith Qminmax Lia Bool.
From Stdlib Require Import DecimalString DecimalZ.
Import ListNotations.
Local Open Scope string_scope.
Local Open Scope list_scope.

(* ================================================================== *)
(** ** JavaScript [Map]: insertion-ordered association list *)

Module JsMap.

Definition t (K V : Type) : Type := list (K * V).

Section Ops.
Context {K V : Type} (keq : K -> K -> bool).

Fixpoint get (k : K) (m : t K V) : option V :=
  match m with
  | [] => None
  | (k', v) :: m' => if keq k k' then Some v else get k m'
  end.

Definition has (k : K) (m : t K V) : bool :=
  match get k m with Some _ => true | None => false end.

(** [m.set(k, v)]: an existing key keeps its position, a new key goes last. *)
Fixpoint set (k : K) (v : V) (m : t K V) : t K V :=
  match m with
  | [] => [(k, v)]
  | (k', v') :: m' => if keq k k' then (k, v) :: m' else (k', v') :: set k v m'
  end.

Fixpoint delete (k : K) (m : t K V) : t K V :=
  match m with
  | [] => []
  | (k', v') :: m' => if keq k k' then m' else (k', v') :: delete k m'
  end.

Definition keys (m : t K V) : list K := map fst m.
Definition values (m : t K V) : list V := map snd m.

End Ops.
End JsMap.

(* ================================================================== *)
(** ** The server ([server/server.js]) *)

Module Server.

Definition MAP_WIDTH : Q := 1536.
Definition MAP_HEIGHT : Q := 1024.
Definition UPDATE_RATE_LIMIT : Z := 16.
(** Period of the [setInterval] of [broadcast]. *)
Definition BATCH_INTERVAL : Z := 16.

(** A connection object ([ws]); handles are allocated by [Connect]. *)
Definition ws : Type := nat.

Inductive ReadyState := CONNECTING | OPEN | CLOSING | CLOSED.

(** A coordinate as the handlers meet it: a number, [NaN], or
    [undefined] for an absent field of a position object. *)
Inductive Coord := Num (q : Q) | NaN | Undefined.

Record Pos := { x : Coord; y : Coord }.

(** [playerData], the value type of [players]. *)
Record PlayerData := {
  id : string;
  name : string;
  pos : Pos;
  direction : option string;
  isMoving : option bool;
  color : option string
}.

(** [msg.player] of a [player_join] or [player_update] request. *)
Record PlayerMsg := {
  p_id : option string;
  p_name : option string;
  p_pos : option Pos;
  p_direction : option string;
  p_isMoving : option bool;
  p_color : option string
}.

(** The fields of a [player_move] request. *)
Record MoveMsg := {
  m_playerId : option string;
  m_pos : option Pos;
  m_dx : option Q;
  m_dy : option Q;
  m_direction : option string;
  m_isMoving : option bool;
  m_seq : option Z
}.

(** Requests, by [msg.type]; [other_type] is any type without a [case].
    [player] is [None] when the request has no [player] object. *)
Inductive ClientMsg :=
| player_join (player : option PlayerMsg)
| player_move (m : MoveMsg)
| chat (message : option string)
| player_update (player : option PlayerMsg)
| other_type.

(** Messages the server writes.  [player_joined], [player_moved],
    [chat_from] and [player_updated] are the outgoing messages of type
    [player_join], [player_move], [chat] and [player_update]. *)
Inductive ServerMsg :=
| player_id_assigned (playerId : string) (player : PlayerData)
| player_joined (player : PlayerData)
| players_sync (others : list PlayerData)
| player_moved (playerId : string) (newPos : Pos) (dir : option string)
    (moving : option bool) (seq : option Z) (timestamp : Z)
| chat_from (playerId : string) (playerName : string) (message : option string)
| player_updated (player : PlayerData)
| player_leave (playerId : string).

(** One [client.send]: a message, or the [{type:'batch', updates}] envelope. *)
Inductive Frame :=
| plain (m : ServerMsg)
| batch (updates : list ServerMsg).

(** What the handler reads from the outside: [Date.now()] and the two
    strings [Math.random().toString(36)]. *)
Record Env := { now : Z; rand1 : string; rand2 : string }.

Record State := {
  players : JsMap.t string PlayerData;
  wsToPlayerId : JsMap.t ws string;
  lastUpdateTime : JsMap.t string Z;
  (** the closure variable [playerId] of each connection; absent is [null] *)
  conn_playerId : JsMap.t ws string;
  (** [wss.clients] with each socket's [readyState] *)
  clients : list (ws * ReadyState);
  movementUpdates : JsMap.t ws (list ServerMsg);
  (** [Some period] while the interval runs, [None] for [null] *)
  broadcastTimer : option Z;
  (** every [send], oldest first *)
  sent : list (ws * Frame);
  next_ws : ws
}.

Definition init : State :=
  {| players := []; wsToPlayerId := []; lastUpdateTime := [];
     conn_playerId := []; clients := []; movementUpdates := [];
     broadcastTimer := None; sent := []; next_ws := 0%nat |}.

Definition with_players (v : JsMap.t string PlayerData) (st : State) : State :=
  {| players := v; wsToPlayerId := wsToPlayerId st;
     lastUpdateTime := lastUpdateTime st; conn_playerId := conn_playerId st;
     clients := clients st; movementUpdates := movementUpdates st;
     broadcastTimer := broadcastTimer st; sent := sent st;
     next_ws := next_ws st |}.

Definition with_wsToPlayerId (v : JsMap.t ws string) (st : State) : State :=
  {| players := players st; wsToPlayerId := v;
     lastUpdateTime := lastUpdateTime st; conn_playerId := conn_playerId st;
     clients := clients st; movementUpdates := movementUpdates st;
     broadcastTimer := broadcastTimer st; sent := sent st;
     next_ws := next_ws st |}.

Definition with_lastUpdateTime (v : JsMap.t string Z) (st : State) : State :=
  {| players := players st; wsToPlayerId := wsToPlayerId st;
     lastUpdateTime := v; conn_playerId := conn_playerId st;
     clients := clients st; movementUpdates := movementUpdates st;
     broadcastTimer := broadcastTimer st; sent := sent st;
     next_ws := next_ws st |}.

Definition with_conn_playerId (v : JsMap.t ws string) (st : State) : State :=
  {| players := players st; wsToPlayerId := wsToPlayerId st;
     lastUpdateTime := lastUpdateTime st; conn_playerId := v;
     clients := clients st; movementUpdates := movementUpdates st;
     broadcastTimer := broadcastTimer st; sent := sent st;
     next_ws := next_ws st |}.

Definition with_clients (v : list (ws * ReadyState)) (n : ws) (st : State) : State :=
  {| players := players st; wsToPlayerId := wsToPlayerId st;
     lastUpdateTime := lastUpdateTime st; conn_playerId := conn_playerId st;
     clients := v; movementUpdates := movementUpdates st;
     broadcastTimer := broadcastTimer st; sent := sent st;
     next_ws := n |}.

Definition with_batcher (mu : JsMap.t ws (list ServerMsg)) (timer : option Z)
  (st : State) : State :=
  {| players := players st; wsToPlayerId := wsToPlayerId st;
     lastUpdateTime := lastUpdateTime st; conn_playerId := conn_playerId st;
     clients := clients st; movementUpdates := mu;
     broadcastTimer := timer; sent := sent st;
     next_ws := next_ws st |}.

Definition with_sent (v : list (ws * Frame)) (st : State) : State :=
  {| players := players st; wsToPlayerId := wsToPlayerId st;
     lastUpdateTime := lastUpdateTime st; conn_playerId := conn_playerId st;
     clients := clients st; movementUpdates := movementUpdates st;
     broadcastTimer := broadcastTimer st; sent := v;
     next_ws := next_ws st |}.

(** *** JavaScript truthiness, as the handler uses it *)

Definition truthy (s : option string) : bool :=
  match s with
  | Some s => negb (String.eqb s EmptyString)
  | None => false
  end.

(** [a || b] on two possibly absent strings. *)
Definition id_or (a b : option string) : option string :=
  if truthy a then a else b.

(** [a || 'default'] *)
Definition str_or (a : option string) (d : string) : string :=
  match a with
  | Some s => if String.eqb s EmptyString then d else s
  | None => d
  end.

(** [a || false] *)
Definition bool_or (a : option bool) (d : bool) : bool :=
  match a with
  | Some true => true
  | _ => d
  end.

(** [a || 0] *)
Definition num_or (a : option Z) (d : Z) : Z :=
  match a with
  | Some n => if Z.eqb n 0 then d else n
  | None => d
  end.

(** *** [generatePlayerId] *)

(** [`${n}`] for an integer. *)
Definition show_int (n : Z) : string := NilEmpty.string_of_int (Z.to_int n).

(** [`player_${Date.now()}_${r1.substr(2, 9)}_${r2.substr(2, 9)}`] *)
Definition generatePlayerId (e : Env) : string :=
  ("player_" ++ show_int (now e) ++ "_" ++ substring 2 9 (rand1 e)
     ++ "_" ++ substring 2 9 (rand2 e))%string.

(** *** [broadcast] and the batching interval *)

Definition is_OPEN (r : ReadyState) : bool :=
  match r with OPEN => true | _ => false end.

(** [client.readyState]; a socket that left [wss.clients] is closed. *)
Definition readyState (c : ws) (st : State) : ReadyState :=
  match JsMap.get Nat.eqb c (clients st) with
  | Some r => r
  | None => CLOSED
  end.

(** The clients a [broadcast(message, excludeWs)] reaches, in
    [wss.clients] order. *)
Definition recipients (excludeWs : ws) (st : State) : list ws :=
  map fst
    (filter (fun cr => negb (Nat.eqb (fst cr) excludeWs) && is_OPEN (snd cr))
       (clients st)).

Definition is_player_move (message : ServerMsg) : bool :=
  match message with
  | player_moved _ _ _ _ _ _ => true
  | _ => false
  end.

(** [if (!has(client)) set(client, []); get(client).push(message)] *)
Definition enqueue (message : ServerMsg) (mu : JsMap.t ws (list ServerMsg))
  (client : ws) : JsMap.t ws (list ServerMsg) :=
  match JsMap.get Nat.eqb client mu with
  | Some q => JsMap.set Nat.eqb client (q ++ [message]) mu
  | None => JsMap.set Nat.eqb client [message] mu
  end.

Definition send (c : ws) (f : Frame) (st : State) : State :=
  with_sent (sent st ++ [(c, f)]) st.

Definition broadcast (message : ServerMsg) (excludeWs : ws) (st : State) : State :=
  if is_player_move message then
    with_batcher
      (fold_left (enqueue message) (recipients excludeWs st) (movementUpdates st))
      (match broadcastTimer st with
       | Some t => Some t
       | None => Some BATCH_INTERVAL
       end)
      st
  else
    with_sent
      (sent st ++ map (fun c => (c, plain message)) (recipients excludeWs st))
      st.

(** One iteration of the flush loop: the write it performs, if any, and
    the entry it leaves. *)
Definition flush_entry (st : State) (entry : ws * list ServerMsg)
  : list (ws * Frame) * (ws * list ServerMsg) :=
  let (client, updates) := entry in
  if is_OPEN (readyState client st) && (0 <? List.length updates)%nat then
    ([(client,
       match updates with
       | [u] => plain u
       | _ => batch updates
       end)],
     (client, []))
  else ([], entry).

(** The interval callback. *)
Definition onTick (st : State) : State :=
  let flushed := map (flush_entry st) (movementUpdates st) in
  let mu := map snd flushed in
  let hasUpdates := existsb (fun e => (0 <? List.length (snd e))%nat) mu in
  with_sent (sent st ++ List.concat (map fst flushed))
    (with_batcher mu (if hasUpdates then broadcastTimer st else None) st).

(** *** The ['message'] handler *)

(** [playerId || wsToPlayerId.get(ws)], the id the handlers act for. *)
Definition ownerId (c : ws) (st : State) : option string :=
  id_or (JsMap.get Nat.eqb c (conn_playerId st))
        (JsMap.get Nat.eqb c (wsToPlayerId st)).

(** [claimed && claimed !== owner] *)
Definition id_mismatch (claimed : option string) (owner : string) : bool :=
  match claimed with
  | Some s => negb (String.eqb s EmptyString) && negb (String.eqb s owner)
  | None => false
  end.

(** [lastUpdateTime.get(id) || 0] *)
Definition lastUpdate (pid : string) (st : State) : Z :=
  num_or (JsMap.get String.eqb pid (lastUpdateTime st)) 0.

(** [now - lastUpdate < UPDATE_RATE_LIMIT] *)
Definition too_frequent (pid : string) (e : Env) (st : State) : bool :=
  (now e - lastUpdate pid st <? UPDATE_RATE_LIMIT)%Z.

(** [Math.max(0, Math.min(hi, v))]: [Math.min] and [Math.max] convert
    [undefined] to [NaN] and return [NaN] as soon as an argument is. *)
Definition clamp (hi : Q) (v : Coord) : Coord :=
  match v with
  | Num q => Num (Qmax 0 (Qmin hi q))
  | NaN | Undefined => NaN
  end.

(** [v + d] for a stored coordinate and a number. *)
Definition plus (v : Coord) (d : Q) : Coord :=
  match v with
  | Num q => Num (q + d)
  | NaN | Undefined => NaN
  end.

(** [validPos]: the delta form when both [dx] and [dy] are given, else
    the absolute form, else no position ([break]). *)
Definition validPos (m : MoveMsg) (currentPlayer : PlayerData) : option Pos :=
  match m_dx m, m_dy m with
  | Some dx, Some dy =>
      Some {| x := clamp MAP_WIDTH (plus (x (pos currentPlayer)) dx);
              y := clamp MAP_HEIGHT (plus (y (pos currentPlayer)) dy) |}
  | _, _ =>
      match m_pos m with
      | Some p => Some {| x := clamp MAP_WIDTH (x p);
                          y := clamp MAP_HEIGHT (y p) |}
      | None => None
      end
  end.

(** [playerData] of a join request for the id [playerId]. *)
Definition joinData (playerId : string) (p : PlayerMsg) : PlayerData :=
  {| id := playerId;
     name := str_or (p_name p) "Player";
     pos := match p_pos p with
            | Some q => q
            | None => {| x := Num (MAP_WIDTH / 2); y := Num (MAP_HEIGHT / 2) |}
            end;
     direction := Some (str_or (p_direction p) "front");
     isMoving := Some (bool_or (p_isMoving p) false);
     color := match p_color p with
              | Some s => if String.eqb s EmptyString then None else Some s
              | None => None
              end |}.

(** The [player_join] case.  Without a [player] object the handler
    throws at [msg.player.name], after the id assignment and before
    [players.set] and every send. *)
Definition on_player_join (c : ws) (player : option PlayerMsg) (e : Env) (st : State)
  : State :=
  let cur := JsMap.get Nat.eqb c (conn_playerId st) in
  (* if (!playerId) { playerId = generatePlayerId(); wsToPlayerId.set(ws, playerId) } *)
  let playerId :=
    match cur with
    | Some s => if truthy cur then s else generatePlayerId e
    | None => generatePlayerId e
    end in
  let st1 :=
    if truthy cur then st
    else with_wsToPlayerId (JsMap.set Nat.eqb c playerId (wsToPlayerId st))
           (with_conn_playerId (JsMap.set Nat.eqb c playerId (conn_playerId st)) st) in
  match player with
  | None => st1
  | Some p =>
      let playerData := joinData playerId p in
      let st2 :=
        with_players (JsMap.set String.eqb playerId playerData (players st1)) st1 in
      let st3 := send c (plain (player_id_assigned playerId playerData)) st2 in
      let st4 := broadcast (player_joined playerData) c st3 in
      let otherPlayers :=
        filter (fun q => negb (String.eqb (id q) playerId))
          (JsMap.values (players st4)) in
      send c (plain (players_sync otherPlayers)) st4
  end.

Definition on_player_move (c : ws) (m : MoveMsg) (e : Env) (st : State) : State :=
  match ownerId c st with
  | Some movePlayerId =>
      if truthy (Some movePlayerId) then
        (* players.has(movePlayerId), then players.get(movePlayerId) *)
        match JsMap.get String.eqb movePlayerId (players st) with
        | Some currentPlayer =>
            if id_mismatch (m_playerId m) movePlayerId then st
            else if too_frequent movePlayerId e st then st
            else
              let st1 :=
                with_lastUpdateTime
                  (JsMap.set String.eqb movePlayerId (now e) (lastUpdateTime st)) st in
              match validPos m currentPlayer with
              | Some vp =>
                  let updatedPlayer :=
                    {| id := id currentPlayer; name := name currentPlayer;
                       pos := vp; direction := m_direction m;
                       isMoving := m_isMoving m; color := color currentPlayer |} in
                  broadcast
                    (player_moved movePlayerId vp (m_direction m) (m_isMoving m)
                       (m_seq m) (now e))
                    c
                    (with_players
                       (JsMap.set String.eqb movePlayerId updatedPlayer (players st1)) st1)
              | None => st1
              end
        | None => st
        end
      else st
  | None => st
  end.

Definition on_chat (c : ws) (message : option string) (st : State) : State :=
  match ownerId c st with
  | Some chatPlayerId =>
      if truthy (Some chatPlayerId) then
        match JsMap.get String.eqb chatPlayerId (players st) with
        | Some chatPlayer =>
            broadcast (chat_from chatPlayerId (name chatPlayer) message) c st
        | None => st
        end
      else st
  | None => st
  end.

(** The [player_update] case.  For a registered sender whose request
    has no [player] object the handler throws at [msg.player.id],
    before any write. *)
Definition on_player_update (c : ws) (player : option PlayerMsg) (st : State) : State :=
  match ownerId c st with
  | Some updatePlayerId =>
      if truthy (Some updatePlayerId) then
        match JsMap.get String.eqb updatePlayerId (players st) with
        | Some currentPlayer =>
            match player with
            | None => st
            | Some p =>
                if id_mismatch (p_id p) updatePlayerId then st
                else
                  let updatedPlayer :=
                    {| id := id currentPlayer;
                       name := str_or (p_name p) (name currentPlayer);
                       pos := pos currentPlayer;
                       direction := id_or (p_direction p) (direction currentPlayer);
                       isMoving := match p_isMoving p with
                                   | Some b => Some b
                                   | None => isMoving currentPlayer
                                   end;
                       color := match p_color p with
                                | Some col => Some col
                                | None => color currentPlayer
                                end |} in
                  broadcast (player_updated updatedPlayer) c
                    (with_players
                       (JsMap.set String.eqb updatePlayerId updatedPlayer (players st))
                       st)
            end
        | None => st
        end
      else st
  | None => st
  end.

Definition onMessage (c : ws) (msg : ClientMsg) (e : Env) (st : State) : State :=
  match msg with
  | player_join p => on_player_join c p e st
  | player_move m => on_player_move c m e st
  | chat message => on_chat c message st
  | player_update p => on_player_update c p st
  | other_type => st
  end.

(** *** The ['close'] handler *)

Definition onClose (c : ws) (st : State) : State :=
  match ownerId c st with
  | Some leavingPlayerId =>
      if truthy (Some leavingPlayerId) then
        broadcast (player_leave leavingPlayerId) c
          (with_wsToPlayerId (JsMap.delete Nat.eqb c (wsToPlayerId st))
             (with_players (JsMap.delete String.eqb leavingPlayerId (players st)) st))
      else st
  | None => st
  end.

(** *** The event loop *)

Inductive Event :=
| Connect                                      (* wss.on('connection') *)
| Message (c : ws) (msg : ClientMsg) (e : Env)   (* ws.on('message') *)
| Closing (c : ws)                             (* readyState becomes CLOSING *)
| Close (c : ws)                               (* ws.on('close') *)
| Tick.                                        (* the batching interval fires *)

Definition is_client (c : ws) (st : State) : bool :=
  JsMap.has Nat.eqb c (clients st).

(** Events reach the handlers of live connections only; a closed socket
    has left [wss.clients] when its ['close'] handler runs. *)
Definition step (ev : Event) (st : State) : State :=
  match ev with
  | Connect =>
      with_clients (clients st ++ [(next_ws st, OPEN)]) (S (next_ws st)) st
  | Message c msg e => if is_client c st then onMessage c msg e st else st
  | Closing c =>
      if is_client c st
      then with_clients (JsMap.set Nat.eqb c CLOSING (clients st)) (next_ws st) st
      else st
  | Close c =>
      if is_client c st
      then onClose c (with_clients (JsMap.delete Nat.eqb c (clients st)) (next_ws st) st)
      else st
  | Tick =>
      match broadcastTimer st with
      | Some _ => onTick st
      | None => st
      end
  end.

Fixpoint run (evs : list Event) (st : State) : State :=
  match evs with
  | [] => st
  | ev :: evs' => run evs' (step ev st)
  end.

(** *** Specification vocabulary *)

(** [wsToPlayerId] has an entry only where the closure variable
    [playerId] of the connection is set. *)
Definition ids_in_step (st : State) : Prop :=
  forall c, JsMap.get Nat.eqb c (conn_playerId st) = None ->
            JsMap.get Nat.eqb c (wsToPlayerId st) = None.

(** The frames written to [c], oldest first. *)
Definition frames_to (c : ws) (log : list (ws * Frame)) : list Frame :=
  map snd (filter (fun w => Nat.eqb (fst w) c) log).

(** Both coordinates are numbers, in [0, MAP_WIDTH) x [0, MAP_HEIGHT). *)
Definition in_bounds_half_open (p : Pos) : Prop :=
  match x p, y p with
  | Num a, Num b => (0 <= a /\ a < MAP_WIDTH /\ 0 <= b /\ b < MAP_HEIGHT)%Q
  | _, _ => False
  end.

(** Both coordinates are numbers, in [0, MAP_WIDTH] x [0, MAP_HEIGHT]. *)
Definition in_bounds_closed (p : Pos) : Prop :=
  match x p, y p with
  | Num a, Num b => (0 <= a /\ a <= MAP_WIDTH /\ 0 <= b /\ b <= MAP_HEIGHT)%Q
  | _, _ => False
  end.

Definition is_number (v : Coord) : bool :=
  match v with Num _ => true | NaN | Undefined => false end.

(** The coordinate is the number [q]. *)
Definition is_value (v : Coord) (q : Q) : Prop :=
  match v with
  | Num a => (a == q)%Q
  | NaN | Undefined => False
  end.

(** Both coordinates of the position are numbers. *)
Definition numeric (p : Pos) : Prop :=
  is_number (x p) = true /\ is_number (y p) = true.

(** The coordinates [validPos] reads are numbers: those of the stored
    position in the delta form, those of [msg.pos] in the absolute form. *)
Definition numeric_input (m : MoveMsg) (currentPlayer : PlayerData) : Prop :=
  match m_dx m, m_dy m with
  | Some _, Some _ => numeric (pos currentPlayer)
  | _, _ =>
      match m_pos m with
      | Some p => numeric p
      | None => True
      end
  end.

(** The same request with [playerId] set to [claimed]. *)
Definition claiming (claimed : option string) (m : MoveMsg) : MoveMsg :=
  {| m_playerId := claimed; m_pos := m_pos m; m_dx := m_dx m; m_dy := m_dy m;
     m_direction := m_direction m; m_isMoving := m_isMoving m; m_seq := m_seq m |}.

(** [Some (id, now)] when the request of [c] passes every test of the
    [player_move] case and is written to the registry. *)
Definition move_applied (c : ws) (m : MoveMsg) (e : Env) (st : State)
  : option (string * Z) :=
  match ownerId c st with
  | Some movePlayerId =>
      match JsMap.get String.eqb movePlayerId (players st) with
      | Some currentPlayer =>
          if truthy (Some movePlayerId)
             && negb (id_mismatch (m_playerId m) movePlayerId)
             && negb (too_frequent movePlayerId e st)
          then match validPos m currentPlayer with
               | Some _ => Some (movePlayerId, now e)
               | None => None
               end
          else None
      | None => None
      end
  | None => None
  end.

(** The clock readings of the moves applied to player [A] along a run. *)
Fixpoint applied_times (A : string) (evs : list Event) (st : State) : list Z :=
  match evs with
  | [] => []
  | ev :: evs' =>
      match ev with
      | Message c (player_move m) e =>
          if is_client c st then
            match move_applied c m e st with
            | Some (B, t) => if String.eqb B A then [t] else []
            | None => []
            end
          else []
      | _ => []
      end ++ applied_times A evs' (step ev st)
  end.

(** Every reading is at least [gap] after the one before it, the first
    at least [gap] after [from]. *)
Fixpoint spaced_from (gap from : Z) (ts : list Z) : Prop :=
  match ts with
  | [] => True
  | t :: ts' => (gap <= t - from)%Z /\ spaced_from gap t ts'
  end.

(** What the flush writes for a non-empty queue. *)
Definition envelope (updates : list ServerMsg) : Frame :=
  match updates with
  | [u] => plain u
  | _ => batch updates
  end.

(** The pending queue of a client; no entry yet is an empty queue. *)
Definition queue_of (c : ws) (st : State) : list ServerMsg :=
  match JsMap.get Nat.eqb c (movementUpdates st) with
  | Some q => q
  | None => []
  end.

(** Successive [broadcast] calls, all excluding [excludeWs]. *)
Definition broadcast_all (ms : list ServerMsg) (excludeWs : ws) (st : State) : State :=
  fold_left (fun s message => broadcast message excludeWs s) ms st.

(** Representation invariant: [wss.clients] is a set of allocated
    handles and [movementUpdates] has one entry per key. *)
Definition wf (st : State) : Prop :=
  NoDup (JsMap.keys (clients st)) /\
  (forall c, In c (JsMap.keys (clients st)) -> (c < next_ws st)%nat) /\
  NoDup (JsMap.keys (movementUpdates st)).

(** The environments read by the [generatePlayerId] calls of a run: one
    per [player_join] on a connection whose [playerId] is unset. *)
Fixpoint draws (evs : list Event) (st : State) : list Env :=
  match evs with
  | [] => []
  | ev :: evs' =>
      match ev with
      | Message c (player_join _) e =>
          if is_client c st && negb (truthy (JsMap.get Nat.eqb c (conn_playerId st)))
          then [e] else []
      | _ => []
      end ++ draws evs' (step ev st)
  end.

(** The ids handed out along a run. *)
Definition ids_handed_out (evs : list Event) (st : State) : list string :=
  map generatePlayerId (draws evs st).

(** What an id is made of: the clock reading and the two nine-character
    suffixes. *)
Definition id_parts (e : Env) : Z * string * string :=
  (now e, substring 2 9 (rand1 e), substring 2 9 (rand2 e)).

(** The characters of [toString(36)]: digits, lower-case letters and
    the point. *)
Definition base36_char (ch : ascii) : bool :=
  let n := N_of_ascii ch in
  ((48 <=? n) && (n <=? 57) || (97 <=? n) && (n <=? 122) || (n =? 46))%N.

Fixpoint base36 (s : string) : bool :=
  match s with
  | EmptyString => true
  | String ch s' => base36_char ch && base36 s'
  end.

Fixpoint underscore_free (s : string) : bool :=
  match s with
  | EmptyString => true
  | String ch s' => negb (Ascii.eqb ch "_"%char) && underscore_free s'
  end.

End Server.

(* ================================================================== *)
(** ** The client transport (class [GameWebSocket]) *)

Module Client.

Inductive ReadyState := CONNECTING | OPEN | CLOSING | CLOSED.

Definition maxReconnectAttempts : Z := 5.
Definition reconnectDelay : Z := 1000.
(** The close code of an intentional close. *)
Definition CLEAN_CLOSE : Z := 1000.

Record GameWebSocket := {
  (** [this.ws]: [null], or a socket with its [readyState] *)
  ws : option ReadyState;
  reconnectAttempts : Z;
  (** the delay of every [setTimeout] of [attemptReconnect], oldest first *)
  scheduled : list Z;
  (** sockets created by [new WebSocket(url)] *)
  created : nat
}.

(** A new [GameWebSocket(url)]. *)
Definition create : GameWebSocket :=
  {| ws := None; reconnectAttempts := 0; scheduled := []; created := 0 |}.

Definition attemptReconnect (g : GameWebSocket) : GameWebSocket :=
  if (reconnectAttempts g <? maxReconnectAttempts)%Z then
    let attempts := (reconnectAttempts g + 1)%Z in
    let delay := (reconnectDelay * attempts)%Z in
    {| ws := ws g; reconnectAttempts := attempts;
       scheduled := scheduled g ++ [delay]; created := created g |}
  else g.

(** [connect()]; [throws] tells whether [new WebSocket(url)] throws. *)
Definition connect (throws : bool) (g : GameWebSocket) : GameWebSocket :=
  match ws g with
  | Some CONNECTING | Some OPEN => g
  | _ =>
      if throws then
        attemptReconnect
          {| ws := None; reconnectAttempts := reconnectAttempts g;
             scheduled := scheduled g; created := created g |}
      else
        {| ws := Some CONNECTING; reconnectAttempts := reconnectAttempts g;
           scheduled := scheduled g; created := S (created g) |}
  end.

Definition onopen (g : GameWebSocket) : GameWebSocket :=
  {| ws := Some OPEN; reconnectAttempts := 0;
     scheduled := scheduled g; created := created g |}.

Definition onclose (code : Z) (g : GameWebSocket) : GameWebSocket :=
  let g1 := {| ws := None; reconnectAttempts := reconnectAttempts g;
               scheduled := scheduled g; created := created g |} in
  if negb (code =? CLEAN_CLOSE)%Z then attemptReconnect g1 else g1.

(** The callback of the [setTimeout] of [attemptReconnect]. *)
Definition ontimeout (throws : bool) (g : GameWebSocket) : GameWebSocket :=
  match ws g with
  | None | Some CLOSED => connect throws g
  | _ => g
  end.

Definition disconnect (g : GameWebSocket) : GameWebSocket :=
  match ws g with
  | Some _ => {| ws := None; reconnectAttempts := reconnectAttempts g;
                 scheduled := scheduled g; created := created g |}
  | None => g
  end.

Inductive Event :=
| DoConnect (throws : bool)
| SocketOpen
| SocketClose (code : Z)
| Timeout (throws : bool)
| DoDisconnect.

Definition step (ev : Event) (g : GameWebSocket) : GameWebSocket :=
  match ev with
  | DoConnect throws => connect throws g
  | SocketOpen => onopen g
  | SocketClose code => onclose code g
  | Timeout throws => ontimeout throws g
  | DoDisconnect => disconnect g
  end.

Fixpoint run (evs : list Event) (g : GameWebSocket) : GameWebSocket :=
  match evs with
  | [] => g
  | ev :: evs' => run evs' (step ev g)
  end.

Definition is_open_event (ev : Event) : bool :=
  match ev with SocketOpen => true | _ => false end.

(** The delays of the first [n] retries: base delay times attempt number. *)
Definition backoff (n : nat) : list Z :=
  map (fun k => (reconnectDelay * Z.of_nat k)%Z) (seq 1 n).

(** Since the counter was last at zero, with the log [base], [k] retries
    were scheduled, [k] at most the maximum. *)
Definition retries_counted (base : list Z) (g : GameWebSocket) : Prop :=
  exists k : nat, (k <= 5)%nat /\
    reconnectAttempts g = Z.of_nat k /\ scheduled g = base ++ backoff k.

End Client.

(* ================================================================== *)
(** ** Concrete scenarios *)

Module Scenarios.
Import Server.

Definition envA : Env :=
  {| now := 1700000000000; rand1 := "0.4fzyo82mvyr"; rand2 := "0.k1x9w0c3d2e" |}.
Definition envB : Env :=
  {| now := 1700000000050; rand1 := "0.zx81hq0aa1b"; rand2 := "0.b7m2n4p6q8r" |}.

(** The join request the client sends: a temporary id and its own state. *)
Definition gopher (nm : string) (px py : Q) : PlayerMsg :=
  {| p_id := Some "temp"; p_name := Some nm;
     p_pos := Some {| x := Num px; y := Num py |};
     p_direction := Some "front"; p_isMoving := Some false; p_color := None |}.

Definition idA : string := generatePlayerId envA.
Definition idB : string := generatePlayerId envB.

(** An absolute and a delta [player_move]. *)
Definition move_to (claimed : option string) (px py : Q) : MoveMsg :=
  {| m_playerId := claimed; m_pos := Some {| x := Num px; y := Num py |};
     m_dx := None; m_dy := None;
     m_direction := Some "right"; m_isMoving := Some true; m_seq := Some 1%Z |}.
Definition move_by (claimed : option string) (dx dy : Q) : MoveMsg :=
  {| m_playerId := claimed; m_pos := None;
     m_dx := Some dx; m_dy := Some dy;
     m_direction := Some "right"; m_isMoving := Some true; m_seq := Some 2%Z |}.

(** One client connected and joined at (100,100). *)
Definition one_player : State :=
  run [Connect; Message 0%nat (player_join (Some (gopher "Ann" 100 100))) envA] init.

(** Two clients connected, the first joined, the second not yet. *)
Definition one_joined_one_idle : State :=
  run [Connect; Connect; Message 0%nat (player_join (Some (gopher "Ann" 100 100))) envA] init.

(** Two clients connected and joined. *)
Definition two_players : State :=
  run [Message 1%nat (player_join (Some (gopher "Bob" 200 200))) envB] one_joined_one_idle.

(** A clock reading well after the joins. *)
Definition later (ms : Z) : Env :=
  {| now := 1700000001000 + ms; rand1 := "0.000000000"; rand2 := "0.000000000" |}.

(** The first client has moved once, at [later 0]. *)
Definition after_move : State :=
  run [Message 0%nat (player_move (move_to (Some idA) 10 10)) (later 0)] two_players.

(** Three movement events as [broadcast] receives them. *)
Definition mv (k : Z) : ServerMsg :=
  player_moved idA {| x := Num (inject_Z k); y := Num 7 |} (Some "right") (Some true)
    (Some k) (1700000001000 + k).

End Scenarios.

(* ================================================================== *)
(** ** Further vocabulary for the server *)

Module ServerSpec.
Import Server.

(** Every entry of [players] is filed under its own [id]. *)
Definition filed_under_id (st : State) : Prop :=
  forall k d, In (k, d) (players st) -> id d = k.

(** [players] and [wsToPlayerId] have one entry per key. *)
Definition single_entries (st : State) : Prop :=
  NoDup (JsMap.keys (players st)) /\ NoDup (JsMap.keys (wsToPlayerId st)).

(** Every id the server holds (registry keys, closure variables,
    [wsToPlayerId] values) is in [known]. *)
Definition ids_within (known : list string) (st : State) : Prop :=
  (forall k, In k (JsMap.keys (players st)) -> In k known) /\
  (forall c s, JsMap.get Nat.eqb c (conn_playerId st) = Some s -> In s known) /\
  (forall c s, JsMap.get Nat.eqb c (wsToPlayerId st) = Some s -> In s known).

(** Every stored position lies in the closed map rectangle. *)
Definition positions_in_map (st : State) : Prop :=
  forall k d, In (k, d) (players st) -> in_bounds_closed (pos d).

(** A join request proposes no position, or one inside the rectangle. *)
Definition join_in_map (ev : Event) : Prop :=
  match ev with
  | Message _ (player_join (Some p)) _ =>
      match p_pos p with
      | Some q => in_bounds_closed q
      | None => True
      end
  | _ => True
  end.

(** A move request in the absolute form gives both coordinates as
    numbers. *)
Definition move_numeric (ev : Event) : Prop :=
  match ev with
  | Message _ (player_move m) _ =>
      match m_dx m, m_dy m with
      | Some _, Some _ => True
      | _, _ =>
          match m_pos m with
          | Some p => numeric p
          | None => True
          end
      end
  | _ => True
  end.

(** Every registry entry is the player of a connection that is still
    in [wss.clients]. *)
Definition owned_by_client (st : State) : Prop :=
  forall k, In k (JsMap.keys (players st)) ->
    exists c, is_client c st = true /\
              JsMap.get Nat.eqb c (conn_playerId st) = Some k.

(** The closure variable [playerId] of a connection is never the empty
    string. *)
Definition ids_nonempty (st : State) : Prop :=
  forall c s, JsMap.get Nat.eqb c (conn_playerId st) = Some s -> s <> EmptyString.

(** A [player_move] request with neither an absolute position nor a
    complete delta. *)
Definition no_position (m : MoveMsg) : Prop :=
  m_pos m = None /\ (m_dx m = None \/ m_dy m = None).

(** The socket [c] was allocated, has left [wss.clients], and still has
    movement messages queued while the interval runs. *)
Definition stale_queue (c : ws) (q : list ServerMsg) (st : State) : Prop :=
  ~ In c (JsMap.keys (clients st)) /\ (c < next_ws st)%nat /\
  JsMap.get Nat.eqb c (movementUpdates st) = Some q /\ q <> [] /\
  broadcastTimer st <> None.

(** Two connected clients; the first joined and moved, then closed
    before the next tick of the batcher. *)
Definition closed_with_pending : State :=
  run [Message 1%nat (player_move (Scenarios.move_to None 30 30)) (Scenarios.later 0);
       Close 0%nat]
    Scenarios.two_players.

End ServerSpec.

(* ================================================================== *)
(** ** Server start-up: the [PORT] check of [server.js] *)

Module Port.

(** The characters [parseInt] skips at the start: tab, line feed,
    vertical tab, form feed, carriage return and space.  The
    environment variable is taken as a string of ASCII characters. *)
Definition is_white (ch : ascii) : bool :=
  let n := N_of_ascii ch in
  ((9 <=? n) && (n <=? 13) || (n =? 32))%N.

Definition digit_of (ch : ascii) : option Z :=
  let n := N_of_ascii ch in
  if ((48 <=? n) && (n <=? 57))%N then Some (Z.of_N n - 48)%Z else None.

Fixpoint skip_white (s : string) : string :=
  match s with
  | String ch s' => if is_white ch then skip_white s' else s
  | EmptyString => s
  end.

(** The value of the longest prefix of decimal digits, continuing from
    [acc]; [None] while no digit was read. *)
Fixpoint digits (acc : option Z) (s : string) : option Z :=
  match s with
  | String ch s' =>
      match digit_of ch with
      | Some d =>
          digits (Some (10 * match acc with Some a => a | None => 0 end + d)%Z) s'
      | None => acc
      end
  | EmptyString => acc
  end.

(** [parseInt(s, 10)]; [None] is [NaN]. *)
Definition parseInt (s : string) : option Z :=
  match skip_white s with
  | String "-"%char s' => option_map Z.opp (digits None s')
  | String "+"%char s' => digits None s'
  | s' => digits None s'
  end.

(** [parseInt(process.env.PORT || '10000', 10)] followed by the range
    check; [None] when the process exits with status 1. *)
Definition PORT (env : option string) : option Z :=
  let raw :=
    match env with
    | Some s => if String.eqb s EmptyString then "10000" else s
    | None => "10000"
    end in
  match parseInt raw with
  | None => None
  | Some n => if ((n <? 1) || (65535 <? n))%Z then None else Some n
  end.

Fixpoint all_white (s : string) : bool :=
  match s with
  | String ch s' => is_white ch && all_white s'
  | EmptyString => true
  end.

(** The string does not begin with a decimal digit. *)
Definition no_leading_digit (s : string) : bool :=
  match s with
  | String ch _ => match digit_of ch with Some _ => false | None => true end
  | EmptyString => true
  end.

(** The number a decimal numeral denotes, continuing from [acc]. *)
Fixpoint uint_value (acc : Z) (d : Decimal.uint) : Z :=
  match d with
  | Decimal.Nil => acc
  | Decimal.D0 l => uint_value (10 * acc + 0) l
  | Decimal.D1 l => uint_value (10 * acc + 1) l
  | Decimal.D2 l => uint_value (10 * acc + 2) l
  | Decimal.D3 l => uint_value (10 * acc + 3) l
  | Decimal.D4 l => uint_value (10 * acc + 4) l
  | Decimal.D5 l => uint_value (10 * acc + 5) l
  | Decimal.D6 l => uint_value (10 * acc + 6) l
  | Decimal.D7 l => uint_value (10 * acc + 7) l
  | Decimal.D8 l => uint_value (10 * acc + 8) l
  | Decimal.D9 l => uint_value (10 * acc + 9) l
  end.

End Port.

(* ================================================================== *)
(** ** Grid path finding ([findPath]) *)

Module PathFinding.

Definition GRID_WIDTH : Z := 20.
Definition GRID_HEIGHT : Z := 15.
Definition MAX_ITERATIONS : nat := 1000.

(** A grid cell; coordinates are integers (the numbers of the source
    are exact on them far beyond the grid). *)
Record Point := { x : Z; y : Z }.

(** An entry of [queue]. *)
Record Node := { pos : Point; path : list Point }.

(** [a.x === b.x && a.y === b.y] *)
Definition same_cell (a b : Point) : bool :=
  (x a =? x b)%Z && (y a =? y b)%Z.

(** The key of a cell in [visited]: [`${x},${y}`]. *)
Definition key (p : Point) : string :=
  (Server.show_int (x p) ++ "," ++ Server.show_int (y p))%string.

(** Up, down, left, right. *)
Definition neighbors (p : Point) : list Point :=
  [ {| x := x p; y := y p - 1 |};
    {| x := x p; y := y p + 1 |};
    {| x := x p - 1; y := y p |};
    {| x := x p + 1; y := y p |} ]%Z.

Definition in_grid (n : Point) : bool :=
  ((0 <=? x n) && (x n <? GRID_WIDTH) && (0 <=? y n) && (y n <? GRID_HEIGHT))%Z.

(** [visited.has(key)] *)
Definition has (k : string) (visited : list string) : bool :=
  existsb (String.eqb k) visited.

(** The [for (const n of neighbors)] loop: every neighbour that is in
    the grid, not visited and walkable is marked visited and queued with
    the path extended by it. *)
Fixpoint visit (isWalkable : Z -> Z -> bool) (path : list Point)
  (ns : list Point) (queue : list Node) (visited : list string)
  : list Node * list string :=
  match ns with
  | [] => (queue, visited)
  | n :: ns' =>
      if in_grid n && negb (has (key n) visited) && isWalkable (x n) (y n)
      then visit isWalkable path ns'
             (queue ++ [{| pos := n; path := path ++ [n] |}])
             (visited ++ [key n])
      else visit isWalkable path ns' queue visited
  end.

(** The [while] loop; [remaining] is [MAX_ITERATIONS - iterations]. *)
Fixpoint search (remaining : nat) (target : Point) (isWalkable : Z -> Z -> bool)
  (queue : list Node) (visited : list string) : option (list Point) :=
  match remaining with
  | O => None
  | S remaining' =>
      match queue with
      | [] => None
      | node :: rest =>
          if same_cell (pos node) target then Some (path node)
          else
            let (queue', visited') :=
              visit isWalkable (path node) (neighbors (pos node)) rest visited in
            search remaining' target isWalkable queue' visited'
      end
  end.

(** [findPath(start, end, isWalkable)]; [None] is [null]. *)
Definition findPath (start target : Point) (isWalkable : Z -> Z -> bool)
  : option (list Point) :=
  if negb (isWalkable (x target) (y target)) then None
  else if same_cell start target then Some []
  else search MAX_ITERATIONS target isWalkable
         [{| pos := start; path := [] |}] [key start].

(** *** Specification vocabulary *)

(** A cell the search may enter. *)
Definition open_cell (isWalkable : Z -> Z -> bool) (n : Point) : Prop :=
  in_grid n = true /\ isWalkable (x n) (y n) = true.

(** [steps] is a walk from [from]: each cell is a neighbour of the one
    before it, inside the grid and walkable. *)
Fixpoint walk (isWalkable : Z -> Z -> bool) (from : Point) (steps : list Point) : Prop :=
  match steps with
  | [] => True
  | n :: rest =>
      In n (neighbors from) /\ open_cell isWalkable n /\ walk isWalkable n rest
  end.

(** Where a walk from [from] ends. *)
Definition walk_end (from : Point) (steps : list Point) : Point :=
  last steps from.

(** The string has no occurrence of the character. *)
Fixpoint free_of (ch : ascii) (s : string) : bool :=
  match s with
  | EmptyString => true
  | String ch' s' => negb (Ascii.eqb ch' ch) && free_of ch s'
  end.

(** The cells of the grid. *)
Definition grid_cells : list Point :=
  flat_map
    (fun i => map (fun j => {| x := Z.of_nat i; y := Z.of_nat j |}) (seq 0 15))
    (seq 0 20).

(** The loop invariant of [search], with the cells already taken from
    the queue as ghost state. *)
Record search_inv (isWalkable : Z -> Z -> bool) (start target : Point)
  (processed : list Point) (queue : list Node) (visited : list string) : Prop := {
  inv_start : In (key start) visited;
  inv_queue : forall nd, In nd queue -> In (key (pos nd)) visited;
  inv_cover : forall k, In k visited ->
      exists p, key p = k /\ (In p processed \/ exists nd, In nd queue /\ pos nd = p);
  inv_closed : forall p n, In p processed -> In n (neighbors p) ->
      open_cell isWalkable n -> In (key n) visited;
  inv_not_target : forall p, In p processed -> p <> target;
  inv_nodup : NoDup visited;
  inv_cells : forall k, In k visited ->
      k = key start \/ exists n, in_grid n = true /\ k = key n;
  inv_paths : forall nd, In nd queue ->
      walk isWalkable start (path nd) /\ walk_end start (path nd) = pos nd
}.

(** The breadth-first order of [search]: the queue holds paths of
    length [d] followed by paths of length [d + 1], each the shortest
    way to its cell, and every cell less than [d] steps away has been
    taken from the queue. *)
Record shortest_inv (isWalkable : Z -> Z -> bool) (start : Point)
  (processed : list Point) (queue : list Node) (d : nat) : Prop := {
  opt_levels : exists lo hi,
      queue = lo ++ hi /\
      (forall nd, In nd lo -> List.length (path nd) = d) /\
      (forall nd, In nd hi -> List.length (path nd) = S d) /\
      (lo = [] -> hi = []);
  opt_min : forall nd steps, In nd queue ->
      walk isWalkable start steps -> walk_end start steps = pos nd ->
      (List.length (path nd) <= List.length steps)%nat;
  opt_done : forall steps,
      walk isWalkable start steps -> (List.length steps < d)%nat ->
      In (walk_end start steps) processed
}.

(** A maze: the fourth column is a wall with a gap at its bottom. *)
Definition maze (cx cy : Z) : bool :=
  negb ((cx =? 3)%Z && (cy <? 14)%Z).

End PathFinding.

(* ================================================================== *)
(** ** Facts about [JsMap] *)

Module JsMapFacts.
Section Facts.
Context {K V : Type} (keq : K -> K -> bool).
Hypothesis keq_spec : forall a b, keq a b = true <-> a = b.

Lemma keq_refl (k : K) : keq k k = true.
Proof. now apply keq_spec. Qed.

Lemma keq_neq (a b : K) : a <> b -> keq a b = false.
Proof.
  intros Hab. destruct (keq a b) eqn:E; [|reflexivity].
  apply keq_spec in E. contradiction.
Qed.

Lemma get_set_same (k : K) (v : V) (m : JsMap.t K V) :
  JsMap.get keq k (JsMap.set keq k v m) = Some v.
Proof.
  induction m as [|[k' v'] m IH]; simpl.
  - now rewrite keq_refl.
  - destruct (keq k k') eqn:E; simpl.
    + now rewrite keq_refl.
    + now rewrite E.
Qed.

Lemma get_set_other (k k' : K) (v : V) (m : JsMap.t K V) :
  k <> k' -> JsMap.get keq k' (JsMap.set keq k v m) = JsMap.get keq k' m.
Proof.
  intros Hne. induction m as [|[k0 v0] m IH]; simpl.
  - rewrite keq_neq; auto.
  - destruct (keq k k0) eqn:E; simpl.
    + apply keq_spec in E. subst k0.
      rewrite (keq_neq k' k); auto.
    + now rewrite IH.
Qed.

Lemma get_delete_none (k k' : K) (m : JsMap.t K V) :
  JsMap.get keq k' m = None -> JsMap.get keq k' (JsMap.delete keq k m) = None.
Proof.
  induction m as [|[k0 v0] m IH]; simpl; [reflexivity|].
  destruct (keq k' k0) eqn:E'; [discriminate|].
  intros Hm. destruct (keq k k0); simpl; [assumption|].
  rewrite E'. auto.
Qed.

Lemma get_not_in_keys (k : K) (m : JsMap.t K V) :
  ~ In k (JsMap.keys m) -> JsMap.get keq k m = None.
Proof.
  induction m as [|[k0 v0] m IH]; simpl; [reflexivity|].
  intros Hn. destruct (keq k k0) eqn:E.
  - apply keq_spec in E. subst. exfalso. apply Hn. now left.
  - apply IH. intros Hin. apply Hn. now right.
Qed.

Lemma get_In (k : K) (v : V) (m : JsMap.t K V) :
  JsMap.get keq k m = Some v -> In (k, v) m.
Proof.
  induction m as [|[k0 v0] m IH]; simpl; [discriminate|].
  destruct (keq k k0) eqn:E.
  - apply keq_spec in E. subst. intros H. inversion H. now left.
  - intros H. right. now apply IH.
Qed.

Lemma in_keys_set (k k' : K) (v : V) (m : JsMap.t K V) :
  In k' (JsMap.keys (JsMap.set keq k v m)) -> k' = k \/ In k' (JsMap.keys m).
Proof.
  induction m as [|[k0 v0] m IH]; simpl.
  - intros [H|[]]. now left.
  - destruct (keq k k0) eqn:E; simpl.
    + apply keq_spec in E. subst k0. intros [H|H]; auto.
    + intros [H|H]; auto. destruct (IH H); auto.
Qed.

Lemma in_keys_delete (k k' : K) (m : JsMap.t K V) :
  In k' (JsMap.keys (JsMap.delete keq k m)) -> In k' (JsMap.keys m).
Proof.
  induction m as [|[k0 v0] m IH]; simpl; [tauto|].
  destruct (keq k k0); simpl; intros H; auto.
  destruct H; auto.
Qed.

Lemma nodup_keys_set (k : K) (v : V) (m : JsMap.t K V) :
  NoDup (JsMap.keys m) -> NoDup (JsMap.keys (JsMap.set keq k v m)).
Proof.
  induction m as [|[k0 v0] m IH]; simpl.
  - intros _. constructor; [intros []|constructor].
  - intros Hnd. inversion Hnd as [|? ? Hnotin Hnd']; subst.
    destruct (keq k k0) eqn:E; simpl.
    + apply keq_spec in E. subst k0. now constructor.
    + constructor; [|now apply IH].
      intros Hin. apply in_keys_set in Hin. destruct Hin as [->|Hin].
      * rewrite keq_refl in E. discriminate.
      * contradiction.
Qed.

Lemma nodup_keys_delete (k : K) (m : JsMap.t K V) :
  NoDup (JsMap.keys m) -> NoDup (JsMap.keys (JsMap.delete keq k m)).
Proof.
  induction m as [|[k0 v0] m IH]; simpl; [trivial|].
  intros Hnd. inversion Hnd as [|? ? Hnotin Hnd']; subst.
  destruct (keq k k0); simpl; [assumption|].
  constructor; [|now apply IH].
  intros Hin. apply in_keys_delete in Hin. contradiction.
Qed.

End Facts.
End JsMapFacts.

(* ================================================================== *)
(** ** Facts about the server *)

Module ServerFacts.
Import Server.

Lemma string_eqb_spec (a b : string) : String.eqb a b = true <-> a = b.
Proof. apply String.eqb_eq. Qed.

Lemma nat_eqb_spec (a b : nat) : Nat.eqb a b = true <-> a = b.
Proof. apply Nat.eqb_eq. Qed.

(** *** What [broadcast], [send] and [onTick] leave alone *)

Lemma broadcast_players message ex st :
  players (broadcast message ex st) = players st.
Proof. unfold broadcast. destruct (is_player_move message); reflexivity. Qed.

Lemma broadcast_wsToPlayerId message ex st :
  wsToPlayerId (broadcast message ex st) = wsToPlayerId st.
Proof. unfold broadcast. destruct (is_player_move message); reflexivity. Qed.

Lemma broadcast_conn_playerId message ex st :
  conn_playerId (broadcast message ex st) = conn_playerId st.
Proof. unfold broadcast. destruct (is_player_move message); reflexivity. Qed.

Lemma broadcast_lastUpdateTime message ex st :
  lastUpdateTime (broadcast message ex st) = lastUpdateTime st.
Proof. unfold broadcast. destruct (is_player_move message); reflexivity. Qed.

Lemma broadcast_clients message ex st :
  clients (broadcast message ex st) = clients st.
Proof. unfold broadcast. destruct (is_player_move message); reflexivity. Qed.

Create Rewrite HintDb bc.
#[local] Hint Rewrite broadcast_players broadcast_wsToPlayerId
  broadcast_conn_playerId broadcast_lastUpdateTime broadcast_clients : bc.

(** Case analysis on the guards of a handler. *)
Ltac guards :=
  repeat match goal with
    | |- context [match ?t with _ => _ end] => destruct t eqn:?
    end.

(** *** Identity bookkeeping: [wsToPlayerId] never runs ahead of the
    closure variable *)

Lemma ids_in_step_init : ids_in_step init.
Proof. intros c _. reflexivity. Qed.

Lemma on_player_move_ids c m e st :
  conn_playerId (on_player_move c m e st) = conn_playerId st /\
  wsToPlayerId (on_player_move c m e st) = wsToPlayerId st.
Proof.
  unfold on_player_move. guards; autorewrite with bc; simpl; auto.
Qed.

Lemma on_chat_ids c message st :
  conn_playerId (on_chat c message st) = conn_playerId st /\
  wsToPlayerId (on_chat c message st) = wsToPlayerId st.
Proof.
  unfold on_chat. guards; autorewrite with bc; simpl; auto.
Qed.

Lemma on_player_update_ids c p st :
  conn_playerId (on_player_update c p st) = conn_playerId st /\
  wsToPlayerId (on_player_update c p st) = wsToPlayerId st.
Proof.
  unfold on_player_update. guards; autorewrite with bc; simpl; auto.
Qed.

Lemma on_player_join_ids_in_step c p e st :
  ids_in_step st -> ids_in_step (on_player_join c p e st).
Proof.
  intros Hinv c'. unfold on_player_join, send.
  destruct p as [p|]; simpl; autorewrite with bc; simpl;
    destruct (truthy (JsMap.get Nat.eqb c (conn_playerId st))) eqn:Ht; simpl;
    try apply Hinv;
    (destruct (Nat.eq_dec c c') as [->|Hne];
     [rewrite (JsMapFacts.get_set_same Nat.eqb nat_eqb_spec); discriminate
     |rewrite !(JsMapFacts.get_set_other Nat.eqb nat_eqb_spec) by assumption;
      apply Hinv]).
Qed.

Lemma onClose_ids_in_step c st :
  ids_in_step st -> ids_in_step (onClose c st).
Proof.
  intros Hinv c'. unfold onClose.
  guards; autorewrite with bc; simpl; try apply Hinv.
  intros Hc'. apply (JsMapFacts.get_delete_none Nat.eqb). now apply Hinv.
Qed.

Lemma step_ids_in_step ev st :
  ids_in_step st -> ids_in_step (step ev st).
Proof.
  intros Hinv. destruct ev as [|c msg e|c|c|]; simpl.
  - exact Hinv.
  - destruct (is_client c st); [|exact Hinv].
    destruct msg as [p|m|message|p|]; simpl.
    + now apply on_player_join_ids_in_step.
    + intros c'. destruct (on_player_move_ids c m e st) as [-> ->]. apply Hinv.
    + intros c'. destruct (on_chat_ids c message st) as [-> ->]. apply Hinv.
    + intros c'. destruct (on_player_update_ids c p st) as [-> ->]. apply Hinv.
    + exact Hinv.
  - destruct (is_client c st); exact Hinv.
  - destruct (is_client c st); [|exact Hinv].
    apply onClose_ids_in_step. exact Hinv.
  - destruct (broadcastTimer st); exact Hinv.
Qed.

Lemma run_ids_in_step evs st :
  ids_in_step st -> ids_in_step (run evs st).
Proof.
  revert st. induction evs as [|ev evs IH]; intros st Hinv; simpl.
  - exact Hinv.
  - apply IH, step_ids_in_step, Hinv.
Qed.

Lemma unassigned_has_no_owner evs c :
  JsMap.get Nat.eqb c (conn_playerId (run evs init)) = None ->
  ownerId c (run evs init) = None.
Proof.
  intros Hc. unfold ownerId, id_or. rewrite Hc. simpl.
  now apply (run_ids_in_step evs init ids_in_step_init).
Qed.

(** *** Requests of a connection without an id *)

(** C10. A connection whose closure variable [playerId] was never set
    (no [player_join] handled for it) has its [player_move], [chat] and
    [player_update] requests ignored: the whole server state, registry,
    queues and write log included, is unchanged; and its close writes
    nothing, queues nothing and leaves the registry as it was, so no
    [player_leave] goes out. *)
Theorem C10_unregistered_connection_ignored
  (evs : list Event) (c : ws) (m : MoveMsg) (text : option string)
  (p : option PlayerMsg) (e : Env) :
  JsMap.get Nat.eqb c (conn_playerId (run evs init)) = None ->
  let st := run evs init in
  step (Message c (player_move m) e) st = st /\
  step (Message c (chat text) e) st = st /\
  step (Message c (player_update p) e) st = st /\
  sent (step (Close c) st) = sent st /\
  movementUpdates (step (Close c) st) = movementUpdates st /\
  players (step (Close c) st) = players st.
Proof.
  intros Hc st. pose proof (unassigned_has_no_owner evs c Hc) as Hown.
  fold st in Hown. simpl.
  unfold on_player_move, on_chat, on_player_update, onClose.
  assert (Hown' : ownerId c
            (with_clients (JsMap.delete Nat.eqb c (clients st)) (next_ws st) st)
          = None) by exact Hown.
  rewrite Hown, Hown'.
  repeat split; destruct (is_client c st); reflexivity.
Qed.

Lemma C10_witness :
  let st := run [Connect] init in
  step (Message 0%nat (player_move (Scenarios.move_to None 10 10)) Scenarios.envA) st = st /\
  step (Message 0%nat (chat (Some "hi")) Scenarios.envA) st = st /\
  step (Message 0%nat (player_update (Some (Scenarios.gopher "Eve" 1 1))) Scenarios.envA) st = st /\
  sent (step (Close 0%nat) st) = sent st /\
  movementUpdates (step (Close 0%nat) st) = movementUpdates st /\
  players (step (Close 0%nat) st) = players st.
Proof.
  apply (C10_unregistered_connection_ignored [Connect] 0%nat).
  reflexivity.
Defined.

(** *** What a [player_move] writes *)

(** What an applied move writes. *)
Lemma move_applied_effect c m e st A t :
  move_applied c m e st = Some (A, t) ->
  exists currentPlayer vp,
    ownerId c st = Some A /\ t = now e /\
    (UPDATE_RATE_LIMIT <= now e - lastUpdate A st)%Z /\
    JsMap.get String.eqb A (players st) = Some currentPlayer /\
    validPos m currentPlayer = Some vp /\
    players (on_player_move c m e st) =
      JsMap.set String.eqb A
        {| id := id currentPlayer; name := name currentPlayer; pos := vp;
           direction := m_direction m; isMoving := m_isMoving m;
           color := color currentPlayer |} (players st) /\
    lastUpdateTime (on_player_move c m e st) =
      JsMap.set String.eqb A (now e) (lastUpdateTime st).
Proof.
  unfold move_applied, on_player_move.
  destruct (ownerId c st) as [mid|]; [|discriminate].
  destruct (JsMap.get String.eqb mid (players st)) as [cur|] eqn:Hcur; [|discriminate].
  destruct (truthy (Some mid)); [|discriminate].
  destruct (id_mismatch (m_playerId m) mid); [discriminate|].
  destruct (too_frequent mid e st) eqn:Hfreq; [discriminate|]. simpl.
  destruct (validPos m cur) as [vp|] eqn:Hvp; [|discriminate].
  intros H. inversion H; subst. exists cur, vp.
  unfold too_frequent in Hfreq. apply Z.ltb_ge in Hfreq.
  autorewrite with bc. simpl. repeat split; auto.
Qed.

(** A move that is not applied leaves the registry as it was. *)
Lemma move_not_applied_effect c m e st :
  move_applied c m e st = None ->
  players (on_player_move c m e st) = players st.
Proof.
  unfold move_applied, on_player_move.
  destruct (ownerId c st) as [mid|]; [|reflexivity].
  destruct (JsMap.get String.eqb mid (players st)) as [cur|];
    [|destruct (truthy (Some mid)); reflexivity].
  destruct (truthy (Some mid)); [|reflexivity].
  destruct (id_mismatch (m_playerId m) mid); [reflexivity|].
  destruct (too_frequent mid e st); [reflexivity|]. simpl.
  destruct (validPos m cur); [discriminate|reflexivity].
Qed.

(** *** Ownership check of [player_move] *)

Lemma id_mismatch_falsy claimed owner :
  truthy claimed = false -> id_mismatch claimed owner = false.
Proof.
  unfold truthy, id_mismatch. destruct claimed as [s|]; [|reflexivity].
  intros H. now rewrite H.
Qed.

Lemma id_mismatch_own owner : id_mismatch (Some owner) owner = false.
Proof. unfold id_mismatch. rewrite String.eqb_refl. apply andb_false_r. Qed.

(** The ownership test is the only place where the handler reads
    [msg.playerId]. *)
Lemma on_player_move_claiming c m e st claimed :
  forall owner, ownerId c st = Some owner ->
  id_mismatch claimed owner = id_mismatch (m_playerId m) owner ->
  on_player_move c (claiming claimed m) e st = on_player_move c m e st.
Proof.
  intros owner Hown Hmis. unfold on_player_move. rewrite Hown.
  destruct (truthy (Some owner)); [|reflexivity].
  destruct (JsMap.get String.eqb owner (players st)) as [cur|]; [|reflexivity].
  change (m_playerId (claiming claimed m)) with claimed. rewrite Hmis.
  reflexivity.
Qed.

(** C2 (as the code has it). When the connection acts for id [A], a
    [player_move] whose [playerId] is a non-empty string other than [A]
    is dropped: the server state (registry, rate-limit timestamps,
    queues, write log) is unchanged.  A [playerId] that is absent or
    empty is not compared with [A]: such a request [m0] is handled
    exactly as the same request carrying [A] is.  It is applied to [A]
    whenever [A] is registered, the rate limiter admits the request and
    the request has a position: the registry entry of [A] takes the
    clamped position, the direction and the motion flag of the request,
    and the clock reading is recorded; when it is not applied the
    registry is unchanged. *)
Theorem C2_foreign_id_move_dropped
  (c : ws) (A B : string) (m m0 : MoveMsg) (e : Env) (st : State) :
  ownerId c st = Some A ->
  m_playerId m = Some B ->
  B <> EmptyString ->
  B <> A ->
  truthy (m_playerId m0) = false ->
  onMessage c (player_move m) e st = st /\
  onMessage c (player_move m0) e st
    = onMessage c (player_move (claiming (Some A) m0)) e st /\
  (forall cur vp,
      A <> EmptyString ->
      JsMap.get String.eqb A (players st) = Some cur ->
      (UPDATE_RATE_LIMIT <= now e - lastUpdate A st)%Z ->
      validPos m0 cur = Some vp ->
      move_applied c m0 e st = Some (A, now e) /\
      players (onMessage c (player_move m0) e st)
        = JsMap.set String.eqb A
            {| id := id cur; name := name cur; pos := vp;
               direction := m_direction m0; isMoving := m_isMoving m0;
               color := color cur |} (players st) /\
      lastUpdateTime (onMessage c (player_move m0) e st)
        = JsMap.set String.eqb A (now e) (lastUpdateTime st)) /\
  (move_applied c m0 e st = None ->
   players (onMessage c (player_move m0) e st) = players st).
Proof.
  intros Hown Hm Hne HBA Hfalsy.
  pose proof (id_mismatch_falsy _ A Hfalsy) as Hmis0.
  split; [|split; [|split]].
  - simpl. unfold on_player_move. rewrite Hown.
    destruct (truthy (Some A)); [|reflexivity].
    destruct (JsMap.get String.eqb A (players st)); [|reflexivity].
    unfold id_mismatch. rewrite Hm.
    apply String.eqb_neq in Hne, HBA. rewrite Hne, HBA. reflexivity.
  - cbn [onMessage]. symmetry. apply (on_player_move_claiming c m0 e st (Some A) A Hown).
    now rewrite id_mismatch_own, Hmis0.
  - intros cur vp HA Hcur Hgap Hvp. cbn [onMessage].
    assert (Happ : move_applied c m0 e st = Some (A, now e)).
    { unfold move_applied. rewrite Hown, Hcur, Hmis0. unfold too_frequent.
      apply Z.ltb_ge in Hgap. rewrite Hgap, Hvp.
      assert (Ht : truthy (Some A) = true).
      { simpl. apply String.eqb_neq in HA. now rewrite HA. }
      now rewrite Ht. }
    split; [exact Happ|].
    destruct (move_applied_effect c m0 e st A (now e) Happ)
      as (cur' & vp' & _ & _ & _ & Hcur' & Hvp' & Hp & Hl).
    rewrite Hcur in Hcur'. inversion Hcur'; subst cur'.
    rewrite Hvp in Hvp'. inversion Hvp'; subst vp'.
    split; assumption.
  - cbn [onMessage]. apply move_not_applied_effect.
Qed.

Lemma C2_witness :
  onMessage 0%nat
    (player_move (Scenarios.move_to (Some Scenarios.idB) 10 10))
    (Scenarios.later 0) Scenarios.two_players
  = Scenarios.two_players.
Proof.
  refine (proj1 (C2_foreign_id_move_dropped 0%nat Scenarios.idA Scenarios.idB
                   (Scenarios.move_to (Some Scenarios.idB) 10 10)
                   (Scenarios.move_to (Some EmptyString) 10 10)
                   (Scenarios.later 0) Scenarios.two_players _ _ _ _ _)).
  - reflexivity.
  - reflexivity.
  - vm_compute. discriminate.
  - vm_compute. discriminate.
  - reflexivity.
Defined.

(** C2 as stated fails for the empty string: it is present and differs
    from the assigned id, yet the move is applied to the sender's
    player and queued for the other connection. *)
Lemma C2_counterexample :
  ownerId 0%nat Scenarios.two_players = Some Scenarios.idA /\
  m_playerId (Scenarios.move_to (Some EmptyString) 10 10) = Some EmptyString /\
  EmptyString <> Scenarios.idA /\
  players (onMessage 0%nat (player_move (Scenarios.move_to (Some EmptyString) 10 10))
             (Scenarios.later 0) Scenarios.two_players)
    <> players Scenarios.two_players /\
  lastUpdateTime (onMessage 0%nat (player_move (Scenarios.move_to (Some EmptyString) 10 10))
             (Scenarios.later 0) Scenarios.two_players)
    <> lastUpdateTime Scenarios.two_players /\
  movementUpdates (onMessage 0%nat (player_move (Scenarios.move_to (Some EmptyString) 10 10))
             (Scenarios.later 0) Scenarios.two_players)
    <> movementUpdates Scenarios.two_players.
Proof.
  repeat split; try reflexivity; vm_compute; discriminate.
Qed.

(** *** The join protocol *)

Lemma recipients_spec ex st c' :
  In c' (recipients ex st) <-> c' <> ex /\ In (c', OPEN) (clients st).
Proof.
  unfold recipients. rewrite in_map_iff. split.
  - intros [[c0 r] [Hc Hin]]. simpl in Hc. subst c0.
    apply filter_In in Hin. destruct Hin as [Hin Hf]. simpl in Hf.
    apply andb_true_iff in Hf. destruct Hf as [Hne Hop].
    apply negb_true_iff, Nat.eqb_neq in Hne.
    destruct r; try discriminate. auto.
  - intros [Hne Hin]. exists (c', OPEN). split; [reflexivity|].
    apply filter_In. split; [assumption|]. simpl.
    apply Nat.eqb_neq in Hne. now rewrite Hne.
Qed.

(** The writes of one [player_join] with a [player] object, handled
    for the id [pid]. *)
Lemma join_writes c p e st pid :
  pid = match JsMap.get Nat.eqb c (conn_playerId st) with
        | Some s => if truthy (JsMap.get Nat.eqb c (conn_playerId st))
                    then s else generatePlayerId e
        | None => generatePlayerId e
        end ->
  let st' := on_player_join c (Some p) e st in
  players st' = JsMap.set String.eqb pid (joinData pid p) (players st) /\
  sent st' =
    sent st
    ++ [(c, plain (player_id_assigned pid (joinData pid p)))]
    ++ map (fun c' => (c', plain (player_joined (joinData pid p)))) (recipients c st)
    ++ [(c, plain (players_sync
                     (filter (fun q => negb (String.eqb (id q) pid))
                        (JsMap.values (players st')))))] /\
  movementUpdates st' = movementUpdates st /\
  lastUpdateTime st' = lastUpdateTime st.
Proof.
  intros Hpid st'. subst st'. unfold on_player_join. rewrite <- Hpid.
  destruct (truthy (JsMap.get Nat.eqb c (conn_playerId st))); simpl;
    repeat split; rewrite <- ?app_assoc; reflexivity.
Qed.

(** A [player_join] without a [player] object: the id assignment, when
    the connection has no id yet, and nothing else. *)
Lemma join_without_player c e st :
  let st' := on_player_join c None e st in
  players st' = players st /\
  sent st' = sent st /\
  movementUpdates st' = movementUpdates st /\
  lastUpdateTime st' = lastUpdateTime st /\
  broadcastTimer st' = broadcastTimer st /\
  clients st' = clients st /\
  next_ws st' = next_ws st /\
  (truthy (JsMap.get Nat.eqb c (conn_playerId st)) = true -> st' = st) /\
  (truthy (JsMap.get Nat.eqb c (conn_playerId st)) = false ->
   conn_playerId st' = JsMap.set Nat.eqb c (generatePlayerId e) (conn_playerId st) /\
   wsToPlayerId st' = JsMap.set Nat.eqb c (generatePlayerId e) (wsToPlayerId st)).
Proof.
  unfold on_player_join. cbv zeta.
  destruct (JsMap.get Nat.eqb c (conn_playerId st)) as [s|] eqn:Hc;
    [destruct (truthy (Some s)) eqn:Ht|];
    cbn; repeat split; try reflexivity; intros; discriminate.
Qed.

(** What no [player_join] touches. *)
Lemma on_player_join_keeps c p e st :
  lastUpdateTime (on_player_join c p e st) = lastUpdateTime st /\
  movementUpdates (on_player_join c p e st) = movementUpdates st /\
  clients (on_player_join c p e st) = clients st.
Proof.
  destruct p as [p|].
  - destruct (join_writes c p e st _ eq_refl) as (_ & _ & Hq & Hl).
    split; [exact Hl|]. split; [exact Hq|].
    unfold on_player_join, send. cbv zeta. cbn [clients with_sent].
    rewrite broadcast_clients. cbn [clients with_sent with_players].
    destruct (truthy _); reflexivity.
  - destruct (join_without_player c e st) as (_ & _ & Hq & Hl & _ & Hcl & _).
    auto.
Qed.

(** C4 (as the code has it). The first [player_join] of a connection
    [c] (closure variable unset) that carries a [player] object assigns
    the id [generatePlayerId] returns and performs three sends, in this
    order: [player_id_assigned] with the id and the stored state to [c];
    the [player_joined] broadcast with the same state to every open
    connection other than [c]; [players_sync] to [c], listing the
    registered players whose id is not the joiner's.  When two clients
    connect and join one after the other from an empty server and their
    generated ids differ, the second client receives exactly its
    [player_id_assigned] and a [players_sync] whose only entry is the
    first client's state; when the two generated ids are equal, the
    second join replaces the first client's registry entry and the
    [players_sync] is empty.  A first [player_join] without a [player]
    object assigns the id and does nothing else: no registry entry, no
    send. *)
Theorem C4_first_join_three_sends
  (c : ws) (p : PlayerMsg) (e : Env) (st : State)
  (pA pB : PlayerMsg) (eA eB : Env) :
  JsMap.get Nat.eqb c (conn_playerId st) = None ->
  let pid := generatePlayerId e in
  let st' := onMessage c (player_join (Some p)) e st in
  let bare := onMessage c (player_join None) e st in
  let two :=
    run [Connect; Message 0%nat (player_join (Some pA)) eA;
         Connect; Message 1%nat (player_join (Some pB)) eB] init in
  (JsMap.get Nat.eqb c (conn_playerId st') = Some pid /\
   JsMap.get String.eqb pid (players st') = Some (joinData pid p) /\
   sent st' =
     sent st
     ++ [(c, plain (player_id_assigned pid (joinData pid p)))]
     ++ map (fun c' => (c', plain (player_joined (joinData pid p)))) (recipients c st)
     ++ [(c, plain (players_sync
                      (filter (fun q => negb (String.eqb (id q) pid))
                         (JsMap.values (players st')))))] /\
   (forall c', In c' (recipients c st) <-> c' <> c /\ In (c', OPEN) (clients st)) /\
   movementUpdates st' = movementUpdates st)
  /\
  (generatePlayerId eA <> generatePlayerId eB ->
   frames_to 1%nat (sent two)
   = [plain (player_id_assigned (generatePlayerId eB)
               (joinData (generatePlayerId eB) pB));
      plain (players_sync [joinData (generatePlayerId eA) pA])])
  /\
  (generatePlayerId eA = generatePlayerId eB ->
   frames_to 1%nat (sent two)
   = [plain (player_id_assigned (generatePlayerId eB)
               (joinData (generatePlayerId eB) pB));
      plain (players_sync [])] /\
   players two = [(generatePlayerId eB, joinData (generatePlayerId eB) pB)])
  /\
  (JsMap.get Nat.eqb c (conn_playerId bare) = Some pid /\
   JsMap.get Nat.eqb c (wsToPlayerId bare) = Some pid /\
   players bare = players st /\
   sent bare = sent st /\
   movementUpdates bare = movementUpdates st).
Proof.
  intros Hfirst pid st' bare two.
  assert (HA : forall q, id (joinData (generatePlayerId eA) q) = generatePlayerId eA)
    by reflexivity.
  assert (HB : forall q, id (joinData (generatePlayerId eB) q) = generatePlayerId eB)
    by reflexivity.
  split; [|split; [|split]].
  - destruct (join_writes c p e st pid) as (Hp & Hs & Hq & _).
    { now rewrite Hfirst. }
    subst st'. change (onMessage c (player_join (Some p)) e st)
      with (on_player_join c (Some p) e st).
    split; [|split; [|split; [|split]]].
    + unfold on_player_join, send. simpl. autorewrite with bc. simpl.
      rewrite Hfirst. simpl.
      apply (JsMapFacts.get_set_same Nat.eqb nat_eqb_spec).
    + rewrite Hp. apply (JsMapFacts.get_set_same String.eqb string_eqb_spec).
    + exact Hs.
    + intros c'. apply recipients_spec.
    + exact Hq.
  - intros Hids. apply String.eqb_neq in Hids.
    assert (Hids' : String.eqb (generatePlayerId eB) (generatePlayerId eA) = false).
    { rewrite String.eqb_sym. exact Hids. }
    subst two. cbv -[generatePlayerId String.eqb joinData].
    rewrite Hids'. cbv -[generatePlayerId String.eqb joinData].
    specialize (HA pA). specialize (HB pB).
    cbv -[generatePlayerId String.eqb joinData] in HA, HB.
    rewrite HA, HB, Hids, String.eqb_refl. reflexivity.
  - intros Hids. subst two.
    cbv -[generatePlayerId String.eqb joinData].
    rewrite Hids, String.eqb_refl. cbv -[generatePlayerId String.eqb joinData].
    specialize (HB pB).
    cbv -[generatePlayerId String.eqb joinData] in HB.
    rewrite HB, String.eqb_refl. split; reflexivity.
  - subst bare. change (onMessage c (player_join None) e st)
      with (on_player_join c None e st).
    destruct (join_without_player c e st)
      as (Hp & Hs & Hq & _ & _ & _ & _ & _ & Hnew).
    destruct Hnew as [Hc Hw]; [now rewrite Hfirst|].
    rewrite Hc, Hw.
    rewrite !(JsMapFacts.get_set_same Nat.eqb nat_eqb_spec). auto.
Qed.

Lemma C4_witness :
  frames_to 1%nat
    (sent (run [Connect;
                Message 0%nat (player_join (Some (Scenarios.gopher "Ann" 100 100))) Scenarios.envA;
                Connect;
                Message 1%nat (player_join (Some (Scenarios.gopher "Bob" 200 200))) Scenarios.envB]
             init))
  = [plain (player_id_assigned Scenarios.idB
              (joinData Scenarios.idB (Scenarios.gopher "Bob" 200 200)));
     plain (players_sync
              [joinData Scenarios.idA (Scenarios.gopher "Ann" 100 100)])].
Proof.
  refine (proj1 (proj2 (C4_first_join_three_sends 1%nat
                   (Scenarios.gopher "Bob" 200 200) Scenarios.envB
                   Scenarios.one_joined_one_idle
                   (Scenarios.gopher "Ann" 100 100)
                   (Scenarios.gopher "Bob" 200 200)
                   Scenarios.envA Scenarios.envB _)) _).
  - reflexivity.
  - vm_compute. discriminate.
Defined.

(** C4 as stated fails in two ways.  When the two joins read the same
    clock value and random strings, the second client is handed the
    first client's id, its join replaces the first client's registry
    entry, and its [players_sync] is empty instead of holding the first
    client's state.  And a first [player_join] without a [player]
    object is followed by no send at all. *)
Lemma C4_counterexample :
  JsMap.get Nat.eqb 1%nat
    (conn_playerId
       (run [Connect;
             Message 0%nat (player_join (Some (Scenarios.gopher "Ann" 100 100)))
               Scenarios.envA;
             Connect] init)) = None /\
  frames_to 1%nat
    (sent (run [Connect;
                Message 0%nat (player_join (Some (Scenarios.gopher "Ann" 100 100)))
                  Scenarios.envA;
                Connect;
                Message 1%nat (player_join (Some (Scenarios.gopher "Bob" 200 200)))
                  Scenarios.envA]
             init))
  = [plain (player_id_assigned Scenarios.idA
              (joinData Scenarios.idA (Scenarios.gopher "Bob" 200 200)));
     plain (players_sync [])] /\
  JsMap.get Nat.eqb 0%nat (conn_playerId (run [Connect] init)) = None /\
  sent (run [Connect; Message 0%nat (player_join None) Scenarios.envA] init) = [].
Proof.
  repeat split; vm_compute; reflexivity.
Qed.

(** C5 (as the code has it). A [player_join] on a connection that
    already has the id [A] generates no id: the closure variable and
    [wsToPlayerId] are unchanged.  When the request carries a [player]
    object the rest of the case runs again: the registry entry of [A]
    is replaced by the state built from the new request, and the three
    sends of a join are repeated.  When it carries none, the handler
    stops at [msg.player.name], before the registry write and the
    sends: the server state is unchanged. *)
Theorem C5_rejoin_keeps_id_and_resends
  (c : ws) (A : string) (p : PlayerMsg) (e : Env) (st : State) :
  JsMap.get Nat.eqb c (conn_playerId st) = Some A ->
  A <> EmptyString ->
  let st' := onMessage c (player_join (Some p)) e st in
  conn_playerId st' = conn_playerId st /\
  wsToPlayerId st' = wsToPlayerId st /\
  players st' = JsMap.set String.eqb A (joinData A p) (players st) /\
  sent st' =
    sent st
    ++ [(c, plain (player_id_assigned A (joinData A p)))]
    ++ map (fun c' => (c', plain (player_joined (joinData A p)))) (recipients c st)
    ++ [(c, plain (players_sync
                     (filter (fun q => negb (String.eqb (id q) A))
                        (JsMap.values (players st')))))] /\
  onMessage c (player_join None) e st = st.
Proof.
  intros Hc HA st'. subst st'.
  change (onMessage c (player_join (Some p)) e st) with (on_player_join c (Some p) e st).
  change (onMessage c (player_join None) e st) with (on_player_join c None e st).
  assert (Ht : truthy (JsMap.get Nat.eqb c (conn_playerId st)) = true).
  { rewrite Hc. simpl. apply String.eqb_neq in HA. now rewrite HA. }
  destruct (join_writes c p e st A) as (Hp & Hs & _ & _).
  { now rewrite Ht, Hc. }
  split; [|split; [|split; [|split]]].
  - unfold on_player_join, send. simpl. autorewrite with bc. simpl.
    now rewrite Ht.
  - unfold on_player_join, send. simpl. autorewrite with bc. simpl.
    now rewrite Ht.
  - exact Hp.
  - exact Hs.
  - now apply (join_without_player c e st).
Qed.

Lemma C5_witness :
  conn_playerId
    (onMessage 0%nat (player_join (Some (Scenarios.gopher "Zed" 5 5)))
       Scenarios.envB Scenarios.one_player)
  = conn_playerId Scenarios.one_player.
Proof.
  refine (proj1 (C5_rejoin_keeps_id_and_resends 0%nat Scenarios.idA
                   (Scenarios.gopher "Zed" 5 5) Scenarios.envB
                   Scenarios.one_player _ _)).
  - reflexivity.
  - vm_compute. discriminate.
Defined.

(** C5 as stated fails: the second join of an identified connection
    rewrites its registry entry and writes to the connection again. *)
Lemma C5_counterexample :
  JsMap.get Nat.eqb 0%nat (conn_playerId Scenarios.one_player) = Some Scenarios.idA /\
  JsMap.get String.eqb Scenarios.idA
    (players (onMessage 0%nat (player_join (Some (Scenarios.gopher "Zed" 5 5)))
                Scenarios.envB Scenarios.one_player))
  <> JsMap.get String.eqb Scenarios.idA (players Scenarios.one_player) /\
  List.length
    (sent (onMessage 0%nat (player_join (Some (Scenarios.gopher "Zed" 5 5)))
             Scenarios.envB Scenarios.one_player))
  = (List.length (sent Scenarios.one_player) + 2)%nat.
Proof.
  split; [reflexivity|]. split; [vm_compute; discriminate|reflexivity].
Qed.

(** *** Positions written by [player_move] *)

Lemma clamp_bounds (hi v : Q) :
  (0 <= hi -> 0 <= Qmax 0 (Qmin hi v) /\ Qmax 0 (Qmin hi v) <= hi)%Q.
Proof.
  intros Hhi. split.
  - apply Q.le_max_l.
  - apply Q.max_lub; [assumption|apply Q.le_min_l].
Qed.

(** On a number [clamp] returns a number between 0 and the bound; on
    anything else it returns [NaN]. *)
Lemma clamp_number (hi : Q) (v : Coord) :
  (0 <= hi)%Q ->
  match v with
  | Num _ => exists w, clamp hi v = Num w /\ (0 <= w /\ w <= hi)%Q
  | NaN | Undefined => clamp hi v = NaN
  end.
Proof.
  intros Hhi. destruct v as [q| |]; [|reflexivity|reflexivity].
  eexists. split; [reflexivity|]. now apply clamp_bounds.
Qed.

(** From numbers, [validPos] is a point of the closed rectangle. *)
Lemma validPos_in_bounds_closed m currentPlayer vp :
  validPos m currentPlayer = Some vp -> numeric_input m currentPlayer ->
  in_bounds_closed vp.
Proof.
  assert (HW : (0 <= MAP_WIDTH)%Q) by (vm_compute; discriminate).
  assert (HH : (0 <= MAP_HEIGHT)%Q) by (vm_compute; discriminate).
  unfold validPos, numeric_input, numeric, in_bounds_closed.
  destruct (m_dx m) as [dx|], (m_dy m) as [dy|], (m_pos m) as [q|];
    intros H Hn; inversion H; subst; clear H; cbn [x y];
    destruct Hn as [Hx Hy];
    match type of Hx with
    | is_number ?a = true => destruct a; try discriminate Hx
    end;
    match type of Hy with
    | is_number ?b = true => destruct b; try discriminate Hy
    end;
    cbn [plus clamp];
    repeat split; try apply clamp_bounds; assumption.
Qed.

(** A coordinate of [msg.pos] that is not a number is stored as [NaN]. *)
Lemma validPos_not_a_number m currentPlayer p :
  m_dx m = None \/ m_dy m = None -> m_pos m = Some p ->
  exists vp, validPos m currentPlayer = Some vp /\
             (is_number (x p) = false -> x vp = NaN) /\
             (is_number (y p) = false -> y vp = NaN).
Proof.
  intros Hd Hp. unfold validPos. rewrite Hp.
  assert (Hform : match m_dx m, m_dy m with
                  | Some _, Some _ => False
                  | _, _ => True
                  end).
  { destruct Hd as [-> | ->]; [exact I|destruct (m_dx m); exact I]. }
  destruct (m_dx m), (m_dy m); try contradiction;
    (eexists; split; [reflexivity|]; cbn [x y];
     split; intros Hn;
     [destruct (x p); [discriminate|reflexivity|reflexivity]
     |destruct (y p); [discriminate|reflexivity|reflexivity]]).
Qed.

(** Every position a [player_move] stores is the clamped [validPos];
    computed from numbers it lies inside the closed rectangle
    [0,1536] x [0,1024]. *)
Lemma move_stores_clamped c m e st A t :
  move_applied c m e st = Some (A, t) ->
  (forall cur, JsMap.get String.eqb A (players st) = Some cur -> numeric_input m cur) ->
  exists d, JsMap.get String.eqb A (players (on_player_move c m e st)) = Some d /\
            in_bounds_closed (pos d).
Proof.
  intros H Hnum. destruct (move_applied_effect c m e st A t H)
    as (cur & vp & _ & _ & _ & Hcur & Hvp & Hp & _).
  rewrite Hp. eexists. split.
  - apply (JsMapFacts.get_set_same String.eqb string_eqb_spec).
  - simpl. eapply validPos_in_bounds_closed; [exact Hvp|now apply Hnum].
Qed.

(** C1 (the code departs from it). A [player_join] stores the proposed
    position as it is: joining at (9999,9999) leaves (9999,9999) in the
    registry.  A [player_move] to (9999,9999) stores (1536,1024), the
    map size itself, which is outside [0,1536) x [0,1024) too. *)
Theorem C1_stored_position_outside_map :
  (exists d,
     JsMap.get String.eqb Scenarios.idA
       (players (run [Connect;
                      Message 0%nat (player_join (Some (Scenarios.gopher "Ann" 9999 9999)))
                        Scenarios.envA] init)) = Some d /\
     pos d = {| x := Num 9999; y := Num 9999 |} /\
     ~ in_bounds_half_open (pos d) /\ ~ in_bounds_closed (pos d))
  /\
  (exists d,
     JsMap.get String.eqb Scenarios.idA
       (players (run [Message 0%nat
                        (player_move (Scenarios.move_to (Some Scenarios.idA) 9999 9999))
                        (Scenarios.later 0)] Scenarios.one_player)) = Some d /\
     pos d = {| x := Num 1536; y := Num 1024 |} /\
     ~ in_bounds_half_open (pos d)).
Proof.
  split; eexists; (split; [vm_compute; reflexivity|]); simpl.
  - split; [reflexivity|]. split.
    + intros (_ & H & _). vm_compute in H. discriminate.
    + intros (_ & H & _). vm_compute in H. apply H. reflexivity.
  - split; [reflexivity|].
    intros (_ & H & _). vm_compute in H. discriminate.
Qed.

(** C3 (the code departs from it). On the 1536x1024 map an accepted
    [player_move] with [pos] (9999,9999) stores (1536,1024), not
    (1535,1023): the upper clamp bound is the map size. *)
Theorem C3_move_9999_stores_map_size :
  exists d,
    JsMap.get String.eqb Scenarios.idA
      (players (onMessage 0%nat
                  (player_move (Scenarios.move_to (Some Scenarios.idA) 9999 9999))
                  (Scenarios.later 0) Scenarios.one_player)) = Some d /\
    pos d = {| x := Num 1536; y := Num 1024 |} /\
    ~ is_value (x (pos d)) 1535 /\ ~ is_value (y (pos d)) 1023.
Proof.
  eexists. split; [vm_compute; reflexivity|]. simpl.
  split; [reflexivity|].
  split; intros H; vm_compute in H; discriminate.
Qed.

(** A [player_move] whose [pos] object has neither [x] nor [y] passes
    every test of the handler: [NaN] is stored for both coordinates and
    queued for the other connection. *)
Example move_without_coordinates_stores_NaN :
  let m := {| m_playerId := None;
              m_pos := Some {| x := Undefined; y := Undefined |};
              m_dx := None; m_dy := None; m_direction := Some "right";
              m_isMoving := Some true; m_seq := Some 1%Z |} in
  let st' := onMessage 0%nat (player_move m) (Scenarios.later 0)
               Scenarios.two_players in
  option_map pos (JsMap.get String.eqb Scenarios.idA (players st'))
  = Some {| x := NaN; y := NaN |} /\
  queue_of 1%nat st'
  = [player_moved Scenarios.idA {| x := NaN; y := NaN |} (Some "right") (Some true)
       (Some 1%Z) (now (Scenarios.later 0))].
Proof. split; vm_compute; reflexivity. Qed.

(** *** The rate limiter *)

Lemma num_or_Some_0 (n : Z) : num_or (Some n) 0 = n.
Proof. unfold num_or. destruct (Z.eqb_spec n 0); congruence. Qed.

Lemma spaced_from_weaken gap from from' ts :
  (from <= from')%Z -> spaced_from gap from' ts -> spaced_from gap from ts.
Proof.
  destruct ts as [|t ts]; simpl; [trivial|].
  intros Hle [Hg Hrest]. split; [lia|assumption].
Qed.

Lemma on_player_move_lastUpdateTime c m e st :
  lastUpdateTime (on_player_move c m e st) = lastUpdateTime st \/
  exists B, (UPDATE_RATE_LIMIT <= now e - lastUpdate B st)%Z /\
            lastUpdateTime (on_player_move c m e st)
            = JsMap.set String.eqb B (now e) (lastUpdateTime st).
Proof.
  unfold on_player_move.
  destruct (ownerId c st) as [mid|]; [|now left].
  destruct (truthy (Some mid)); [|now left].
  destruct (JsMap.get String.eqb mid (players st)) as [cur|]; [|now left].
  destruct (id_mismatch (m_playerId m) mid); [now left|].
  destruct (too_frequent mid e st) eqn:Hfreq; [now left|].
  right. exists mid. unfold too_frequent in Hfreq. apply Z.ltb_ge in Hfreq.
  split; [assumption|].
  destruct (validPos m cur); autorewrite with bc; reflexivity.
Qed.

Lemma step_lastUpdateTime ev st :
  lastUpdateTime (step ev st) = lastUpdateTime st \/
  exists B t, (UPDATE_RATE_LIMIT <= t - lastUpdate B st)%Z /\
              lastUpdateTime (step ev st)
              = JsMap.set String.eqb B t (lastUpdateTime st).
Proof.
  destruct ev as [|c msg e|c|c|]; simpl.
  - now left.
  - destruct (is_client c st); [|now left].
    destruct msg as [p|m|message|p|]; simpl.
    + left. apply on_player_join_keeps.
    + destruct (on_player_move_lastUpdateTime c m e st) as [H|[B [H1 H2]]];
        [now left|right; eauto].
    + left. unfold on_chat. guards; autorewrite with bc; reflexivity.
    + left. unfold on_player_update. guards; autorewrite with bc; reflexivity.
    + now left.
  - left. destruct (is_client c st); reflexivity.
  - left. destruct (is_client c st); [|reflexivity].
    unfold onClose. guards; autorewrite with bc; reflexivity.
  - left. destruct (broadcastTimer st); reflexivity.
Qed.

(** The stored rate-limit timestamp of a player never decreases. *)
Lemma step_lastUpdate_mono A ev st :
  (lastUpdate A st <= lastUpdate A (step ev st))%Z.
Proof.
  destruct (step_lastUpdateTime ev st) as [H|(B & t & Hgap & H)];
    unfold lastUpdate at 2; rewrite H.
  - apply Z.le_refl.
  - destruct (String.eqb_spec B A) as [->|Hne].
    + rewrite (JsMapFacts.get_set_same String.eqb string_eqb_spec).
      rewrite num_or_Some_0. unfold UPDATE_RATE_LIMIT in Hgap. lia.
    + rewrite (JsMapFacts.get_set_other String.eqb string_eqb_spec) by assumption.
      apply Z.le_refl.
Qed.

Lemma applied_times_spaced A evs st :
  spaced_from UPDATE_RATE_LIMIT (lastUpdate A st) (applied_times A evs st).
Proof.
  revert st. induction evs as [|ev evs IH]; intros st; simpl; [trivial|].
  assert (Hskip : spaced_from UPDATE_RATE_LIMIT (lastUpdate A st)
                    (applied_times A evs (step ev st))).
  { eapply spaced_from_weaken; [apply step_lastUpdate_mono|apply IH]. }
  destruct ev as [|c msg e|c|c|]; try exact Hskip.
  destruct msg as [p|m|message|p|]; try exact Hskip.
  destruct (is_client c st) eqn:Hcl; [|exact Hskip].
  destruct (move_applied c m e st) as [[B t]|] eqn:Happ; [|exact Hskip].
  destruct (String.eqb_spec B A) as [->|Hne]; [|exact Hskip].
  destruct (move_applied_effect c m e st A t Happ)
    as (cur & vp & _ & Ht & Hgap & _ & _ & _ & Hlast).
  simpl. split; [subst t; exact Hgap|].
  specialize (IH (step (Message c (player_move m) e) st)).
  simpl in IH. rewrite Hcl in IH.
  unfold lastUpdate at 1 in IH. rewrite Hlast in IH.
  rewrite (JsMapFacts.get_set_same String.eqb string_eqb_spec) in IH.
  rewrite num_or_Some_0 in IH. subst t. simpl. rewrite Hcl. exact IH.
Qed.

(** C6. A [player_move] of the player [A] that arrives less than
    [UPDATE_RATE_LIMIT] = 16 ms after the stored time of the last
    accepted one is discarded: the server state is unchanged, so it is
    neither stored, queued nor written.  A move that is not applied
    leaves the registry untouched, and along every run the clock
    readings of the moves applied to [A] are at least 16 ms apart, the
    first at least 16 ms after the stored time: at most one applied
    move per 16 ms window. *)
Theorem C6_rate_limit_one_move_per_window
  (c : ws) (A : string) (m : MoveMsg) (e : Env) (st : State)
  (evs : list Event) :
  ownerId c st = Some A ->
  (now e - lastUpdate A st < UPDATE_RATE_LIMIT)%Z ->
  UPDATE_RATE_LIMIT = 16%Z /\
  onMessage c (player_move m) e st = st /\
  move_applied c m e st = None /\
  (forall c' m' e' st',
      move_applied c' m' e' st' = None ->
      players (onMessage c' (player_move m') e' st') = players st') /\
  spaced_from 16 (lastUpdate A st) (applied_times A evs st) /\
  (forall B evs', spaced_from 16 0 (applied_times B evs' init)).
Proof.
  intros Hown Hsoon.
  assert (Hfreq : too_frequent A e st = true).
  { unfold too_frequent. now apply Z.ltb_lt. }
  split; [reflexivity|]. split; [|split; [|split; [|split]]].
  - simpl. unfold on_player_move. rewrite Hown, Hfreq.
    guards; reflexivity.
  - unfold move_applied. rewrite Hown, Hfreq.
    destruct (JsMap.get String.eqb A (players st)); [|reflexivity].
    rewrite andb_false_r. reflexivity.
  - intros c' m' e' st'. apply move_not_applied_effect.
  - apply applied_times_spaced.
  - intros B evs'. apply (applied_times_spaced B evs' init).
Qed.

Lemma C6_witness :
  onMessage 0%nat (player_move (Scenarios.move_by None 3 3))
    (Scenarios.later 5) Scenarios.after_move
  = Scenarios.after_move.
Proof.
  refine (proj1 (proj2
    (C6_rate_limit_one_move_per_window 0%nat Scenarios.idA
       (Scenarios.move_by None 3 3) (Scenarios.later 5)
       Scenarios.after_move [] _ _))).
  - reflexivity.
  - vm_compute. reflexivity.
Defined.

(** Four moves 0, 5, 16 and 40 ms on: the second is dropped. *)
Example applied_times_of_a_burst :
  applied_times Scenarios.idA
    [Message 0%nat (player_move (Scenarios.move_to (Some Scenarios.idA) 10 10))
       (Scenarios.later 0);
     Message 0%nat (player_move (Scenarios.move_by None 3 3)) (Scenarios.later 5);
     Message 0%nat (player_move (Scenarios.move_by None 3 3)) (Scenarios.later 16);
     Message 0%nat (player_move (Scenarios.move_by None 3 3)) (Scenarios.later 40)]
    Scenarios.two_players
  = [1700000001000; 1700000001016; 1700000001040]%Z.
Proof. vm_compute. reflexivity. Qed.

(** *** Representation invariant *)

Lemma wf_init : wf init.
Proof.
  repeat split; simpl; try constructor. intros c [].
Qed.

Lemma nodup_recipients ex st :
  NoDup (JsMap.keys (clients st)) -> NoDup (recipients ex st).
Proof.
  unfold recipients, JsMap.keys. induction (clients st) as [|[c r] l IH]; simpl.
  - constructor.
  - intros Hnd. inversion Hnd as [|? ? Hnotin Hnd']; subst.
    destruct (negb (Nat.eqb c ex) && is_OPEN r); simpl; [|now apply IH].
    constructor; [|now apply IH].
    intros Hin. apply Hnotin. apply in_map_iff in Hin.
    destruct Hin as [[c0 r0] [Hc Hin]]. simpl in Hc. subst c0.
    apply filter_In in Hin. apply in_map_iff. exists (c, r0). tauto.
Qed.

Lemma nodup_fold_enqueue message rs mu :
  NoDup (JsMap.keys mu) -> NoDup (JsMap.keys (fold_left (enqueue message) rs mu)).
Proof.
  revert mu. induction rs as [|r rs IH]; intros mu Hnd; simpl; [assumption|].
  apply IH. unfold enqueue.
  destruct (JsMap.get Nat.eqb r mu);
    now apply (JsMapFacts.nodup_keys_set Nat.eqb nat_eqb_spec).
Qed.

Lemma broadcast_next_ws message ex st :
  next_ws (broadcast message ex st) = next_ws st.
Proof. unfold broadcast. destruct (is_player_move message); reflexivity. Qed.

Lemma broadcast_wf message ex st : wf st -> wf (broadcast message ex st).
Proof.
  intros (Hc & Hb & Hm). unfold wf.
  rewrite broadcast_clients, broadcast_next_ws. repeat split; auto.
  unfold broadcast. destruct (is_player_move message); simpl; [|assumption].
  now apply nodup_fold_enqueue.
Qed.

Lemma flush_entry_key st entry : fst (snd (flush_entry st entry)) = fst entry.
Proof.
  destruct entry as [c q]. simpl.
  destruct (is_OPEN (readyState c st) && (0 <? List.length q)%nat); reflexivity.
Qed.

Lemma onTick_wf st : wf st -> wf (onTick st).
Proof.
  intros (Hc & Hb & Hm). unfold wf, onTick. simpl. repeat split; auto.
  unfold JsMap.keys in *. rewrite !map_map.
  erewrite map_ext; [exact Hm|]. intros entry. apply flush_entry_key.
Qed.

Lemma onMessage_wf c msg e st : wf st -> wf (onMessage c msg e st).
Proof.
  intros Hwf. destruct msg as [p|m|message|p|]; simpl; [| | | |assumption].
  - destruct p as [p|]; unfold on_player_join, send;
      set (st1 := if truthy _ then st else _);
      (assert (Hwf1 : wf st1)
        by (subst st1; destruct (truthy _); [assumption|exact Hwf]));
      [|exact Hwf1].
    match goal with
    | |- wf (with_sent _ (broadcast ?msg ?ex ?s)) =>
        assert (H : wf (broadcast msg ex s)) by (apply broadcast_wf; exact Hwf1);
        exact H
    end.
  - unfold on_player_move.
    guards; first [assumption | exact Hwf | apply broadcast_wf; exact Hwf].
  - unfold on_chat.
    guards; first [assumption | apply broadcast_wf; exact Hwf].
  - unfold on_player_update.
    guards; first [assumption | apply broadcast_wf; exact Hwf].
Qed.

Lemma step_wf ev st : wf st -> wf (step ev st).
Proof.
  intros Hwf. destruct ev as [|c msg e|c|c|]; simpl.
  - destruct Hwf as (Hc & Hb & Hm). unfold wf. simpl.
    unfold JsMap.keys in *. rewrite map_app. simpl. repeat split; auto.
    + apply NoDup_app; [assumption|constructor; [intros []|constructor]|].
      intros a Ha [<-|[]]. apply Hb in Ha. lia.
    + intros c Hin. apply in_app_or in Hin. destruct Hin as [Hin|[<-|[]]].
      * apply Hb in Hin. lia.
      * lia.
  - destruct (is_client c st); [|assumption]. now apply onMessage_wf.
  - destruct (is_client c st) eqn:Hcl; [|assumption].
    destruct Hwf as (Hc & Hb & Hm). unfold wf. simpl. repeat split; auto.
    + now apply (JsMapFacts.nodup_keys_set Nat.eqb nat_eqb_spec).
    + intros c' Hin.
      apply (JsMapFacts.in_keys_set Nat.eqb nat_eqb_spec) in Hin.
      destruct Hin as [->|Hin]; [|now apply Hb].
      apply Hb. unfold is_client, JsMap.has in Hcl.
      destruct (JsMap.get Nat.eqb c (clients st)) as [r|] eqn:Hg; [|discriminate].
      apply (JsMapFacts.get_In Nat.eqb nat_eqb_spec) in Hg.
      apply in_map_iff. exists (c, r). auto.
  - destruct (is_client c st); [|assumption].
    assert (Hwf' : wf (with_clients (JsMap.delete Nat.eqb c (clients st))
                         (next_ws st) st)).
    { destruct Hwf as (Hc & Hb & Hm). unfold wf. simpl. repeat split; auto.
      - now apply JsMapFacts.nodup_keys_delete.
      - intros c' Hin. apply JsMapFacts.in_keys_delete in Hin. now apply Hb. }
    unfold onClose.
    guards; first [assumption | apply broadcast_wf; exact Hwf'].
  - destruct (broadcastTimer st); [|assumption]. now apply onTick_wf.
Qed.

Lemma run_wf evs st : wf st -> wf (run evs st).
Proof.
  revert st. induction evs as [|ev evs IH]; intros st Hwf; simpl; auto.
  apply IH, step_wf, Hwf.
Qed.

(** *** The broadcast batcher *)

Lemma frames_to_app c l1 l2 :
  frames_to c (l1 ++ l2) = frames_to c l1 ++ frames_to c l2.
Proof. unfold frames_to. now rewrite filter_app, map_app. Qed.

Lemma get_enqueue_same message mu c :
  JsMap.get Nat.eqb c (enqueue message mu c)
  = Some (match JsMap.get Nat.eqb c mu with Some q => q | None => [] end
          ++ [message]).
Proof.
  unfold enqueue. destruct (JsMap.get Nat.eqb c mu);
    apply (JsMapFacts.get_set_same Nat.eqb nat_eqb_spec).
Qed.

Lemma get_enqueue_other message mu r c :
  r <> c -> JsMap.get Nat.eqb c (enqueue message mu r) = JsMap.get Nat.eqb c mu.
Proof.
  intros Hne. unfold enqueue. destruct (JsMap.get Nat.eqb r mu);
    now apply (JsMapFacts.get_set_other Nat.eqb nat_eqb_spec).
Qed.

(** After the [forEach] of a movement broadcast, a recipient's queue has
    the message at its end and every other queue is as before. *)
Lemma get_fold_enqueue message rs mu c :
  NoDup rs ->
  JsMap.get Nat.eqb c (fold_left (enqueue message) rs mu)
  = if existsb (Nat.eqb c) rs
    then Some (match JsMap.get Nat.eqb c mu with Some q => q | None => [] end
               ++ [message])
    else JsMap.get Nat.eqb c mu.
Proof.
  revert mu. induction rs as [|r rs IH]; intros mu Hnd; simpl; [reflexivity|].
  inversion Hnd as [|? ? Hnotin Hnd']; subst.
  rewrite IH by assumption.
  destruct (Nat.eqb_spec c r) as [->|Hne]; simpl.
  - assert (Hex : existsb (Nat.eqb r) rs = false).
    { destruct (existsb (Nat.eqb r) rs) eqn:E; [|reflexivity].
      apply existsb_exists in E. destruct E as [r' [Hin Heq]].
      apply Nat.eqb_eq in Heq. subst r'. contradiction. }
    rewrite Hex. apply get_enqueue_same.
  - rewrite get_enqueue_other by congruence. reflexivity.
Qed.

Lemma readyState_OPEN_recipient c ex st :
  readyState c st = OPEN -> c <> ex -> In c (recipients ex st).
Proof.
  unfold readyState. intros Hr Hne. apply recipients_spec. split; [assumption|].
  destruct (JsMap.get Nat.eqb c (clients st)) as [r|] eqn:Hg; [|discriminate].
  subst r. now apply (JsMapFacts.get_In Nat.eqb nat_eqb_spec).
Qed.

Lemma broadcast_readyState message ex st c :
  readyState c (broadcast message ex st) = readyState c st.
Proof. unfold readyState. now rewrite broadcast_clients. Qed.

(** A movement broadcast writes nothing, appends the message to the
    queue of every recipient and leaves the interval running. *)
Lemma broadcast_move_queues message ex st c :
  is_player_move message = true ->
  wf st -> readyState c st = OPEN -> c <> ex ->
  sent (broadcast message ex st) = sent st /\
  JsMap.get Nat.eqb c (movementUpdates (broadcast message ex st))
    = Some (queue_of c st ++ [message]) /\
  broadcastTimer (broadcast message ex st) <> None /\
  (broadcastTimer st = None ->
   broadcastTimer (broadcast message ex st) = Some BATCH_INTERVAL).
Proof.
  intros Hmv (Hc & _ & _) Hopen Hne. unfold broadcast. rewrite Hmv. simpl.
  split; [reflexivity|]. split; [|split].
  - rewrite get_fold_enqueue by (now apply nodup_recipients).
    assert (Hex : existsb (Nat.eqb c) (recipients ex st) = true).
    { apply existsb_exists. exists c. split.
      - now apply readyState_OPEN_recipient.
      - apply Nat.eqb_refl. }
    rewrite Hex. reflexivity.
  - destruct (broadcastTimer st); discriminate.
  - intros ->. reflexivity.
Qed.

Lemma broadcast_all_moves ms ex st c :
  (forall m, In m ms -> is_player_move m = true) ->
  wf st -> readyState c st = OPEN -> c <> ex -> ms <> [] ->
  sent (broadcast_all ms ex st) = sent st /\
  JsMap.get Nat.eqb c (movementUpdates (broadcast_all ms ex st))
    = Some (queue_of c st ++ ms) /\
  broadcastTimer (broadcast_all ms ex st) <> None /\
  wf (broadcast_all ms ex st) /\
  readyState c (broadcast_all ms ex st) = OPEN.
Proof.
  revert st. induction ms as [|m ms IH]; intros st Hall Hwf Hopen Hne Hms;
    [congruence|].
  unfold broadcast_all. simpl. fold (broadcast_all ms ex (broadcast m ex st)).
  destruct (broadcast_move_queues m ex st c) as (Hs & Hq & Ht & _); auto.
  { apply Hall. now left. }
  destruct ms as [|m' ms].
  - unfold broadcast_all. cbn [fold_left].
    split; [exact Hs|]. split; [exact Hq|]. split; [exact Ht|].
    split; [now apply broadcast_wf|now rewrite broadcast_readyState].
  - destruct (IH (broadcast m ex st)) as (Hs' & Hq' & Ht' & Hwf' & Ho').
    + intros m0 Hin. apply Hall. now right.
    + now apply broadcast_wf.
    + now rewrite broadcast_readyState.
    + assumption.
    + discriminate.
    + split; [now rewrite Hs'|]. split; [|auto].
      rewrite Hq'. unfold queue_of at 1. rewrite Hq.
      now rewrite <- app_assoc.
Qed.

(** The writes of one flush that go to [c]. *)
Lemma flush_frames st c mu :
  NoDup (JsMap.keys mu) ->
  frames_to c (List.concat (map fst (map (flush_entry st) mu)))
  = match JsMap.get Nat.eqb c mu with
    | Some q =>
        if is_OPEN (readyState c st) && (0 <? List.length q)%nat
        then [envelope q] else []
    | None => []
    end.
Proof.
  induction mu as [|[k q] mu IH]; intros Hnd; [reflexivity|].
  inversion Hnd as [|? ? Hnotin Hnd']; subst.
  cbn [map List.concat JsMap.get]. rewrite frames_to_app, IH by assumption.
  destruct (Nat.eqb_spec c k) as [->|Hne].
  - rewrite (JsMapFacts.get_not_in_keys Nat.eqb nat_eqb_spec k mu Hnotin).
    rewrite app_nil_r. unfold flush_entry.
    destruct (is_OPEN (readyState k st) && (0 <? List.length q)%nat);
      [|reflexivity].
    unfold frames_to. simpl. rewrite Nat.eqb_refl. reflexivity.
  - assert (Hhead : frames_to c (fst (flush_entry st (k, q))) = []).
    { unfold flush_entry.
      destruct (is_OPEN (readyState k st) && (0 <? List.length q)%nat);
        [|reflexivity].
      unfold frames_to. simpl.
      destruct (Nat.eqb_spec k c); [congruence|reflexivity]. }
    rewrite Hhead. reflexivity.
Qed.

(** The queue of [c] after one flush. *)
Lemma flush_queue st c mu :
  JsMap.get Nat.eqb c (map snd (map (flush_entry st) mu))
  = match JsMap.get Nat.eqb c mu with
    | Some q =>
        Some (if is_OPEN (readyState c st) && (0 <? List.length q)%nat
              then [] else q)
    | None => None
    end.
Proof.
  induction mu as [|[k q] mu IH]; [reflexivity|].
  cbn [map JsMap.get].
  assert (Hk : fst (snd (flush_entry st (k, q))) = k) by apply flush_entry_key.
  destruct (snd (flush_entry st (k, q))) as [k' q'] eqn:Hentry.
  simpl in Hk. subst k'.
  destruct (Nat.eqb_spec c k) as [->|Hne]; [|exact IH].
  unfold flush_entry in Hentry.
  destruct (is_OPEN (readyState k st) && (0 <? List.length q)%nat);
    simpl in Hentry; congruence.
Qed.

Lemma broadcast_all_timer ms ex st :
  (forall m, In m ms -> is_player_move m = true) -> ms <> [] ->
  broadcastTimer (broadcast_all ms ex st)
  = match broadcastTimer st with
    | Some t => Some t
    | None => Some BATCH_INTERVAL
    end.
Proof.
  revert st. induction ms as [|m ms IH]; intros st Hall Hms; [congruence|].
  unfold broadcast_all. cbn [fold_left].
  fold (broadcast_all ms ex (broadcast m ex st)).
  assert (Hm : broadcastTimer (broadcast m ex st)
               = match broadcastTimer st with
                 | Some t => Some t
                 | None => Some BATCH_INTERVAL
                 end).
  { unfold broadcast. rewrite (Hall m) by now left. reflexivity. }
  destruct ms as [|m' ms]; [exact Hm|].
  rewrite IH; [|intros m0 Hin; apply Hall; now right|discriminate].
  rewrite Hm. destruct (broadcastTimer st); reflexivity.
Qed.

Lemma frames_to_one_each c f rs :
  NoDup rs -> In c rs ->
  frames_to c (map (fun c' => (c', f)) rs) = [f].
Proof.
  induction rs as [|r rs IH]; intros Hnd Hin; [destruct Hin|].
  inversion Hnd as [|? ? Hnotin Hnd']; subst.
  unfold frames_to in *. simpl.
  destruct (Nat.eqb_spec r c) as [->|Hne]; simpl.
  - f_equal. clear IH Hnd Hnd' Hin.
    induction rs as [|r' rs IH']; [reflexivity|]. simpl.
    destruct (Nat.eqb_spec r' c) as [->|Hne'].
    + exfalso. apply Hnotin. now left.
    + apply IH'. intros Hin. apply Hnotin. now right.
  - apply IH; [assumption|]. destruct Hin; [contradiction|assumption].
Qed.

(** C7. For an open destination [c], movement messages broadcast
    since the last flush are only queued, in arrival order, while the
    interval (period 16 ms) runs; the next tick writes them to [c] in
    one [send]: the message itself when exactly one is pending,
    otherwise one [batch] envelope with the queue in arrival order, and
    the queue is emptied.  A message of any other type is not queued:
    [broadcast] writes it at once, one [send] per recipient, after the
    writes made before it, and leaves queues and timer alone. *)
Theorem C7_batched_moves_and_immediate_sends
  (st : State) (c ex : ws) (ms : list ServerMsg) (message : ServerMsg) :
  wf st -> readyState c st = OPEN -> c <> ex ->
  (forall m, In m ms -> is_player_move m = true) -> ms <> [] ->
  is_player_move message = false ->
  let st1 := broadcast_all ms ex st in
  let pending := queue_of c st ++ ms in
  sent st1 = sent st /\
  queue_of c st1 = pending /\
  (broadcastTimer st = None -> broadcastTimer st1 = Some 16%Z) /\
  frames_to c (sent (step Tick st1))
    = frames_to c (sent st)
      ++ [match pending with
          | [u] => plain u
          | _ => batch pending
          end] /\
  queue_of c (step Tick st1) = [] /\
  sent (broadcast message ex st)
    = sent st ++ map (fun c' => (c', plain message)) (recipients ex st) /\
  frames_to c (sent (broadcast message ex st))
    = frames_to c (sent st) ++ [plain message] /\
  movementUpdates (broadcast message ex st) = movementUpdates st /\
  broadcastTimer (broadcast message ex st) = broadcastTimer st.
Proof.
  intros Hwf Hopen Hne Hall Hms Hother st1 pending.
  destruct (broadcast_all_moves ms ex st c Hall Hwf Hopen Hne Hms)
    as (Hs & Hq & Ht & Hwf1 & Hopen1).
  fold st1 in Hs, Hq, Ht, Hwf1, Hopen1. fold pending in Hq.
  assert (Hpending : (0 <? List.length pending)%nat = true).
  { subst pending. rewrite length_app. apply Nat.ltb_lt.
    destruct ms; [congruence|simpl; lia]. }
  assert (Htick : step Tick st1 = onTick st1).
  { simpl. destruct (broadcastTimer st1); [reflexivity|congruence]. }
  split; [exact Hs|]. split; [unfold queue_of; now rewrite Hq|].
  split.
  { intros Hnone. subst st1. rewrite broadcast_all_timer by assumption.
    now rewrite Hnone. }
  split.
  { rewrite Htick. unfold onTick. cbn [sent with_sent].
    rewrite frames_to_app, Hs. f_equal.
    rewrite flush_frames by apply Hwf1.
    rewrite Hq, Hopen1, Hpending. reflexivity. }
  split.
  { rewrite Htick. unfold queue_of, onTick. cbn [movementUpdates with_sent with_batcher].
    rewrite flush_queue, Hq, Hopen1, Hpending. reflexivity. }
  unfold broadcast. rewrite Hother. cbn [sent with_sent movementUpdates broadcastTimer].
  split; [reflexivity|]. split; [|split; reflexivity].
  rewrite frames_to_app. f_equal.
  apply (frames_to_one_each c (plain message)).
  - apply nodup_recipients, Hwf.
  - now apply readyState_OPEN_recipient.
Qed.

Lemma C7_witness :
  frames_to 1%nat
    (sent (step Tick
             (broadcast_all [Scenarios.mv 1; Scenarios.mv 2; Scenarios.mv 3]
                0%nat Scenarios.two_players)))
  = frames_to 1%nat (sent Scenarios.two_players)
    ++ [batch [Scenarios.mv 1; Scenarios.mv 2; Scenarios.mv 3]].
Proof.
  refine (proj1 (proj2 (proj2 (proj2
    (C7_batched_moves_and_immediate_sends Scenarios.two_players 1%nat 0%nat
       [Scenarios.mv 1; Scenarios.mv 2; Scenarios.mv 3]
       (chat_from Scenarios.idA "Ann" (Some "hi")) _ _ _ _ _ _))))).
  - unfold Scenarios.two_players, Scenarios.one_joined_one_idle.
    apply run_wf, run_wf, wf_init.
  - reflexivity.
  - discriminate.
  - intros m [<-|[<-|[<-|[]]]]; reflexivity.
  - discriminate.
  - reflexivity.
Defined.

(** One pending move goes out as it is, not in an envelope. *)
Example single_pending_move_is_plain :
  frames_to 1%nat
    (sent (step Tick (broadcast (Scenarios.mv 1) 0%nat Scenarios.two_players)))
  = frames_to 1%nat (sent Scenarios.two_players) ++ [plain (Scenarios.mv 1)].
Proof. vm_compute. reflexivity. Qed.

(** *** [generatePlayerId] *)

Lemma underscore_free_app a b :
  underscore_free (a ++ b)%string = underscore_free a && underscore_free b.
Proof.
  induction a as [|ch a IH]; simpl; [reflexivity|].
  now rewrite IH, andb_assoc.
Qed.

Lemma underscore_free_uint d :
  underscore_free (NilEmpty.string_of_uint d) = true.
Proof. induction d; simpl; auto. Qed.

Lemma underscore_free_show_int n : underscore_free (show_int n) = true.
Proof.
  unfold show_int, NilEmpty.string_of_int.
  destruct (Z.to_int n); simpl; apply underscore_free_uint.
Qed.

Lemma show_int_inj n n' : show_int n = show_int n' -> n = n'.
Proof.
  unfold show_int. intros H. apply DecimalZ.to_int_inj.
  assert (Hs : Some (Z.to_int n) = Some (Z.to_int n')).
  { rewrite <- !NilEmpty.isi. now rewrite H. }
  now inversion Hs.
Qed.

Lemma base36_char_not_underscore ch :
  base36_char ch = true -> Ascii.eqb ch "_"%char = false.
Proof.
  destruct ch as [[] [] [] [] [] [] [] []]; vm_compute; congruence.
Qed.

Lemma base36_underscore_free s : base36 s = true -> underscore_free s = true.
Proof.
  induction s as [|ch s IH]; simpl; [reflexivity|].
  intros H. apply andb_true_iff in H. destruct H as [Hch Hs].
  rewrite (base36_char_not_underscore ch Hch). simpl. auto.
Qed.

Lemma underscore_free_substring n m s :
  underscore_free s = true -> underscore_free (substring n m s) = true.
Proof.
  revert n m. induction s as [|ch s IH]; intros n m H.
  - destruct n, m; reflexivity.
  - simpl in H. apply andb_true_iff in H. destruct H as [Hch Hs].
    destruct n as [|n]; [destruct m as [|m]|]; simpl; auto.
    rewrite Hch. simpl. auto.
Qed.

(** Two strings cut at their first underscore agree part by part. *)
Lemma split_at_underscore a a' b b' :
  underscore_free a = true -> underscore_free a' = true ->
  (a ++ "_" ++ b)%string = (a' ++ "_" ++ b')%string ->
  a = a' /\ b = b'.
Proof.
  revert a'. induction a as [|ch a IH]; intros [|ch' a'] Ha Ha' H; simpl in *.
  - inversion H. auto.
  - inversion H; subst. discriminate.
  - inversion H; subst. discriminate.
  - inversion H; subst.
    apply andb_true_iff in Ha, Ha'. destruct Ha as [_ Ha]. destruct Ha' as [_ Ha'].
    destruct (IH a' Ha Ha' H2) as [-> ->]. auto.
Qed.

Lemma string_app_inv_head (p a b : string) :
  (p ++ a)%string = (p ++ b)%string -> a = b.
Proof. induction p as [|ch p IH]; simpl; intros H; [assumption|]. inversion H. auto. Qed.

(** The id determines its three parts. *)
Lemma generatePlayerId_parts e1 e2 :
  base36 (rand1 e1) = true -> base36 (rand1 e2) = true ->
  generatePlayerId e1 = generatePlayerId e2 -> id_parts e1 = id_parts e2.
Proof.
  intros H1 H2 Heq. unfold generatePlayerId in Heq.
  apply string_app_inv_head in Heq.
  apply split_at_underscore in Heq; try apply underscore_free_show_int.
  destruct Heq as [Hnow Hrest].
  apply split_at_underscore in Hrest;
    try (apply underscore_free_substring, base36_underscore_free; assumption).
  destruct Hrest as [Hr1 Hr2]. apply show_int_inj in Hnow.
  unfold id_parts. congruence.
Qed.

Lemma id_parts_generatePlayerId e1 e2 :
  id_parts e1 = id_parts e2 -> generatePlayerId e1 = generatePlayerId e2.
Proof.
  unfold id_parts, generatePlayerId. intros H. inversion H as [[Hn H1 H2]].
  now rewrite Hn, H1, H2.
Qed.

Lemma NoDup_map_on {A B C : Type} (f : A -> B) (g : A -> C) (l : list A) :
  (forall a b, In a l -> In b l -> f a = f b -> g a = g b) ->
  NoDup (map g l) -> NoDup (map f l).
Proof.
  induction l as [|a l IH]; simpl; intros Hfg Hnd; [constructor|].
  inversion Hnd as [|? ? Hnotin Hnd']; subst. constructor.
  - intros Hin. apply Hnotin. apply in_map_iff in Hin.
    destruct Hin as [b [Hb Hin]]. apply in_map_iff. exists b. split; [|assumption].
    symmetry. apply Hfg; auto.
  - apply IH; auto.
Qed.

(** C8 (as the code has it). [generatePlayerId] makes no collision
    check: the id is a function of the clock reading and of the two
    random suffixes.  Two calls return the same id exactly when these
    three parts agree, so the ids handed out along a run are pairwise
    distinct whenever the parts read by the calls are pairwise
    distinct. *)
Theorem C8_ids_distinct_when_parts_distinct
  (evs : list Event) (st : State) (e1 e2 : Env) :
  (forall e, In e (e1 :: e2 :: draws evs st) -> base36 (rand1 e) = true) ->
  NoDup (map id_parts (draws evs st)) ->
  (generatePlayerId e1 = generatePlayerId e2 <-> id_parts e1 = id_parts e2) /\
  NoDup (ids_handed_out evs st).
Proof.
  intros Hb Hnd. split.
  - split.
    + apply generatePlayerId_parts; apply Hb; simpl; auto.
    + apply id_parts_generatePlayerId.
  - unfold ids_handed_out. apply (NoDup_map_on _ id_parts); [|assumption].
    intros a b Ha Hb'. apply generatePlayerId_parts; apply Hb; simpl; auto.
Qed.

Lemma C8_witness :
  NoDup (ids_handed_out
           [Connect; Connect;
            Message 0%nat (player_join (Some (Scenarios.gopher "Ann" 100 100))) Scenarios.envA;
            Message 1%nat (player_join (Some (Scenarios.gopher "Bob" 200 200))) Scenarios.envB]
           init).
Proof.
  refine (proj2 (C8_ids_distinct_when_parts_distinct _ init
                   Scenarios.envA Scenarios.envB _ _)).
  - intros e [<-|[<-|[<-|[<-|[]]]]]; reflexivity.
  - simpl. constructor.
    + intros [H|[]]. vm_compute in H. discriminate.
    + constructor; [intros []|constructor].
Defined.

(** C8 as stated fails: two joins that read the same clock value and
    the same random strings are handed the same id. *)
Lemma C8_counterexample :
  ids_handed_out
    [Connect; Connect;
     Message 0%nat (player_join (Some (Scenarios.gopher "Ann" 100 100))) Scenarios.envA;
     Message 1%nat (player_join (Some (Scenarios.gopher "Bob" 200 200))) Scenarios.envA]
    init
  = [Scenarios.idA; Scenarios.idA] /\
  ~ NoDup (ids_handed_out
             [Connect; Connect;
              Message 0%nat (player_join (Some (Scenarios.gopher "Ann" 100 100))) Scenarios.envA;
              Message 1%nat (player_join (Some (Scenarios.gopher "Bob" 200 200))) Scenarios.envA]
             init).
Proof.
  split; [reflexivity|].
  intros H. change (NoDup [Scenarios.idA; Scenarios.idA]) in H.
  inversion H as [|? ? Hnotin _]. apply Hnotin. now left.
Qed.

End ServerFacts.

(* ================================================================== *)
(** ** Facts about the client transport *)

Module ClientFacts.
Import Client.

Lemma backoff_S (k : nat) :
  backoff (S k) = backoff k ++ [(reconnectDelay * Z.of_nat (S k))%Z].
Proof. unfold backoff. now rewrite seq_S, map_app. Qed.

Section Backoff.
(** The log of delays when the counter was last at zero. *)
Variable base : list Z.


Lemma attemptReconnect_counted g : retries_counted base g -> retries_counted base (attemptReconnect g).
Proof.
  intros (k & Hk & Ha & Hs). unfold attemptReconnect, maxReconnectAttempts.
  destruct (Z.ltb_spec (reconnectAttempts g) 5) as [Hlt|Hge].
  - exists (S k). cbn [reconnectAttempts scheduled].
    rewrite Ha in Hlt. split; [lia|]. split; [lia|].
    rewrite Hs, backoff_S, <- app_assoc, Ha. do 3 f_equal. lia.
  - exists k. auto.
Qed.

Lemma connect_counted throws g : retries_counted base g -> retries_counted base (connect throws g).
Proof.
  intros H. unfold connect.
  destruct (ws g) as [[]|]; try exact H;
    (destruct throws; [apply attemptReconnect_counted|]; exact H).
Qed.

Lemma step_counted ev g :
  is_open_event ev = false -> retries_counted base g -> retries_counted base (step ev g).
Proof.
  intros Hev H. destruct ev as [throws| |code|throws|]; simpl; try discriminate.
  - now apply connect_counted.
  - unfold onclose. destruct (negb (code =? CLEAN_CLOSE)%Z);
      [apply attemptReconnect_counted|]; exact H.
  - unfold ontimeout. destruct (ws g) as [[]|]; try exact H;
      now apply connect_counted.
  - unfold disconnect. destruct (ws g); exact H.
Qed.

Lemma run_counted evs g :
  forallb (fun ev => negb (is_open_event ev)) evs = true ->
  retries_counted base g -> retries_counted base (run evs g).
Proof.
  revert g. induction evs as [|ev evs IH]; intros g Hevs H; simpl; [exact H|].
  simpl in Hevs. apply andb_true_iff in Hevs. destruct Hevs as [Hev Hevs].
  apply IH; [assumption|]. apply step_counted; [|assumption].
  now apply negb_true_iff.
Qed.

Lemma retries_bounded evs g :
  reconnectAttempts g = 0%Z -> scheduled g = base ->
  forallb (fun ev => negb (is_open_event ev)) evs = true ->
  exists k : nat, (k <= 5)%nat /\ scheduled (run evs g) = base ++ backoff k.
Proof.
  intros Ha Hs Hevs.
  destruct (run_counted evs g Hevs) as (k & Hk & _ & Hk').
  - exists 0%nat. rewrite Ha, Hs. simpl. rewrite app_nil_r.
    split; [lia|]. split; reflexivity.
  - exists k. auto.
Qed.

End Backoff.

(** C9. A close with the clean code 1000 schedules no retry.  Any other
    close, while fewer than 5 retries have been counted, counts one more
    and schedules [connect] after 1000 ms times the new count; with 5
    counted it schedules nothing.  From a counter at zero and until the
    next successful open, whatever happens, at most 5 retries are
    scheduled, with delays 1000, 2000, ... in this order. *)
Theorem C9_reconnect_backoff_bounded
  (g g0 : GameWebSocket) (code : Z) (evs : list Event) :
  code <> 1000%Z ->
  reconnectAttempts g0 = 0%Z ->
  forallb (fun ev => negb (is_open_event ev)) evs = true ->
  scheduled (onclose 1000 g) = scheduled g /\
  reconnectAttempts (onclose 1000 g) = reconnectAttempts g /\
  ((reconnectAttempts g < 5)%Z ->
   scheduled (onclose code g)
     = scheduled g ++ [(1000 * (reconnectAttempts g + 1))%Z] /\
   reconnectAttempts (onclose code g) = (reconnectAttempts g + 1)%Z) /\
  ((5 <= reconnectAttempts g)%Z ->
   scheduled (onclose code g) = scheduled g /\
   reconnectAttempts (onclose code g) = reconnectAttempts g) /\
  exists k : nat, (k <= 5)%nat /\
    scheduled (run evs g0) = scheduled g0 ++ backoff k /\
    backoff k = firstn k [1000; 2000; 3000; 4000; 5000]%Z.
Proof.
  intros Hcode Ha Hevs.
  assert (Hneq : negb (code =? CLEAN_CLOSE)%Z = true).
  { apply negb_true_iff, Z.eqb_neq. exact Hcode. }
  split; [reflexivity|]. split; [reflexivity|]. split; [|split].
  - intros Hlt. unfold onclose. rewrite Hneq. unfold attemptReconnect. simpl.
    apply Z.ltb_lt in Hlt. unfold maxReconnectAttempts. rewrite Hlt. simpl.
    split; reflexivity.
  - intros Hge. unfold onclose. rewrite Hneq. unfold attemptReconnect. simpl.
    apply Z.ltb_ge in Hge. unfold maxReconnectAttempts. rewrite Hge. simpl.
    split; reflexivity.
  - destruct (retries_bounded (scheduled g0) evs g0 Ha eq_refl Hevs)
      as (k & Hk & Hs).
    exists k. split; [assumption|]. split; [assumption|].
    do 6 (destruct k as [|k]; [reflexivity|]). lia.
Qed.

Lemma C9_witness :
  exists k : nat, (k <= 5)%nat /\
    scheduled
      (run [DoConnect false; SocketClose 1006; Timeout false; SocketClose 1006;
            Timeout false; SocketClose 1006; Timeout true; Timeout false;
            SocketClose 1006; SocketClose 1006; Timeout false; SocketClose 1006]
         create)
    = scheduled create ++ backoff k /\
    backoff k = firstn k [1000; 2000; 3000; 4000; 5000]%Z.
Proof.
  refine (proj2 (proj2 (proj2 (proj2
    (C9_reconnect_backoff_bounded create create 1006 _ _ _ _))))).
  - discriminate.
  - reflexivity.
  - reflexivity.
Defined.

(** Six unclean closes in a row: five retries, then the client gives up. *)
Example five_retries_then_give_up :
  scheduled
    (run [SocketClose 1006; SocketClose 1006; SocketClose 1006;
          SocketClose 1006; SocketClose 1006; SocketClose 1006;
          SocketClose 1001] create)
  = [1000; 2000; 3000; 4000; 5000]%Z.
Proof. reflexivity. Qed.

(** An intentional close is not followed by a retry. *)
Example clean_close_no_retry :
  scheduled (run [DoConnect false; SocketOpen; SocketClose 1000] create) = [].
Proof. reflexivity. Qed.

End ClientFacts.

(* ================================================================== *)
(** ** More facts about [JsMap] *)

Module JsMapMore.
Section More.
Context {K V : Type} (keq : K -> K -> bool).
Hypothesis keq_spec : forall a b, keq a b = true <-> a = b.

Lemma in_set (k k' : K) (v v' : V) (m : JsMap.t K V) :
  In (k', v') (JsMap.set keq k v m) -> (k', v') = (k, v) \/ In (k', v') m.
Proof.
  induction m as [|[k0 v0] m IH]; simpl.
  - intros [H|[]]. left. now symmetry.
  - destruct (keq k k0); simpl.
    + intros [H|H]; [left; now symmetry|right; now right].
    + intros [H|H]; [right; now left|].
      destruct (IH H); [now left|right; now right].
Qed.

Lemma in_delete (k k' : K) (v' : V) (m : JsMap.t K V) :
  In (k', v') (JsMap.delete keq k m) -> In (k', v') m.
Proof.
  induction m as [|[k0 v0] m IH]; simpl; [tauto|].
  destruct (keq k k0); simpl; intros H; [now right|].
  destruct H; [now left|right; now apply IH].
Qed.

Lemma in_keys (k : K) (v : V) (m : JsMap.t K V) :
  In (k, v) m -> In k (JsMap.keys m).
Proof. intros H. apply in_map_iff. exists (k, v). auto. Qed.

Lemma get_some_in_keys (k : K) (v : V) (m : JsMap.t K V) :
  JsMap.get keq k m = Some v -> In k (JsMap.keys m).
Proof.
  intros H. eapply in_keys, (JsMapFacts.get_In keq keq_spec), H.
Qed.

(** With one entry per key, a deleted key is gone. *)
Lemma get_delete_same (k : K) (m : JsMap.t K V) :
  NoDup (JsMap.keys m) -> JsMap.get keq k (JsMap.delete keq k m) = None.
Proof.
  induction m as [|[k0 v0] m IH]; simpl; [reflexivity|].
  intros Hnd. inversion Hnd as [|? ? Hnotin Hnd']; subst.
  destruct (keq k k0) eqn:E; simpl.
  - apply keq_spec in E. subst k0.
    now apply (JsMapFacts.get_not_in_keys keq keq_spec).
  - rewrite E. now apply IH.
Qed.

Lemma get_delete_other (k k' : K) (m : JsMap.t K V) :
  k <> k' -> JsMap.get keq k' (JsMap.delete keq k m) = JsMap.get keq k' m.
Proof.
  intros Hne. induction m as [|[k0 v0] m IH]; simpl; [reflexivity|].
  destruct (keq k k0) eqn:E; simpl.
  - apply keq_spec in E. subst k0.
    rewrite (JsMapFacts.keq_neq keq keq_spec k' k); auto.
  - destruct (keq k' k0); auto.
Qed.

End More.
End JsMapMore.

(* ================================================================== *)
(** ** More facts about the server *)

Module ServerExtras.
Import Server ServerSpec ServerFacts.

(** [broadcast] changes the batcher and the write log only. *)
Ltac bc :=
  cbv zeta;
  rewrite ?broadcast_players, ?broadcast_wsToPlayerId,
    ?broadcast_conn_playerId, ?broadcast_lastUpdateTime, ?broadcast_clients.

Lemma frames_to_none c f rs :
  ~ In c rs -> frames_to c (map (fun r : ws => (r, f)) rs) = [].
Proof.
  unfold frames_to. induction rs as [|r rs IH]; intros Hn; [reflexivity|].
  simpl. destruct (Nat.eqb_spec r c) as [->|Hne].
  - exfalso. apply Hn. now left.
  - apply IH. intros Hin. apply Hn. now right.
Qed.

Lemma sender_not_recipient c st : ~ In c (recipients c st).
Proof. intros Hin. apply recipients_spec in Hin. destruct Hin as [Hne _]. now apply Hne. Qed.

(** *** Chat relay (the [chat] case) *)

(** X1. A chat request of a registered player is written at once to every
    other open connection, exactly one frame each, attributed to the
    sender's id and carrying the name stored in the registry; the
    sender gets nothing back and no server state other than the write
    log changes. *)
Theorem chat_relayed_with_registry_name
  (c c' : ws) (A : string) (d : PlayerData) (text : option string)
  (e : Env) (st : State) :
  wf st ->
  ownerId c st = Some A -> A <> EmptyString ->
  JsMap.get String.eqb A (players st) = Some d ->
  readyState c' st = OPEN -> c' <> c ->
  let st' := onMessage c (chat text) e st in
  sent st' = sent st
             ++ map (fun r => (r, plain (chat_from A (name d) text)))
                  (recipients c st) /\
  frames_to c' (sent st')
    = frames_to c' (sent st) ++ [plain (chat_from A (name d) text)] /\
  frames_to c (sent st') = frames_to c (sent st) /\
  players st' = players st /\
  lastUpdateTime st' = lastUpdateTime st /\
  movementUpdates st' = movementUpdates st /\
  broadcastTimer st' = broadcastTimer st.
Proof.
  intros Hwf Hown HA Hd Hopen Hne st'. subst st'.
  change (onMessage c (chat text) e st) with (on_chat c text st).
  unfold on_chat. rewrite Hown.
  assert (Ht : truthy (Some A) = true).
  { simpl. apply String.eqb_neq in HA. now rewrite HA. }
  rewrite Ht, Hd. unfold broadcast. cbn [is_player_move sent with_sent].
  split; [reflexivity|]. split; [|split].
  - rewrite frames_to_app. f_equal. apply frames_to_one_each.
    + apply nodup_recipients, Hwf.
    + now apply readyState_OPEN_recipient.
  - rewrite frames_to_app, frames_to_none, app_nil_r;
      [reflexivity|apply sender_not_recipient].
  - repeat split.
Qed.

Lemma chat_relayed_witness :
  frames_to 1%nat
    (sent (onMessage 0%nat (chat (Some "hello")) (Scenarios.later 0)
             Scenarios.two_players))
  = frames_to 1%nat (sent Scenarios.two_players)
    ++ [plain (chat_from Scenarios.idA "Ann" (Some "hello"))].
Proof.
  refine (proj1 (proj2
    (chat_relayed_with_registry_name 0%nat 1%nat Scenarios.idA
       (joinData Scenarios.idA (Scenarios.gopher "Ann" 100 100))
       (Some "hello") (Scenarios.later 0) Scenarios.two_players
       _ _ _ _ _ _))).
  - unfold Scenarios.two_players, Scenarios.one_joined_one_idle.
    apply run_wf, run_wf, wf_init.
  - reflexivity.
  - vm_compute. discriminate.
  - reflexivity.
  - reflexivity.
  - discriminate.
Defined.

(** *** Profile updates (the [player_update] case) *)

Lemma keys_set_existing {V : Type} (k : string) (v v0 : V) (m : JsMap.t string V) :
  JsMap.get String.eqb k m = Some v0 ->
  JsMap.keys (JsMap.set String.eqb k v m) = JsMap.keys m.
Proof.
  induction m as [|[k1 v1] m IH]; simpl; [discriminate|].
  rewrite (String.eqb_sym k k1).
  destruct (String.eqb_spec k1 k) as [->|Hne]; simpl; [reflexivity|].
  intros H. now rewrite IH.
Qed.

(** X2. Whatever a [player_update] request carries, no entry of the
    registry is added or removed and no entry changes its id or its
    position; the rate-limit timestamps are untouched. *)
Theorem player_update_keeps_ids_and_positions
  (c : ws) (p : option PlayerMsg) (e : Env) (st : State) (k : string) :
  let st' := onMessage c (player_update p) e st in
  JsMap.keys (players st') = JsMap.keys (players st) /\
  option_map (fun d => (id d, pos d)) (JsMap.get String.eqb k (players st'))
    = option_map (fun d => (id d, pos d)) (JsMap.get String.eqb k (players st)) /\
  lastUpdateTime st' = lastUpdateTime st /\
  conn_playerId st' = conn_playerId st.
Proof.
  intros st'. subst st'.
  change (onMessage c (player_update p) e st) with (on_player_update c p st).
  unfold on_player_update.
  destruct (ownerId c st) as [uid|]; [|repeat split].
  destruct (truthy (Some uid)); [|repeat split].
  destruct (JsMap.get String.eqb uid (players st)) as [cur|] eqn:Hcur;
    [|repeat split].
  destruct p as [p|]; [|repeat split].
  destruct (id_mismatch (p_id p) uid); [repeat split|].
  bc. cbn [players with_players lastUpdateTime conn_playerId].
  split; [eapply keys_set_existing, Hcur|]. split; [|split; reflexivity].
  destruct (String.eqb_spec uid k) as [->|Hne].
  - rewrite (JsMapFacts.get_set_same String.eqb string_eqb_spec), Hcur.
    reflexivity.
  - now rewrite (JsMapFacts.get_set_other String.eqb string_eqb_spec).
Qed.

(** *** Movement fan-out (the [player_move] case and [broadcast]) *)

Lemma get_fold_enqueue_absent message rs mu c :
  ~ In c rs ->
  JsMap.get Nat.eqb c (fold_left (enqueue message) rs mu) = JsMap.get Nat.eqb c mu.
Proof.
  revert mu. induction rs as [|r rs IH]; intros mu Hn; simpl; [reflexivity|].
  rewrite IH by (intros Hin; apply Hn; now right).
  apply get_enqueue_other. intros ->. apply Hn. now left.
Qed.

Lemma broadcast_not_to_excluded message c st :
  JsMap.get Nat.eqb c (movementUpdates (broadcast message c st))
  = JsMap.get Nat.eqb c (movementUpdates st) /\
  frames_to c (sent (broadcast message c st)) = frames_to c (sent st).
Proof.
  unfold broadcast. destruct (is_player_move message); simpl.
  - split; [|reflexivity].
    apply get_fold_enqueue_absent, sender_not_recipient.
  - split; [reflexivity|].
    rewrite frames_to_app, frames_to_none, app_nil_r;
      [reflexivity|apply sender_not_recipient].
Qed.

(** X3. A [player_move] request never makes the server write anything at
    once, and never queues anything for its own sender: movement is
    not echoed. *)
Theorem move_never_echoed_to_sender
  (c : ws) (m : MoveMsg) (e : Env) (st : State) :
  let st' := onMessage c (player_move m) e st in
  sent st' = sent st /\
  JsMap.get Nat.eqb c (movementUpdates st')
    = JsMap.get Nat.eqb c (movementUpdates st).
Proof.
  intros st'. subst st'.
  change (onMessage c (player_move m) e st) with (on_player_move c m e st).
  unfold on_player_move.
  destruct (ownerId c st) as [mid|]; [|split; reflexivity].
  destruct (truthy (Some mid)); [|split; reflexivity].
  destruct (JsMap.get String.eqb mid (players st)) as [cur|]; [|split; reflexivity].
  destruct (id_mismatch (m_playerId m) mid); [split; reflexivity|].
  destruct (too_frequent mid e st); [split; reflexivity|].
  destruct (validPos m cur) as [vp|]; [|split; reflexivity].
  split.
  - unfold broadcast. reflexivity.
  - match goal with
    | |- context [broadcast ?msg c ?s] =>
        rewrite (proj1 (broadcast_not_to_excluded msg c s))
    end.
    reflexivity.
Qed.

(** X4. An applied move is appended to the queue of every other open
    connection, carrying the sender's id, the position now stored for
    it, the request's direction, motion flag and sequence number, and
    the server's clock reading. *)
Theorem applied_move_queued_for_others
  (c c' : ws) (m : MoveMsg) (e : Env) (st : State) (A : string) (t : Z) :
  wf st ->
  move_applied c m e st = Some (A, t) ->
  readyState c' st = OPEN -> c' <> c ->
  let st' := onMessage c (player_move m) e st in
  exists d,
    JsMap.get String.eqb A (players st') = Some d /\
    queue_of c' st'
    = queue_of c' st
      ++ [player_moved A (pos d) (m_direction m) (m_isMoving m) (m_seq m) (now e)].
Proof.
  intros Hwf Happ Hopen Hne st'. subst st'.
  change (onMessage c (player_move m) e st) with (on_player_move c m e st).
  destruct (move_applied_effect c m e st A t Happ)
    as (cur & vp & Hown & _ & Hgap & Hcur & Hvp & Hp & _).
  eexists. split.
  - rewrite Hp. apply (JsMapFacts.get_set_same String.eqb string_eqb_spec).
  - cbn [pos]. unfold on_player_move. rewrite Hown, Hcur.
    unfold move_applied in Happ. rewrite Hown, Hcur in Happ.
    destruct (truthy (Some A)); [|discriminate].
    destruct (id_mismatch (m_playerId m) A); [discriminate|].
    destruct (too_frequent A e st); [discriminate|].
    rewrite Hvp.
    match goal with
    | |- queue_of c' (broadcast ?msg c ?s) = _ =>
        destruct (broadcast_move_queues msg c s c') as (_ & Hq & _);
          [reflexivity|exact Hwf|exact Hopen|exact Hne|]
    end.
    unfold queue_of at 1. rewrite Hq. reflexivity.
Qed.

Lemma applied_move_queued_witness :
  exists d,
    JsMap.get String.eqb Scenarios.idA
      (players (onMessage 0%nat (player_move (Scenarios.move_by None 5 (-3)))
                  (Scenarios.later 0) Scenarios.two_players)) = Some d /\
    queue_of 1%nat
      (onMessage 0%nat (player_move (Scenarios.move_by None 5 (-3)))
         (Scenarios.later 0) Scenarios.two_players)
    = queue_of 1%nat Scenarios.two_players
      ++ [player_moved Scenarios.idA (pos d) (Some "right") (Some true)
            (Some 2%Z) (now (Scenarios.later 0))].
Proof.
  refine (applied_move_queued_for_others 0%nat 1%nat
            (Scenarios.move_by None 5 (-3)) (Scenarios.later 0)
            Scenarios.two_players Scenarios.idA (now (Scenarios.later 0))
            _ _ _ _).
  - unfold Scenarios.two_players, Scenarios.one_joined_one_idle.
    apply run_wf, run_wf, wf_init.
  - vm_compute. reflexivity.
  - reflexivity.
  - discriminate.
Defined.

(** *** What each handler does to the registry *)

Lemma on_player_join_players c p e st :
  exists pid,
    players (on_player_join c (Some p) e st)
    = JsMap.set String.eqb pid (joinData pid p) (players st) /\
    (truthy (JsMap.get Nat.eqb c (conn_playerId st)) = true /\
     JsMap.get Nat.eqb c (conn_playerId st) = Some pid /\
     conn_playerId (on_player_join c (Some p) e st) = conn_playerId st /\
     wsToPlayerId (on_player_join c (Some p) e st) = wsToPlayerId st
     \/
     truthy (JsMap.get Nat.eqb c (conn_playerId st)) = false /\
     pid = generatePlayerId e /\
     conn_playerId (on_player_join c (Some p) e st)
     = JsMap.set Nat.eqb c pid (conn_playerId st) /\
     wsToPlayerId (on_player_join c (Some p) e st)
     = JsMap.set Nat.eqb c pid (wsToPlayerId st)).
Proof.
  eexists. split; [apply (join_writes c p e st _ eq_refl)|].
  unfold on_player_join, send. bc. cbn [conn_playerId wsToPlayerId with_sent with_players].
  destruct (JsMap.get Nat.eqb c (conn_playerId st)) as [s|] eqn:Hc.
  - destruct (truthy (Some s)) eqn:Ht; [left|right]; repeat split.
  - right. repeat split.
Qed.

(** What a [player_join], with or without a [player] object, does to
    the two identity maps. *)
Lemma on_player_join_identity c p e st :
  (truthy (JsMap.get Nat.eqb c (conn_playerId st)) = true /\
   conn_playerId (on_player_join c p e st) = conn_playerId st /\
   wsToPlayerId (on_player_join c p e st) = wsToPlayerId st)
  \/
  (truthy (JsMap.get Nat.eqb c (conn_playerId st)) = false /\
   conn_playerId (on_player_join c p e st)
   = JsMap.set Nat.eqb c (generatePlayerId e) (conn_playerId st) /\
   wsToPlayerId (on_player_join c p e st)
   = JsMap.set Nat.eqb c (generatePlayerId e) (wsToPlayerId st)).
Proof.
  destruct p as [p|].
  - destruct (on_player_join_players c p e st)
      as (pid & _ & [(Ht & _ & H1 & H2)|(Ht & -> & H1 & H2)]); auto.
  - destruct (join_without_player c e st)
      as (_ & _ & _ & _ & _ & _ & _ & Hsame & Hnew).
    destruct (truthy (JsMap.get Nat.eqb c (conn_playerId st))) eqn:Ht.
    + left. rewrite (Hsame eq_refl). auto.
    + right. destruct (Hnew eq_refl). auto.
Qed.

Lemma on_player_move_players c m e st :
  players (on_player_move c m e st) = players st \/
  exists A cur vp,
    JsMap.get String.eqb A (players st) = Some cur /\
    validPos m cur = Some vp /\
    players (on_player_move c m e st)
    = JsMap.set String.eqb A
        {| id := id cur; name := name cur; pos := vp;
           direction := m_direction m; isMoving := m_isMoving m;
           color := color cur |} (players st).
Proof.
  destruct (move_applied c m e st) as [[A t]|] eqn:Happ.
  - right. destruct (move_applied_effect c m e st A t Happ)
      as (cur & vp & _ & _ & _ & Hcur & Hvp & Hp & _).
    exists A, cur, vp. auto.
  - left. now apply move_not_applied_effect.
Qed.

Lemma on_player_update_players c p st :
  players (on_player_update c p st) = players st \/
  exists A cur d,
    JsMap.get String.eqb A (players st) = Some cur /\
    id d = id cur /\ pos d = pos cur /\
    players (on_player_update c p st) = JsMap.set String.eqb A d (players st).
Proof.
  unfold on_player_update.
  destruct (ownerId c st) as [uid|]; [|now left].
  destruct (truthy (Some uid)); [|now left].
  destruct (JsMap.get String.eqb uid (players st)) as [cur|] eqn:Hcur; [|now left].
  destruct p as [p|]; [|now left].
  destruct (id_mismatch (p_id p) uid); [now left|].
  right. bc. cbn [players with_players].
  match goal with
  | |- context [JsMap.set String.eqb uid ?d (players st)] => exists uid, cur, d
  end.
  split; [exact Hcur|]. repeat split.
Qed.

Lemma on_chat_players c text st : players (on_chat c text st) = players st.
Proof. unfold on_chat. guards; bc; reflexivity. Qed.

Lemma onClose_players c st :
  players (onClose c st) = players st \/
  exists A, ownerId c st = Some A /\
            players (onClose c st) = JsMap.delete String.eqb A (players st).
Proof.
  unfold onClose. destruct (ownerId c st) as [A|]; [|now left].
  destruct (truthy (Some A)); [|now left].
  right. exists A. bc. auto.
Qed.

(** Every change of the registry in one step of the event loop. *)
Lemma step_players ev st :
  players (step ev st) = players st \/
  (exists c p e pid,
      ev = Message c (player_join (Some p)) e /\ is_client c st = true /\
      players (step ev st)
      = JsMap.set String.eqb pid (joinData pid p) (players st) /\
      (JsMap.get Nat.eqb c (conn_playerId st) = Some pid /\
       truthy (JsMap.get Nat.eqb c (conn_playerId st)) = true \/
       truthy (JsMap.get Nat.eqb c (conn_playerId st)) = false /\
       pid = generatePlayerId e)) \/
  (exists A cur d,
      JsMap.get String.eqb A (players st) = Some cur /\
      id d = id cur /\
      (pos d = pos cur \/
       exists c m e, ev = Message c (player_move m) e /\
                     validPos m cur = Some (pos d)) /\
      players (step ev st) = JsMap.set String.eqb A d (players st)) \/
  (exists A, players (step ev st) = JsMap.delete String.eqb A (players st)).
Proof.
  destruct ev as [|c msg e|c|c|]; simpl.
  - now left.
  - destruct (is_client c st) eqn:Hcl; [|now left].
    destruct msg as [[p|]|m|text|p|]; simpl.
    + right. left.
      destruct (on_player_join_players c p e st) as (pid & Hp & Hcase).
      exists c, p, e, pid. repeat split; auto.
      destruct Hcase as [(Ht & Hc & _)|(Ht & Hpid & _)]; auto.
    + left. apply (join_without_player c e st).
    + destruct (on_player_move_players c m e st)
        as [H|(A & cur & vp & Hcur & Hvp & H)]; [now left|].
      right. right. left.
      exists A, cur,
        {| id := id cur; name := name cur; pos := vp;
           direction := m_direction m; isMoving := m_isMoving m;
           color := color cur |}.
      split; [exact Hcur|]. split; [reflexivity|]. split; [|exact H].
      right. exists c, m, e. auto.
    + left. apply on_chat_players.
    + destruct (on_player_update_players c p st)
        as [H|(A & cur & d & Hcur & Hid & Hpos & H)]; [now left|].
      right. right. left. exists A, cur, d. auto.
    + now left.
  - left. destruct (is_client c st); reflexivity.
  - destruct (is_client c st); [|now left].
    match goal with
    | |- context [onClose c ?s] =>
        destruct (onClose_players c s) as [H|(A & _ & H)]
    end.
    + left. exact H.
    + right. right. right. exists A. exact H.
  - left. destruct (broadcastTimer st); reflexivity.
Qed.

(** Every change of the two identity maps in one step. *)
Lemma step_identity_maps ev st :
  (conn_playerId (step ev st) = conn_playerId st /\
   wsToPlayerId (step ev st) = wsToPlayerId st) \/
  (exists c p e,
      ev = Message c (player_join p) e /\ is_client c st = true /\
      truthy (JsMap.get Nat.eqb c (conn_playerId st)) = false /\
      conn_playerId (step ev st)
      = JsMap.set Nat.eqb c (generatePlayerId e) (conn_playerId st) /\
      wsToPlayerId (step ev st)
      = JsMap.set Nat.eqb c (generatePlayerId e) (wsToPlayerId st)) \/
  (exists c,
      conn_playerId (step ev st) = conn_playerId st /\
      wsToPlayerId (step ev st) = JsMap.delete Nat.eqb c (wsToPlayerId st)).
Proof.
  destruct ev as [|c msg e|c|c|]; simpl.
  - left. auto.
  - destruct (is_client c st) eqn:Hcl; [|left; auto].
    destruct msg as [p|m|text|p|]; simpl.
    + destruct (on_player_join_identity c p e st)
        as [(_ & H1 & H2)|(Ht & H1 & H2)].
      * left. auto.
      * right. left. exists c, p, e. auto.
    + left. apply on_player_move_ids.
    + left. apply on_chat_ids.
    + left. apply on_player_update_ids.
    + left. auto.
  - left. destruct (is_client c st); auto.
  - destruct (is_client c st); [|left; auto].
    unfold onClose. cbn [ownerId].
    match goal with
    | |- context [match ?o with Some _ => _ | None => _ end] => destruct o as [A|]
    end; [|left; auto].
    destruct (truthy (Some A)); [|left; auto].
    right. right. exists c. bc. auto.
  - left. destruct (broadcastTimer st); auto.
Qed.

(** *** Registry invariants along a run *)

Lemma step_filed_under_id ev st : filed_under_id st -> filed_under_id (step ev st).
Proof.
  intros Hinv k d Hin.
  destruct (step_players ev st)
    as [H|[(c & p & e & pid & _ & _ & H & _)
          |[(A & cur & d0 & Hcur & Hid & _ & H)|(A & H)]]];
    rewrite H in Hin.
  - now apply Hinv.
  - apply JsMapMore.in_set in Hin. destruct Hin as [Heq|Hin]; [|now apply Hinv].
    inversion Heq; subst. reflexivity.
  - apply JsMapMore.in_set in Hin. destruct Hin as [Heq|Hin]; [|now apply Hinv].
    inversion Heq; subst. rewrite Hid. apply Hinv.
    now apply (JsMapFacts.get_In String.eqb string_eqb_spec).
  - apply JsMapMore.in_delete in Hin. now apply Hinv.
Qed.

Lemma step_single_entries ev st : single_entries st -> single_entries (step ev st).
Proof.
  intros [Hp Hw]. split.
  - destruct (step_players ev st)
      as [H|[(c & p & e & pid & _ & _ & H & _)
            |[(A & cur & d0 & _ & _ & _ & H)|(A & H)]]]; rewrite H; auto;
      try (now apply (JsMapFacts.nodup_keys_set String.eqb string_eqb_spec)).
    now apply JsMapFacts.nodup_keys_delete.
  - destruct (step_identity_maps ev st)
      as [[_ H]|[(c & p & e & _ & _ & _ & _ & H)|(c & _ & H)]]; rewrite H; auto.
    + now apply (JsMapFacts.nodup_keys_set Nat.eqb nat_eqb_spec).
    + now apply JsMapFacts.nodup_keys_delete.
Qed.

Lemma get_set_cases {V : Type} (c c' : ws) (v s : V) (m : JsMap.t ws V) :
  JsMap.get Nat.eqb c' (JsMap.set Nat.eqb c v m) = Some s ->
  s = v \/ JsMap.get Nat.eqb c' m = Some s.
Proof.
  destruct (Nat.eq_dec c c') as [->|Hne].
  - rewrite (JsMapFacts.get_set_same Nat.eqb nat_eqb_spec). intros H.
    inversion H. now left.
  - rewrite (JsMapFacts.get_set_other Nat.eqb nat_eqb_spec) by assumption.
    now right.
Qed.

Lemma get_delete_some {V : Type} (c c' : ws) (s : V) (m : JsMap.t ws V) :
  JsMap.get Nat.eqb c' (JsMap.delete Nat.eqb c m) = Some s -> In s (JsMap.values m).
Proof.
  intros H. apply (JsMapFacts.get_In Nat.eqb nat_eqb_spec) in H.
  apply JsMapMore.in_delete in H. apply in_map_iff. exists (c', s). auto.
Qed.

(** The ids a single event hands out. *)
Lemma ids_handed_out_cons ev evs st :
  ids_handed_out (ev :: evs) st
  = ids_handed_out [ev] st ++ ids_handed_out evs (step ev st).
Proof.
  unfold ids_handed_out. cbn [draws]. rewrite app_nil_r. apply map_app.
Qed.

Lemma step_ids_within known ev st :
  ids_within known st ->
  (forall s, In s (JsMap.values (wsToPlayerId st)) -> In s known) ->
  ids_within (known ++ ids_handed_out [ev] st) (step ev st) /\
  (forall s, In s (JsMap.values (wsToPlayerId (step ev st))) ->
             In s (known ++ ids_handed_out [ev] st)).
Proof.
  intros (Hp & Hc & Hw) Hv.
  assert (Hnew : forall c p e,
             ev = Message c (player_join p) e -> is_client c st = true ->
             truthy (JsMap.get Nat.eqb c (conn_playerId st)) = false ->
             In (generatePlayerId e) (known ++ ids_handed_out [ev] st)).
  { intros c p e -> Hcl Ht. apply in_or_app. right.
    unfold ids_handed_out. cbn [draws]. rewrite Hcl, Ht. simpl. now left. }
  split; [split; [|split]|].
  - intros k Hin.
    destruct (step_players ev st)
      as [H|[(c & p & e & pid & Hev & Hcl & H & Hpid)
            |[(A & cur & d0 & Hcur & _ & _ & H)|(A & H)]]];
      rewrite H in Hin.
    + apply in_or_app. left. now apply Hp.
    + apply (JsMapFacts.in_keys_set String.eqb string_eqb_spec) in Hin.
      destruct Hin as [->|Hin]; [|apply in_or_app; left; now apply Hp].
      destruct Hpid as [Hc0|[Ht ->]].
      * apply in_or_app. left. eapply Hc, Hc0.
      * eapply Hnew; eauto.
    + apply (JsMapFacts.in_keys_set String.eqb string_eqb_spec) in Hin.
      apply in_or_app. left. destruct Hin as [->|Hin]; [|now apply Hp].
      apply Hp. eapply JsMapMore.get_some_in_keys; [apply string_eqb_spec|exact Hcur].
    + apply JsMapFacts.in_keys_delete in Hin. apply in_or_app. left. now apply Hp.
  - intros c0 s Hget.
    destruct (step_identity_maps ev st)
      as [[H _]|[(c & p & e & Hev & Hcl & Ht & H & _)|(c & H & _)]];
      rewrite H in Hget.
    + apply in_or_app. left. eapply Hc, Hget.
    + apply get_set_cases in Hget. destruct Hget as [->|Hget].
      * eapply Hnew; eauto.
      * apply in_or_app. left. eapply Hc, Hget.
    + apply in_or_app. left. eapply Hc, Hget.
  - intros c0 s Hget.
    destruct (step_identity_maps ev st)
      as [[_ H]|[(c & p & e & Hev & Hcl & Ht & _ & H)|(c & _ & H)]];
      rewrite H in Hget.
    + apply in_or_app. left. eapply Hw, Hget.
    + apply get_set_cases in Hget. destruct Hget as [->|Hget].
      * eapply Hnew; eauto.
      * apply in_or_app. left. eapply Hw, Hget.
    + apply in_or_app. left. apply Hv. eapply get_delete_some, Hget.
  - intros s Hin. apply in_map_iff in Hin. destruct Hin as [[c0 s0] [Hs Hin]].
    simpl in Hs. subst s0.
    destruct (step_identity_maps ev st)
      as [[_ H]|[(c & p & e & Hev & Hcl & Ht & _ & H)|(c & _ & H)]];
      rewrite H in Hin.
    + apply in_or_app. left. apply Hv. apply in_map_iff. exists (c0, s). auto.
    + apply JsMapMore.in_set in Hin. destruct Hin as [Heq|Hin].
      * inversion Heq; subst. eapply Hnew; eauto.
      * apply in_or_app. left. apply Hv. apply in_map_iff. exists (c0, s). auto.
    + apply JsMapMore.in_delete in Hin.
      apply in_or_app. left. apply Hv. apply in_map_iff. exists (c0, s). auto.
Qed.

Lemma run_ids_within evs : forall known st,
  ids_within known st ->
  (forall s, In s (JsMap.values (wsToPlayerId st)) -> In s known) ->
  ids_within (known ++ ids_handed_out evs st) (run evs st).
Proof.
  induction evs as [|ev evs IH]; intros known st Hin Hv; simpl.
  - unfold ids_handed_out. simpl. now rewrite app_nil_r.
  - rewrite ids_handed_out_cons, app_assoc.
    destruct (step_ids_within known ev st Hin Hv) as [H1 H2].
    now apply IH.
Qed.

Lemma run_filed_under_id evs st : filed_under_id st -> filed_under_id (run evs st).
Proof.
  revert st. induction evs as [|ev evs IH]; intros st H; simpl; auto.
  apply IH, step_filed_under_id, H.
Qed.

Lemma run_single_entries evs st : single_entries st -> single_entries (run evs st).
Proof.
  revert st. induction evs as [|ev evs IH]; intros st H; simpl; auto.
  apply IH, step_single_entries, H.
Qed.

(** X5. In every state the server reaches, each registry entry is filed
    under the id it stores, no id has two entries, and every id in the
    registry was returned by a [generatePlayerId] call of the run: an
    id proposed by a client never becomes a registry key. *)
Theorem registry_ids_are_server_generated (evs : list Event) :
  let st := run evs init in
  filed_under_id st /\
  NoDup (JsMap.keys (players st)) /\
  (forall k, In k (JsMap.keys (players st)) -> In k (ids_handed_out evs init)) /\
  (forall c s, JsMap.get Nat.eqb c (conn_playerId st) = Some s ->
               In s (ids_handed_out evs init)).
Proof.
  intros st. subst st. split; [|split].
  - apply run_filed_under_id. intros k d [].
  - apply run_single_entries. split; constructor.
  - destruct (run_ids_within evs [] init) as (Hp & Hc & _).
    + repeat split; simpl; intros; try discriminate; contradiction.
    + intros s [].
    + split; [exact Hp|exact Hc].
Qed.

Lemma registry_ids_witness :
  In Scenarios.idA
    (ids_handed_out
       [Connect;
        Message 0%nat (player_join (Some (Scenarios.gopher "Ann" 100 100))) Scenarios.envA]
       init).
Proof.
  refine (proj1 (proj2 (proj2 (registry_ids_are_server_generated
    [Connect;
     Message 0%nat (player_join (Some (Scenarios.gopher "Ann" 100 100))) Scenarios.envA])))
    Scenarios.idA _).
  vm_compute. left. reflexivity.
Defined.

(** *** Positions along a run *)

Lemma in_bounds_closed_numeric p : in_bounds_closed p -> numeric p.
Proof.
  unfold in_bounds_closed, numeric.
  destruct (x p), (y p); simpl; intros H; try contradiction; auto.
Qed.

Lemma step_positions_in_map ev st :
  join_in_map ev -> move_numeric ev ->
  positions_in_map st -> positions_in_map (step ev st).
Proof.
  intros Hev Hmv Hinv k d Hin.
  destruct (step_players ev st)
    as [H|[(c & p & e & pid & Hmsg & _ & H & _)
          |[(A & cur & d0 & Hcur & _ & Hpos & H)|(A & H)]]];
    rewrite H in Hin.
  - eapply Hinv, Hin.
  - apply JsMapMore.in_set in Hin. destruct Hin as [Heq|Hin]; [|eapply Hinv, Hin].
    inversion Heq; subst. simpl in Hev. unfold joinData. cbn [pos].
    destruct (p_pos p) as [q|]; [exact Hev|].
    unfold in_bounds_closed. cbn [x y].
    repeat split; vm_compute; discriminate.
  - apply JsMapMore.in_set in Hin. destruct Hin as [Heq|Hin]; [|eapply Hinv, Hin].
    inversion Heq; subst.
    assert (Hcurb : in_bounds_closed (pos cur)).
    { eapply Hinv. eapply (JsMapFacts.get_In String.eqb string_eqb_spec), Hcur. }
    destruct Hpos as [->|(c & m & e & -> & Hvp)]; [exact Hcurb|].
    eapply validPos_in_bounds_closed; [exact Hvp|].
    unfold numeric_input. simpl in Hmv.
    destruct (m_dx m), (m_dy m); try exact Hmv;
      now apply in_bounds_closed_numeric.
  - apply JsMapMore.in_delete in Hin. eapply Hinv, Hin.
Qed.

(** X6. If every join request of a run proposes no position or one with
    numeric coordinates inside the closed map rectangle
    [0,1536] x [0,1024], and every move request in the absolute form
    gives both coordinates as numbers, then every position in the
    registry has numeric coordinates inside the rectangle, whatever the
    size of the numbers the moves carry.  (The deltas [dx] and [dy] of
    a request are numbers by the type of [MoveMsg].) *)
Theorem positions_stay_in_map (evs : list Event) :
  Forall join_in_map evs -> Forall move_numeric evs ->
  positions_in_map (run evs init).
Proof.
  intros Hall Hnum.
  assert (Hgen : forall st, positions_in_map st -> positions_in_map (run evs st)).
  { induction evs as [|ev evs IH]; intros st Hinv; simpl; auto.
    inversion Hall; subst. inversion Hnum; subst.
    apply IH; auto. now apply step_positions_in_map. }
  apply Hgen. intros k d [].
Qed.

Lemma positions_stay_in_map_witness :
  positions_in_map
    (run [Connect;
          Message 0%nat (player_join (Some (Scenarios.gopher "Ann" 100 100))) Scenarios.envA;
          Message 0%nat (player_move (Scenarios.move_by None 99999 (-99999)))
            (Scenarios.later 0);
          Message 0%nat (player_move (Scenarios.move_to None 99999 (-5)))
            (Scenarios.later 20)]
       init).
Proof.
  apply positions_stay_in_map.
  - repeat constructor; simpl; vm_compute; discriminate.
  - repeat constructor.
Defined.

(** X20. A [player_move] in the absolute form that passes the tests of
    the handler although its [pos] lacks a numeric [x] or [y] is applied
    like any other: the registry stores [NaN] for that coordinate, so
    the stored position is no point of the map rectangle. *)
Theorem move_without_number_stores_NaN
  (c : ws) (m : MoveMsg) (e : Env) (st : State) (A : string) (t : Z) (p : Pos) :
  move_applied c m e st = Some (A, t) ->
  m_dx m = None \/ m_dy m = None ->
  m_pos m = Some p ->
  is_number (x p) = false \/ is_number (y p) = false ->
  exists d,
    JsMap.get String.eqb A (players (onMessage c (player_move m) e st)) = Some d /\
    (is_number (x p) = false -> x (pos d) = NaN) /\
    (is_number (y p) = false -> y (pos d) = NaN) /\
    ~ in_bounds_closed (pos d).
Proof.
  intros Happ Hform Hp Hnan. cbn [onMessage].
  destruct (move_applied_effect c m e st A t Happ)
    as (cur & vp & _ & _ & _ & _ & Hvp & Hplayers & _).
  destruct (validPos_not_a_number m cur p Hform Hp) as (vp' & Hvp' & Hx & Hy).
  rewrite Hvp in Hvp'. inversion Hvp'; subst vp'.
  eexists. split.
  - rewrite Hplayers. apply (JsMapFacts.get_set_same String.eqb string_eqb_spec).
  - cbn [pos]. split; [exact Hx|]. split; [exact Hy|].
    unfold in_bounds_closed.
    destruct Hnan as [Hn|Hn]; [rewrite (Hx Hn)|rewrite (Hy Hn)];
      [|destruct (x vp)]; intros H; exact H.
Qed.

Lemma move_without_number_witness :
  exists d,
    JsMap.get String.eqb Scenarios.idA
      (players
         (onMessage 0%nat
            (player_move
               {| m_playerId := None;
                  m_pos := Some {| x := Undefined; y := Num 5 |};
                  m_dx := None; m_dy := None; m_direction := Some "left";
                  m_isMoving := Some true; m_seq := Some 3%Z |})
            (Scenarios.later 0) Scenarios.two_players)) = Some d /\
    (is_number Undefined = false -> x (pos d) = NaN) /\
    (is_number (Num 5) = false -> y (pos d) = NaN) /\
    ~ in_bounds_closed (pos d).
Proof.
  refine (move_without_number_stores_NaN 0%nat
            {| m_playerId := None;
               m_pos := Some {| x := Undefined; y := Num 5 |};
               m_dx := None; m_dy := None; m_direction := Some "left";
               m_isMoving := Some true; m_seq := Some 3%Z |}
            (Scenarios.later 0) Scenarios.two_players Scenarios.idA
            (now (Scenarios.later 0)) {| x := Undefined; y := Num 5 |} _ _ _ _).
  - vm_compute. reflexivity.
  - left. reflexivity.
  - reflexivity.
  - left. reflexivity.
Defined.

(** *** Closing a connection (the ['close'] handler) *)

Lemma recipients_after_delete c st :
  recipients c (with_clients (JsMap.delete Nat.eqb c (clients st)) (next_ws st) st)
  = recipients c st.
Proof.
  unfold recipients. cbn [clients with_clients].
  induction (clients st) as [|[k r] l IH]; [reflexivity|].
  cbn [JsMap.delete filter fst snd].
  destruct (Nat.eqb_spec c k) as [->|Hne].
  - rewrite Nat.eqb_refl. reflexivity.
  - destruct (Nat.eqb_spec k c) as [E|_]; [congruence|].
    cbn [negb andb filter fst snd].
    destruct (Nat.eqb_spec k c) as [E|_]; [congruence|].
    cbn [negb andb]. destruct (is_OPEN r); cbn [map]; now rewrite IH.
Qed.

Lemma readyState_after_delete c c' st :
  c' <> c ->
  readyState c' (with_clients (JsMap.delete Nat.eqb c (clients st)) (next_ws st) st)
  = readyState c' st.
Proof.
  intros Hne. unfold readyState. cbn [clients with_clients].
  rewrite (JsMapMore.get_delete_other Nat.eqb nat_eqb_spec); auto.
Qed.

(** X7. When a connection acting for the player [A] closes, in any state
    the server can reach: [A] leaves the registry, the connection
    leaves [wsToPlayerId] and [wss.clients], every other entry of the
    registry is untouched, and each other open connection is written
    exactly one [player_leave] for [A], at once; nothing is written to
    the closed connection. *)
Theorem close_removes_player_and_notifies
  (evs : list Event) (c c' : ws) (A : string) :
  is_client c (run evs init) = true ->
  ownerId c (run evs init) = Some A -> A <> EmptyString ->
  readyState c' (run evs init) = OPEN -> c' <> c ->
  let st := run evs init in
  let st' := step (Close c) st in
  JsMap.get String.eqb A (players st') = None /\
  (forall k, k <> A ->
     JsMap.get String.eqb k (players st') = JsMap.get String.eqb k (players st)) /\
  JsMap.get Nat.eqb c (wsToPlayerId st') = None /\
  is_client c st' = false /\
  sent st' = sent st
             ++ map (fun r => (r, plain (player_leave A))) (recipients c st) /\
  frames_to c' (sent st') = frames_to c' (sent st) ++ [plain (player_leave A)] /\
  frames_to c (sent st') = frames_to c (sent st).
Proof.
  intros Hcl Hown HA Hopen Hne st st'. subst st'. subst st.
  set (st := run evs init) in *. set (st' := step (Close c) st).
  assert (Hwf : wf st) by apply run_wf, wf_init.
  assert (Hse : single_entries st).
  { apply run_single_entries. split; constructor. }
  assert (Ht : truthy (Some A) = true).
  { simpl. apply String.eqb_neq in HA. now rewrite HA. }
  set (st0 := with_clients (JsMap.delete Nat.eqb c (clients st)) (next_ws st) st).
  assert (Hst' : st' = broadcast (player_leave A) c
                         (with_wsToPlayerId (JsMap.delete Nat.eqb c (wsToPlayerId st0))
                            (with_players (JsMap.delete String.eqb A (players st0)) st0))).
  { subst st'. cbn [step]. rewrite Hcl. fold st0. unfold onClose.
    change (ownerId c st0) with (ownerId c st).
    rewrite Hown, Ht. reflexivity. }
  assert (Hrec : recipients c st0 = recipients c st)
    by apply recipients_after_delete.
  rewrite Hst'. unfold broadcast.
  cbn [is_player_move players wsToPlayerId sent clients with_sent
       with_wsToPlayerId with_players].
  change (recipients c (with_wsToPlayerId _ (with_players _ st0)))
    with (recipients c st0). rewrite Hrec.
  split; [apply (JsMapMore.get_delete_same String.eqb string_eqb_spec), Hse|].
  split; [intros k Hk;
          apply (JsMapMore.get_delete_other String.eqb string_eqb_spec);
          congruence|].
  split; [apply (JsMapMore.get_delete_same Nat.eqb nat_eqb_spec), Hse|].
  split.
  { unfold is_client, JsMap.has. cbn [clients with_sent with_wsToPlayerId with_players].
    unfold st0. cbn [clients with_clients].
    rewrite (JsMapMore.get_delete_same Nat.eqb nat_eqb_spec); [reflexivity|apply Hwf]. }
  split; [reflexivity|]. split.
  - rewrite frames_to_app. f_equal. apply frames_to_one_each.
    + apply nodup_recipients, Hwf.
    + apply readyState_OPEN_recipient; assumption.
  - rewrite frames_to_app, frames_to_none, app_nil_r;
      [reflexivity|apply sender_not_recipient].
Qed.

Lemma close_removes_player_witness :
  JsMap.get String.eqb Scenarios.idA
    (players
       (step (Close 0%nat)
          (run [Connect; Connect;
                Message 0%nat (player_join (Some (Scenarios.gopher "Ann" 100 100)))
                  Scenarios.envA;
                Message 1%nat (player_join (Some (Scenarios.gopher "Bob" 200 200)))
                  Scenarios.envB] init))) = None.
Proof.
  refine (proj1 (close_removes_player_and_notifies
    [Connect; Connect;
     Message 0%nat (player_join (Some (Scenarios.gopher "Ann" 100 100))) Scenarios.envA;
     Message 1%nat (player_join (Some (Scenarios.gopher "Bob" 200 200))) Scenarios.envB]
    0%nat 1%nat Scenarios.idA _ _ _ _ _)).
  - vm_compute. reflexivity.
  - vm_compute. reflexivity.
  - vm_compute. discriminate.
  - vm_compute. reflexivity.
  - discriminate.
Defined.

(** *** The batching interval *)

Lemma flush_entry_empties st entry :
  (snd entry <> [] -> readyState (fst entry) st = OPEN) ->
  snd (snd (flush_entry st entry)) = [].
Proof.
  destruct entry as [c q]. simpl. intros Hopen.
  destruct q as [|u q].
  - rewrite andb_false_r. reflexivity.
  - rewrite Hopen by discriminate. reflexivity.
Qed.

(** X8. A tick at which every connection with pending movement is open
    flushes every queue and stops the interval: no timer runs while
    nothing is pending. *)
Theorem tick_with_open_clients_stops_timer (st : State) :
  broadcastTimer st <> None ->
  (forall c q, In (c, q) (movementUpdates st) -> q <> [] -> readyState c st = OPEN) ->
  let st' := step Tick st in
  broadcastTimer st' = None /\
  (forall c q, In (c, q) (movementUpdates st') -> q = []) /\
  (forall c, queue_of c st' = []).
Proof.
  intros Ht Hopen st'.
  assert (Hst' : st' = onTick st).
  { subst st'. simpl. destruct (broadcastTimer st); [reflexivity|congruence]. }
  assert (Hall : forall c q, In (c, q) (movementUpdates (onTick st)) -> q = []).
  { unfold onTick. cbn [movementUpdates with_sent with_batcher].
    intros c q Hin. rewrite map_map in Hin. apply in_map_iff in Hin.
    destruct Hin as [[c0 q0] [Heq Hin]].
    pose proof (flush_entry_empties st (c0, q0)) as He.
    rewrite Heq in He. simpl in He. apply He. intros Hq. eapply Hopen; eauto. }
  rewrite Hst'. split; [|split].
  - unfold onTick. cbn [broadcastTimer with_sent with_batcher].
    match goal with
    | |- (if ?b then _ else _) = None => destruct b eqn:Hex; [|reflexivity]
    end.
    apply existsb_exists in Hex. destruct Hex as [[c q] [Hin Hlen]].
    pose proof (Hall c q Hin) as Hnil. subst q. discriminate.
  - exact Hall.
  - intros c. unfold queue_of.
    destruct (JsMap.get Nat.eqb c (movementUpdates (onTick st))) as [q|] eqn:Hq;
      [|reflexivity].
    apply (JsMapFacts.get_In Nat.eqb nat_eqb_spec) in Hq. eapply Hall, Hq.
Qed.

Lemma tick_stops_timer_witness :
  broadcastTimer
    (step Tick (broadcast (Scenarios.mv 1) 0%nat Scenarios.two_players)) = None.
Proof.
  refine (proj1 (tick_with_open_clients_stops_timer
                   (broadcast (Scenarios.mv 1) 0%nat Scenarios.two_players) _ _)).
  - discriminate.
  - intros c q [H|[]] _. inversion H. reflexivity.
Defined.

(** *** Movement queued for a connection that has closed *)

Lemma broadcast_stale c q message ex st :
  stale_queue c q st -> stale_queue c q (broadcast message ex st).
Proof.
  intros (Hout & Hlt & Hq & Hne & Ht). unfold stale_queue.
  rewrite broadcast_clients, broadcast_next_ws.
  split; [assumption|]. split; [assumption|].
  unfold broadcast. destruct (is_player_move message);
    cbn [movementUpdates broadcastTimer with_batcher with_sent].
  - split; [|split; [assumption|destruct (broadcastTimer st); discriminate]].
    rewrite get_fold_enqueue_absent; [assumption|].
    intros Hin. apply recipients_spec in Hin. destruct Hin as [_ Hin].
    apply Hout. eapply JsMapMore.in_keys, Hin.
  - auto.
Qed.

Lemma onMessage_stale c q c0 msg e st :
  stale_queue c q st -> stale_queue c q (onMessage c0 msg e st).
Proof.
  intros H. destruct msg as [p|m|text|p|]; simpl; [| | | |exact H].
  - destruct p as [p|]; unfold on_player_join, send;
      set (st1 := if truthy _ then st else _);
      (assert (H1 : stale_queue c q st1)
        by (subst st1; destruct (truthy _); exact H));
      [|exact H1].
    match goal with
    | |- stale_queue c q (with_sent _ (broadcast ?msg ?ex ?s)) =>
        exact (broadcast_stale c q msg ex s H1)
    end.
  - unfold on_player_move.
    guards; first [exact H | apply broadcast_stale; exact H].
  - unfold on_chat.
    guards; first [exact H | apply broadcast_stale; exact H].
  - unfold on_player_update.
    guards; first [exact H | apply broadcast_stale; exact H].
Qed.

Lemma onTick_stale c q st : stale_queue c q st -> stale_queue c q (onTick st).
Proof.
  intros (Hout & Hlt & Hq & Hne & Ht).
  assert (Hclosed : is_OPEN (readyState c st) = false).
  { unfold readyState.
    now rewrite (JsMapFacts.get_not_in_keys Nat.eqb nat_eqb_spec c _ Hout). }
  assert (Hq' : JsMap.get Nat.eqb c (movementUpdates (onTick st)) = Some q).
  { unfold onTick. cbn [movementUpdates with_sent with_batcher].
    now rewrite flush_queue, Hq, Hclosed. }
  unfold stale_queue. split; [exact Hout|]. split; [exact Hlt|].
  split; [exact Hq'|]. split; [exact Hne|].
  apply (JsMapFacts.get_In Nat.eqb nat_eqb_spec) in Hq'.
  unfold onTick in *. cbn [movementUpdates broadcastTimer with_sent with_batcher] in *.
  match goal with
  | |- (if ?b then _ else _) <> None => assert (Hb : b = true)
  end.
  { apply existsb_exists. exists (c, q). split; [exact Hq'|].
    destruct q; [congruence|reflexivity]. }
  rewrite Hb. exact Ht.
Qed.

Lemma step_stale c q ev st :
  wf st -> stale_queue c q st -> stale_queue c q (step ev st).
Proof.
  intros Hwf H. destruct ev as [|c0 msg e|c0|c0|]; simpl.
  - destruct H as (Hout & Hlt & Hq & Hne & Ht). unfold stale_queue. simpl.
    repeat split; auto.
    unfold JsMap.keys. rewrite map_app. simpl. intros Hin.
    apply in_app_or in Hin. destruct Hin as [Hin|[Heq|[]]]; [now apply Hout|lia].
  - destruct (is_client c0 st); [|exact H]. now apply onMessage_stale.
  - destruct (is_client c0 st) eqn:Hcl; [|exact H].
    destruct H as (Hout & Hlt & Hq & Hne & Ht). unfold stale_queue. simpl.
    repeat split; auto. intros Hin.
    apply (JsMapFacts.in_keys_set Nat.eqb nat_eqb_spec) in Hin.
    destruct Hin as [->|Hin]; [|now apply Hout].
    unfold is_client, JsMap.has in Hcl.
    rewrite (JsMapFacts.get_not_in_keys Nat.eqb nat_eqb_spec c0 _ Hout) in Hcl.
    discriminate.
  - destruct (is_client c0 st); [|exact H].
    assert (H0 : stale_queue c q
                   (with_clients (JsMap.delete Nat.eqb c0 (clients st)) (next_ws st) st)).
    { destruct H as (Hout & Hlt & Hq & Hne & Ht). unfold stale_queue. simpl.
      repeat split; auto. intros Hin.
      apply JsMapFacts.in_keys_delete in Hin. now apply Hout. }
    unfold onClose.
    guards; first [exact H0 | apply broadcast_stale; exact H0].
  - destruct (broadcastTimer st); [|exact H]. now apply onTick_stale.
Qed.

(** X9. Movement queued for a connection that closes before the next tick
    is never flushed and never discarded: whatever happens afterwards,
    its queue keeps the same messages and the batching interval never
    stops. *)
Theorem pending_moves_of_closed_connection_stay
  (c : ws) (q : list ServerMsg) (evs : list Event) (st : State) :
  wf st -> stale_queue c q st ->
  JsMap.get Nat.eqb c (movementUpdates (run evs st)) = Some q /\
  broadcastTimer (run evs st) <> None.
Proof.
  intros Hwf H.
  assert (Hrun : stale_queue c q (run evs st)).
  { revert st Hwf H. induction evs as [|ev evs IH]; intros st Hwf H; simpl;
      [exact H|].
    apply IH; [now apply step_wf|now apply step_stale]. }
  destruct Hrun as (_ & _ & Hq & _ & Ht). auto.
Qed.

Lemma pending_moves_stay_witness :
  broadcastTimer
    (run [Tick; Connect; Tick;
          Message 1%nat (chat (Some "anyone?")) (Scenarios.later 100); Tick]
       closed_with_pending) <> None.
Proof.
  refine (proj2 (pending_moves_of_closed_connection_stay 0%nat
    [player_moved Scenarios.idB {| x := Num 30; y := Num 30 |} (Some "right") (Some true)
       (Some 1%Z) (now (Scenarios.later 0))]
    _ closed_with_pending _ _)).
  - unfold closed_with_pending, Scenarios.two_players, Scenarios.one_joined_one_idle.
    apply run_wf, run_wf, run_wf, wf_init.
  - unfold stale_queue. split; [|split; [|split; [|split]]].
    + vm_compute. intros [H|[]]. discriminate.
    + vm_compute. lia.
    + vm_compute. reflexivity.
    + discriminate.
    + vm_compute. discriminate.
Defined.

(** *** A move without a position *)

(** X10. A [player_move] that passes the ownership test and the rate limiter
    but carries neither [pos] nor both [dx] and [dy] changes nothing in
    the registry and is not broadcast, yet its clock reading is
    recorded as the player's last update: a well-formed move of the
    same player less than 16 ms later is dropped. *)
Theorem positionless_move_uses_rate_slot
  (c : ws) (A : string) (d : PlayerData) (m m2 : MoveMsg) (e e2 : Env)
  (st : State) :
  ownerId c st = Some A -> A <> EmptyString ->
  JsMap.get String.eqb A (players st) = Some d ->
  id_mismatch (m_playerId m) A = false ->
  (UPDATE_RATE_LIMIT <= now e - lastUpdate A st)%Z ->
  no_position m ->
  (now e2 - now e < UPDATE_RATE_LIMIT)%Z ->
  let st1 := onMessage c (player_move m) e st in
  players st1 = players st /\
  sent st1 = sent st /\
  movementUpdates st1 = movementUpdates st /\
  lastUpdate A st1 = now e /\
  onMessage c (player_move m2) e2 st1 = st1.
Proof.
  intros Hown HA Hd Hmis Hgap [Hpos Hdelta] Hsoon st1.
  assert (Ht : truthy (Some A) = true).
  { simpl. apply String.eqb_neq in HA. now rewrite HA. }
  assert (Hvp : validPos m d = None).
  { unfold validPos. rewrite Hpos.
    destruct Hdelta as [-> | ->]; destruct (m_dx m); reflexivity. }
  assert (Hst1 : st1 = with_lastUpdateTime
                         (JsMap.set String.eqb A (now e) (lastUpdateTime st)) st).
  { subst st1. cbn [onMessage]. unfold on_player_move.
    rewrite Hown, Ht, Hd, Hmis. unfold too_frequent.
    apply Z.ltb_ge in Hgap. rewrite Hgap, Hvp. reflexivity. }
  assert (Hlast : lastUpdate A st1 = now e).
  { rewrite Hst1. unfold lastUpdate. cbn [lastUpdateTime with_lastUpdateTime].
    rewrite (JsMapFacts.get_set_same String.eqb string_eqb_spec).
    apply num_or_Some_0. }
  split; [now rewrite Hst1|]. split; [now rewrite Hst1|].
  split; [now rewrite Hst1|]. split; [exact Hlast|].
  cbn [onMessage]. unfold on_player_move.
  assert (Hown1 : ownerId c st1 = Some A) by (rewrite Hst1; exact Hown).
  rewrite Hown1, Ht. unfold too_frequent. rewrite Hlast.
  apply Z.ltb_lt in Hsoon. rewrite Hsoon.
  guards; reflexivity.
Qed.

Lemma positionless_move_witness :
  onMessage 0%nat (player_move (Scenarios.move_to None 50 50)) (Scenarios.later 10)
    (onMessage 0%nat
       (player_move {| m_playerId := None; m_pos := None; m_dx := Some 4%Q;
                       m_dy := None; m_direction := None; m_isMoving := None;
                       m_seq := None |})
       (Scenarios.later 0) Scenarios.two_players)
  = onMessage 0%nat
       (player_move {| m_playerId := None; m_pos := None; m_dx := Some 4%Q;
                       m_dy := None; m_direction := None; m_isMoving := None;
                       m_seq := None |})
       (Scenarios.later 0) Scenarios.two_players.
Proof.
  refine (proj2 (proj2 (proj2 (proj2
    (positionless_move_uses_rate_slot 0%nat Scenarios.idA
       (joinData Scenarios.idA (Scenarios.gopher "Ann" 100 100))
       _ (Scenarios.move_to None 50 50) (Scenarios.later 0) (Scenarios.later 10)
       Scenarios.two_players _ _ _ _ _ _ _))))).
  - vm_compute. reflexivity.
  - vm_compute. discriminate.
  - vm_compute. reflexivity.
  - reflexivity.
  - vm_compute. discriminate.
  - split; [reflexivity|right; reflexivity].
  - vm_compute. reflexivity.
Defined.

(** *** No player without a connection *)

Lemma generatePlayerId_nonempty e : generatePlayerId e <> EmptyString.
Proof. unfold generatePlayerId. discriminate. Qed.

Lemma step_ids_nonempty ev st : ids_nonempty st -> ids_nonempty (step ev st).
Proof.
  intros Hinv c0 s Hget.
  destruct (step_identity_maps ev st)
    as [[H _]|[(c & p & e & _ & _ & _ & H & _)|(c & H & _)]];
    rewrite H in Hget; try (eapply Hinv, Hget).
  apply get_set_cases in Hget. destruct Hget as [->|Hget].
  - apply generatePlayerId_nonempty.
  - eapply Hinv, Hget.
Qed.

Lemma onMessage_clients c msg e st : clients (onMessage c msg e st) = clients st.
Proof.
  destruct msg as [p|m|text|p|]; simpl; [| | | |reflexivity].
  - apply on_player_join_keeps.
  - unfold on_player_move. guards; bc; reflexivity.
  - unfold on_chat. guards; bc; reflexivity.
  - unfold on_player_update. guards; bc; reflexivity.
Qed.

Lemma is_client_app c st extra :
  JsMap.has Nat.eqb c (clients st) = true ->
  JsMap.has Nat.eqb c (clients st ++ extra) = true.
Proof.
  unfold JsMap.has. induction (clients st) as [|[k r] l IH]; simpl; [discriminate|].
  destruct (Nat.eqb c k); auto.
Qed.

Lemma in_keys_delete_nodup {V : Type} (k A : string) (m : JsMap.t string V) :
  NoDup (JsMap.keys m) -> In k (JsMap.keys (JsMap.delete String.eqb A m)) ->
  k <> A /\ In k (JsMap.keys m).
Proof.
  induction m as [|[k0 v0] m IH]; simpl; [tauto|].
  intros Hnd Hin. inversion Hnd as [|? ? Hnotin Hnd']; subst.
  destruct (String.eqb_spec A k0) as [->|Hne]; simpl in Hin.
  - split; [|now right]. intros ->. contradiction.
  - destruct Hin as [<-|Hin]; [split; [congruence|now left]|].
    destruct (IH Hnd' Hin). split; [assumption|now right].
Qed.

Lemma step_owned_by_client ev st :
  ids_nonempty st -> ids_in_step st -> single_entries st ->
  owned_by_client st -> owned_by_client (step ev st).
Proof.
  intros Hne Hsync [Hnd _] Hinv.
  assert (Hkeep : forall st',
             JsMap.keys (players st') = JsMap.keys (players st) ->
             conn_playerId st' = conn_playerId st ->
             (forall c, is_client c st = true -> is_client c st' = true) ->
             owned_by_client st').
  { intros st' Hk Hc Hcl k Hin. rewrite Hk in Hin.
    destruct (Hinv k Hin) as (c & Hc1 & Hc2).
    exists c. rewrite Hc. auto. }
  destruct ev as [|c msg e|c|c|]; cbn [step].
  - apply Hkeep; try reflexivity. intros c Hc. unfold is_client.
    cbn [clients with_clients]. now apply is_client_app.
  - destruct (is_client c st) eqn:Hcl; [|exact Hinv].
    destruct msg as [p|m|text|p|]; cbn [onMessage].
    + intros k Hin.
      assert (Hcl' : forall c', is_client c' st = true ->
                                is_client c' (on_player_join c p e st) = true).
      { intros c' H. unfold is_client.
        change (on_player_join c p e st) with (onMessage c (player_join p) e st).
        now rewrite onMessage_clients. }
      destruct p as [p|]; cycle 1.
      { destruct (join_without_player c e st) as (Hp & _).
        rewrite Hp in Hin. destruct (Hinv k Hin) as (c' & H1 & H2).
        exists c'. split; [auto|].
        destruct (on_player_join_identity c None e st)
          as [(_ & -> & _)|(Ht & -> & _)]; [exact H2|].
        destruct (Nat.eq_dec c c') as [->|Hcc].
        - exfalso. rewrite H2 in Ht. simpl in Ht.
          apply negb_false_iff, String.eqb_eq in Ht.
          now apply (Hne c' k).
        - now rewrite (JsMapFacts.get_set_other Nat.eqb nat_eqb_spec). }
      destruct (on_player_join_players c p e st) as (pid & Hp & Hcase).
      rewrite Hp in Hin.
      apply (JsMapFacts.in_keys_set String.eqb string_eqb_spec) in Hin.
      destruct Hcase as [(Ht & Hc & Hconn & _)|(Ht & -> & Hconn & _)].
      * rewrite Hconn. destruct Hin as [->|Hin]; [exists c; auto|].
        destruct (Hinv k Hin) as (c' & H1 & H2). exists c'. auto.
      * rewrite Hconn. destruct Hin as [->|Hin].
        -- exists c. split; [auto|].
           apply (JsMapFacts.get_set_same Nat.eqb nat_eqb_spec).
        -- destruct (Hinv k Hin) as (c' & H1 & H2). exists c'. split; [auto|].
           destruct (Nat.eq_dec c c') as [->|Hcc].
           ++ exfalso. rewrite H2 in Ht. simpl in Ht.
              apply negb_false_iff, String.eqb_eq in Ht.
              now apply (Hne c' k).
           ++ now rewrite (JsMapFacts.get_set_other Nat.eqb nat_eqb_spec).
    + apply Hkeep.
      * destruct (on_player_move_players c m e st)
          as [->|(A & cur & vp & Hcur & _ & ->)]; [reflexivity|].
        eapply keys_set_existing, Hcur.
      * apply on_player_move_ids.
      * intros c' H. unfold is_client.
        change (on_player_move c m e st) with (onMessage c (player_move m) e st).
        now rewrite onMessage_clients.
    + apply Hkeep.
      * now rewrite on_chat_players.
      * apply on_chat_ids.
      * intros c' H. unfold is_client.
        change (on_chat c text st) with (onMessage c (chat text) e st).
        now rewrite onMessage_clients.
    + apply Hkeep.
      * destruct (on_player_update_players c p st)
          as [->|(A & cur & d & Hcur & _ & _ & ->)]; [reflexivity|].
        eapply keys_set_existing, Hcur.
      * apply on_player_update_ids.
      * intros c' H. unfold is_client.
        change (on_player_update c p st) with (onMessage c (player_update p) e st).
        now rewrite onMessage_clients.
    + exact Hinv.
  - destruct (is_client c st) eqn:Hcl; [|exact Hinv].
    apply Hkeep; try reflexivity. intros c' Hc'. unfold is_client, JsMap.has.
    cbn [clients with_clients].
    destruct (Nat.eq_dec c c') as [->|Hcc].
    + now rewrite (JsMapFacts.get_set_same Nat.eqb nat_eqb_spec).
    + now rewrite (JsMapFacts.get_set_other Nat.eqb nat_eqb_spec).
  - destruct (is_client c st) eqn:Hcl; [|exact Hinv].
    set (st0 := with_clients (JsMap.delete Nat.eqb c (clients st)) (next_ws st) st).
    assert (Hother : forall c', c' <> c -> is_client c' st = true ->
                                is_client c' st0 = true).
    { intros c' Hcc H. unfold is_client, JsMap.has, st0.
      cbn [clients with_clients].
      rewrite (JsMapMore.get_delete_other Nat.eqb nat_eqb_spec); auto. }
    unfold onClose. change (ownerId c st0) with (ownerId c st).
    destruct (ownerId c st) as [A|] eqn:Hown.
    + destruct (truthy (Some A)) eqn:HtA.
      * intros k Hin. rewrite broadcast_players in Hin.
        cbn [players with_wsToPlayerId with_players] in Hin.
        change (players st0) with (players st) in Hin.
        apply (in_keys_delete_nodup k A _ Hnd) in Hin. destruct Hin as [HkA Hin].
        destruct (Hinv k Hin) as (c' & H1 & H2).
        exists c'. unfold is_client. rewrite broadcast_clients, broadcast_conn_playerId.
        split; [|exact H2].
        apply Hother; [|assumption]. intros ->.
        unfold ownerId, id_or in Hown. rewrite H2 in Hown.
        assert (Htk : truthy (Some k) = true).
        { simpl. apply negb_true_iff, String.eqb_neq. eapply Hne, H2. }
        rewrite Htk in Hown. congruence.
      * intros k Hin. change (players st0) with (players st) in Hin.
        destruct (Hinv k Hin) as (c' & H1 & H2).
        exists c'. split; [|exact H2]. apply Hother; [|assumption]. intros ->.
        unfold ownerId, id_or in Hown. rewrite H2 in Hown.
        assert (Htk : truthy (Some k) = true).
        { simpl. apply negb_true_iff, String.eqb_neq. eapply Hne, H2. }
        rewrite Htk in Hown. inversion Hown; subst. congruence.
    + intros k Hin. change (players st0) with (players st) in Hin.
      destruct (Hinv k Hin) as (c' & H1 & H2).
      exists c'. split; [|exact H2]. apply Hother; [|assumption]. intros ->.
      unfold ownerId, id_or in Hown. rewrite H2 in Hown.
      assert (Htk : truthy (Some k) = true).
      { simpl. apply negb_true_iff, String.eqb_neq. eapply Hne, H2. }
      rewrite Htk in Hown. discriminate.
  - destruct (broadcastTimer st); [|exact Hinv].
    apply Hkeep; [reflexivity|reflexivity|auto].
Qed.

(** X11. In every state the server reaches, each player in the registry is
    the player of a connection that is still in [wss.clients]: once a
    connection has closed, no entry of it is left behind. *)
Theorem registry_entries_have_live_owner (evs : list Event) :
  owned_by_client (run evs init).
Proof.
  assert (Hgen : forall st,
             ids_nonempty st -> ids_in_step st -> single_entries st ->
             owned_by_client st -> owned_by_client (run evs st)).
  { induction evs as [|ev evs IH]; intros st H1 H2 H3 H4; simpl; [exact H4|].
    apply IH.
    - now apply step_ids_nonempty.
    - now apply step_ids_in_step.
    - now apply step_single_entries.
    - now apply step_owned_by_client. }
  apply Hgen.
  - intros c s H. discriminate.
  - apply ids_in_step_init.
  - split; constructor.
  - intros k [].
Qed.

Lemma registry_entries_owner_witness :
  exists c,
    is_client c
      (run [Connect;
            Message 0%nat (player_join (Some (Scenarios.gopher "Ann" 100 100))) Scenarios.envA;
            Connect; Close 1%nat] init) = true /\
    JsMap.get Nat.eqb c
      (conn_playerId
         (run [Connect;
               Message 0%nat (player_join (Some (Scenarios.gopher "Ann" 100 100))) Scenarios.envA;
               Connect; Close 1%nat] init)) = Some Scenarios.idA.
Proof.
  refine (registry_entries_have_live_owner
    [Connect;
     Message 0%nat (player_join (Some (Scenarios.gopher "Ann" 100 100))) Scenarios.envA;
     Connect; Close 1%nat] Scenarios.idA _).
  vm_compute. left. reflexivity.
Defined.

(** *** A request changes the sender's own player only *)

Lemma ids_handed_out_app evs1 evs2 st :
  ids_handed_out (evs1 ++ evs2) st
  = ids_handed_out evs1 st ++ ids_handed_out evs2 (run evs1 st).
Proof.
  revert st. induction evs1 as [|ev evs1 IH]; intros st; [reflexivity|].
  cbn [app run]. rewrite (ids_handed_out_cons ev (evs1 ++ evs2)), IH.
  rewrite (ids_handed_out_cons ev evs1). now rewrite app_assoc.
Qed.

(** The id a first join is handed is no registry key yet, as long as
    the ids handed out are pairwise distinct. *)
Lemma fresh_id_not_registered evs c p e k d :
  NoDup (ids_handed_out (evs ++ [Message c (player_join p) e]) init) ->
  is_client c (run evs init) = true ->
  truthy (JsMap.get Nat.eqb c (conn_playerId (run evs init))) = false ->
  JsMap.get String.eqb k (players (run evs init)) = Some d ->
  generatePlayerId e <> k.
Proof.
  intros Hnd Hcl Ht Hd Heq. subst k.
  rewrite ids_handed_out_app in Hnd.
  assert (Hlast : ids_handed_out [Message c (player_join p) e] (run evs init)
                  = [generatePlayerId e]).
  { unfold ids_handed_out. cbn [draws]. rewrite Hcl, Ht. reflexivity. }
  rewrite Hlast in Hnd. apply NoDup_remove_2 in Hnd. apply Hnd.
  rewrite app_nil_r.
  destruct (run_ids_within evs [] init) as (Hp & _).
  - repeat split; simpl; intros; try discriminate; contradiction.
  - intros s [].
  - apply Hp. eapply JsMapMore.get_some_in_keys; [apply string_eqb_spec|exact Hd].
Qed.

(** X12. Along a run whose generated ids are pairwise distinct, whatever
    a connection sends leaves every registered player other than the
    one the connection acts for as it was: the registry entry is the
    same and so is the rate-limit timestamp.  A connection cannot move,
    rename, replace or remove the player of another connection. *)
Theorem requests_touch_own_player_only
  (evs : list Event) (c : ws) (msg : ClientMsg) (e : Env) (k : string)
  (d : PlayerData) :
  NoDup (ids_handed_out (evs ++ [Message c msg e]) init) ->
  JsMap.get String.eqb k (players (run evs init)) = Some d ->
  ownerId c (run evs init) <> Some k ->
  JsMap.get String.eqb k (players (step (Message c msg e) (run evs init))) = Some d /\
  JsMap.get String.eqb k (lastUpdateTime (step (Message c msg e) (run evs init)))
    = JsMap.get String.eqb k (lastUpdateTime (run evs init)).
Proof.
  intros Hnd Hd Hk. rewrite <- Hd.
  set (st := run evs init) in *. cbn [step].
  destruct (is_client c st) eqn:Hcl; [|split; reflexivity].
  destruct msg as [[p|]|m|text|p|]; cbn [onMessage].
  - destruct (on_player_join_players c p e st) as (pid & Hp & Hcase).
    split; [|now rewrite (proj1 (on_player_join_keeps c (Some p) e st))].
    rewrite Hp. apply (JsMapFacts.get_set_other String.eqb string_eqb_spec).
    destruct Hcase as [(Ht & Hc & _)|(Ht & -> & _)].
    + intros ->. apply Hk. unfold ownerId, id_or. rewrite Hc in Ht |- *.
      now rewrite Ht.
    + eapply fresh_id_not_registered; eauto.
  - destruct (join_without_player c e st) as (Hp & _ & _ & Hl & _).
    now rewrite Hp, Hl.
  - unfold on_player_move.
    destruct (ownerId c st) as [mid|]; [|split; reflexivity].
    destruct (truthy (Some mid)); [|split; reflexivity].
    destruct (JsMap.get String.eqb mid (players st)) as [cur|];
      [|split; reflexivity].
    destruct (id_mismatch (m_playerId m) mid); [split; reflexivity|].
    destruct (too_frequent mid e st); [split; reflexivity|].
    assert (Hne : mid <> k) by congruence.
    destruct (validPos m cur); bc;
      cbn [players lastUpdateTime with_players with_lastUpdateTime];
      rewrite ?(JsMapFacts.get_set_other String.eqb string_eqb_spec) by assumption;
      split; reflexivity.
  - rewrite on_chat_players. split; [reflexivity|].
    unfold on_chat. guards; bc; reflexivity.
  - unfold on_player_update.
    destruct (ownerId c st) as [uid|]; [|split; reflexivity].
    destruct (truthy (Some uid)); [|split; reflexivity].
    destruct (JsMap.get String.eqb uid (players st)) as [cur|];
      [|split; reflexivity].
    destruct p as [p|]; [|split; reflexivity].
    destruct (id_mismatch (p_id p) uid); [split; reflexivity|].
    assert (Hne : uid <> k) by congruence.
    bc. cbn [players lastUpdateTime with_players].
    rewrite (JsMapFacts.get_set_other String.eqb string_eqb_spec) by assumption.
    split; reflexivity.
  - split; reflexivity.
Qed.

Lemma requests_touch_own_player_witness :
  JsMap.get String.eqb Scenarios.idB
    (players
       (step (Message 0%nat (player_move (Scenarios.move_to (Some EmptyString) 9 9))
                (Scenarios.later 0))
          (run [Connect; Connect;
                Message 0%nat (player_join (Some (Scenarios.gopher "Ann" 100 100)))
                  Scenarios.envA;
                Message 1%nat (player_join (Some (Scenarios.gopher "Bob" 200 200)))
                  Scenarios.envB] init)))
  = Some (joinData Scenarios.idB (Scenarios.gopher "Bob" 200 200)).
Proof.
  refine (proj1 (requests_touch_own_player_only
    [Connect; Connect;
     Message 0%nat (player_join (Some (Scenarios.gopher "Ann" 100 100))) Scenarios.envA;
     Message 1%nat (player_join (Some (Scenarios.gopher "Bob" 200 200))) Scenarios.envB]
    0%nat (player_move (Scenarios.move_to (Some EmptyString) 9 9))
    (Scenarios.later 0) Scenarios.idB
    (joinData Scenarios.idB (Scenarios.gopher "Bob" 200 200)) _ _ _)).
  - vm_compute. constructor.
    + intros [H|[]]. discriminate H.
    + constructor; [intros []|constructor].
  - vm_compute. reflexivity.
  - vm_compute. discriminate.
Defined.

End ServerExtras.

(* ================================================================== *)
(** ** More facts about the client transport *)

Module ClientExtras.
Import Client ClientFacts.

Lemma run_app evs1 evs2 g : run (evs1 ++ evs2) g = run evs2 (run evs1 g).
Proof. revert g. induction evs1 as [|ev evs1 IH]; intros g; simpl; auto. Qed.

(** X13. After a successful open the backoff starts over: whatever happened
    before, the retries scheduled between that open and the next one
    are at most five, after 1000, 2000, ... ms. *)
Theorem backoff_restarts_after_open
  (evs1 evs2 : list Event) (g : GameWebSocket) :
  forallb (fun ev => negb (is_open_event ev)) evs2 = true ->
  exists k : nat, (k <= 5)%nat /\
    scheduled (run (evs1 ++ SocketOpen :: evs2) g)
    = scheduled (run evs1 g) ++ backoff k.
Proof.
  intros Hevs. rewrite run_app. cbn [run step].
  apply (retries_bounded (scheduled (run evs1 g)) evs2 (onopen (run evs1 g)));
    [reflexivity|reflexivity|exact Hevs].
Qed.

Lemma backoff_restarts_witness :
  exists k : nat, (k <= 5)%nat /\
    scheduled
      (run ([SocketClose 1006; Timeout false; SocketClose 1006; Timeout false]
            ++ SocketOpen :: [SocketClose 1011; Timeout false; SocketClose 1006])
         create)
    = scheduled
        (run [SocketClose 1006; Timeout false; SocketClose 1006; Timeout false]
           create)
      ++ backoff k.
Proof.
  apply (backoff_restarts_after_open
           [SocketClose 1006; Timeout false; SocketClose 1006; Timeout false]
           [SocketClose 1011; Timeout false; SocketClose 1006] create).
  reflexivity.
Defined.

Lemma attemptReconnect_bounds g :
  (0 <= reconnectAttempts g <= 5)%Z ->
  Forall (fun d => In d [1000; 2000; 3000; 4000; 5000]%Z) (scheduled g) ->
  (0 <= reconnectAttempts (attemptReconnect g) <= 5)%Z /\
  Forall (fun d => In d [1000; 2000; 3000; 4000; 5000]%Z)
    (scheduled (attemptReconnect g)).
Proof.
  intros Ha Hs. unfold attemptReconnect, maxReconnectAttempts, reconnectDelay.
  destruct (Z.ltb_spec (reconnectAttempts g) 5) as [Hlt|Hge]; [|auto].
  cbn [reconnectAttempts scheduled]. split; [lia|].
  apply Forall_app. split; [assumption|]. constructor; [|constructor].
  assert (Hk : (reconnectAttempts g = 0 \/ reconnectAttempts g = 1 \/
                reconnectAttempts g = 2 \/ reconnectAttempts g = 3 \/
                reconnectAttempts g = 4)%Z) by lia.
  destruct Hk as [-> | [-> | [-> | [-> | ->]]]]; simpl; auto 6.
Qed.

(** X14. In every run of the transport, successful opens included, the retry
    counter stays between 0 and 5 and every retry is scheduled after
    1000, 2000, 3000, 4000 or 5000 ms: the delay never grows beyond
    five times the base delay. *)
Theorem retry_counter_and_delays_bounded (evs : list Event) :
  (0 <= reconnectAttempts (run evs create) <= 5)%Z /\
  Forall (fun d => In d [1000; 2000; 3000; 4000; 5000]%Z)
    (scheduled (run evs create)).
Proof.
  assert (Hgen : forall g,
             (0 <= reconnectAttempts g <= 5)%Z /\
             Forall (fun d => In d [1000; 2000; 3000; 4000; 5000]%Z) (scheduled g) ->
             (0 <= reconnectAttempts (run evs g) <= 5)%Z /\
             Forall (fun d => In d [1000; 2000; 3000; 4000; 5000]%Z)
               (scheduled (run evs g))).
  { induction evs as [|ev evs IH]; intros g Hg; simpl; [exact Hg|].
    apply IH. destruct Hg as [Ha Hs].
    destruct ev as [throws| |code|throws|]; simpl.
    - unfold connect. destruct (ws g) as [[]|]; auto;
        (destruct throws; [now apply attemptReconnect_bounds|auto]).
    - split; [simpl; lia|exact Hs].
    - unfold onclose. destruct (negb (code =? CLEAN_CLOSE)%Z);
        [now apply attemptReconnect_bounds|auto].
    - unfold ontimeout, connect. destruct (ws g) as [[]|]; auto;
        (destruct throws; [now apply attemptReconnect_bounds|auto]).
    - unfold disconnect. destruct (ws g); auto. }
  apply Hgen. simpl. split; [lia|constructor].
Qed.

End ClientExtras.

(* ================================================================== *)
(** ** Facts about the [PORT] check *)

Module PortFacts.
Import Port.

Lemma digits_step ch k acc s :
  digit_of ch = Some k ->
  digits acc (String ch s)
  = digits (Some (10 * match acc with Some a => a | None => 0 end + k)%Z) s.
Proof. intros H. cbn [digits]. now rewrite H. Qed.

Lemma digits_uint d : forall acc rest,
  digits (Some acc) (NilEmpty.string_of_uint d ++ rest)%string
  = digits (Some (uint_value acc d)) rest.
Proof.
  induction d; intros acc rest; cbn [NilEmpty.string_of_uint String.append uint_value];
    [reflexivity|..];
    (erewrite digits_step by reflexivity); apply IHd.
Qed.

Lemma digits_uint_first d rest :
  d <> Decimal.Nil ->
  digits None (NilEmpty.string_of_uint d ++ rest)%string
  = digits (Some (uint_value 0 d)) rest.
Proof.
  destruct d; intros Hd; [congruence|..];
    cbn [NilEmpty.string_of_uint String.append uint_value];
    (erewrite digits_step by reflexivity); apply digits_uint.
Qed.

Lemma uint_value_pos d : forall acc,
  uint_value (Zpos acc) d = Zpos (Pos.of_uint_acc d acc).
Proof.
  induction d; intros acc; cbn [uint_value Pos.of_uint_acc]; [reflexivity|..];
    match goal with
    | |- uint_value ?v d = Zpos (Pos.of_uint_acc d ?a) =>
        replace v with (Zpos a) by lia
    end; apply IHd.
Qed.

Lemma uint_value_0 d : uint_value 0 d = Z.of_N (Pos.of_uint d).
Proof.
  induction d; cbn [uint_value Pos.of_uint]; [reflexivity|exact IHd|..];
    cbn [Z.mul Z.add Z.of_N]; apply uint_value_pos.
Qed.

Lemma digits_no_leading_digit v rest :
  no_leading_digit rest = true -> digits (Some v) rest = Some v.
Proof.
  destruct rest as [|ch rest]; [reflexivity|]. cbn [no_leading_digit digits].
  destruct (digit_of ch); [discriminate|reflexivity].
Qed.

(** Reading back the decimal numeral of a positive number. *)
Lemma digits_show_pos p rest :
  no_leading_digit rest = true ->
  digits None (NilEmpty.string_of_uint (Pos.to_uint p) ++ rest)%string
  = Some (Zpos p).
Proof.
  intros Hrest.
  rewrite digits_uint_first by apply DecimalPos.Unsigned.to_uint_nonnil.
  rewrite uint_value_0, DecimalPos.Unsigned.of_to.
  now apply digits_no_leading_digit.
Qed.

Lemma skip_white_pad pad s :
  all_white pad = true -> skip_white (pad ++ s)%string = skip_white s.
Proof.
  induction pad as [|ch pad IH]; cbn [all_white String.append skip_white];
    [reflexivity|].
  intros H. apply andb_true_iff in H. destruct H as [Hch Hpad].
  rewrite Hch. auto.
Qed.

(** A numeral begins with a digit: not with white space or a sign. *)
Lemma uint_string_head d rest :
  d <> Decimal.Nil ->
  exists ch s, (NilEmpty.string_of_uint d ++ rest)%string = String ch s /\
               is_white ch = false /\ ch <> "-"%char /\ ch <> "+"%char.
Proof.
  destruct d; intros Hd; [congruence|..];
    cbn [NilEmpty.string_of_uint String.append];
    eexists _, _; (split; [reflexivity|]);
    (split; [reflexivity|]); split; discriminate.
Qed.

Lemma parseInt_unsigned d rest :
  d <> Decimal.Nil ->
  parseInt (NilEmpty.string_of_uint d ++ rest)%string
  = digits None (NilEmpty.string_of_uint d ++ rest)%string.
Proof.
  intros Hd. destruct (uint_string_head d rest Hd) as (ch & s & Heq & Hw & Hm & Hp).
  rewrite Heq. unfold parseInt. cbn [skip_white]. rewrite Hw.
  destruct ch as [[] [] [] [] [] [] [] []]; try reflexivity; congruence.
Qed.

(** [parseInt] reads back the decimal numeral of any integer, whatever
    white space comes before it and whatever non-digit text follows. *)
Lemma parseInt_show_int n pad rest :
  all_white pad = true -> no_leading_digit rest = true ->
  parseInt (pad ++ Server.show_int n ++ rest)%string = Some n.
Proof.
  intros Hpad Hrest.
  assert (Hskip : forall s, parseInt (pad ++ s)%string = parseInt s).
  { intros s. unfold parseInt. now rewrite skip_white_pad. }
  rewrite Hskip. unfold Server.show_int.
  destruct n as [|p|p]; cbn [Z.to_int NilEmpty.string_of_int].
  - cbn [NilEmpty.string_of_uint String.append]. unfold parseInt.
    cbn [skip_white is_white]. cbn. now rewrite digits_no_leading_digit.
  - rewrite parseInt_unsigned by apply DecimalPos.Unsigned.to_uint_nonnil.
    now apply digits_show_pos.
  - cbn [String.append]. unfold parseInt. cbn [skip_white].
    change (is_white "-") with false. cbn iota.
    now rewrite digits_show_pos.
Qed.

Lemma show_int_nonempty n rest :
  String.eqb (Server.show_int n ++ rest)%string EmptyString = false.
Proof.
  unfold Server.show_int.
  destruct n as [|p|p]; cbn [Z.to_int NilEmpty.string_of_int]; try reflexivity.
  destruct (uint_string_head (Pos.to_uint p) rest
              (DecimalPos.Unsigned.to_uint_nonnil p)) as (ch & s & Heq & _).
  rewrite Heq. reflexivity.
Qed.

Lemma padded_numeral_nonempty n pad rest :
  String.eqb (pad ++ Server.show_int n ++ rest)%string EmptyString = false.
Proof.
  destruct pad as [|ch pad]; [|reflexivity]. cbn [String.append].
  apply show_int_nonempty.
Qed.

Lemma PORT_of_numeral n pad rest :
  all_white pad = true -> no_leading_digit rest = true ->
  PORT (Some (pad ++ Server.show_int n ++ rest)%string)
  = (if ((1 <=? n) && (n <=? 65535))%Z then Some n else None).
Proof.
  intros Hpad Hrest. unfold PORT.
  rewrite padded_numeral_nonempty.
  rewrite parseInt_show_int by assumption.
  destruct (Z.ltb_spec n 1), (Z.ltb_spec 65535 n),
    (Z.leb_spec 1 n), (Z.leb_spec n 65535); simpl; try reflexivity; lia.
Qed.

Lemma PORT_of_bare_numeral n :
  PORT (Some (Server.show_int n))
  = (if ((1 <=? n) && (n <=? 65535))%Z then Some n else None).
Proof.
  assert (Happ : forall s, (s ++ EmptyString)%string = s).
  { induction s as [|ch s IH]; simpl; congruence. }
  pose proof (PORT_of_numeral n EmptyString EmptyString eq_refl eq_refl) as H.
  cbn [String.append] in H. now rewrite Happ in H.
Qed.

(** X15. When [PORT] is set to the decimal numeral of an integer, the
    server starts exactly when the integer is between 1 and 65535 and
    then uses that port; otherwise the process exits.  Without [PORT],
    or with an empty one, the port is 10000. *)
Theorem PORT_accepts_exactly_valid_ports (n : Z) :
  PORT (Some (Server.show_int n))
  = (if ((1 <=? n) && (n <=? 65535))%Z then Some n else None) /\
  PORT None = Some 10000%Z /\
  PORT (Some EmptyString) = Some 10000%Z /\
  (forall env p, PORT env = Some p -> (1 <= p <= 65535)%Z).
Proof.
  split; [apply PORT_of_bare_numeral|split; [reflexivity|split; [reflexivity|]]].
  intros env p. unfold PORT.
  destruct (parseInt _) as [v|]; [|discriminate].
  destruct (Z.ltb_spec v 1), (Z.ltb_spec 65535 v); simpl;
    try discriminate.
  intros Heq. inversion Heq. lia.
Qed.

Lemma PORT_accepts_witness : (1 <= 8080 <= 65535)%Z.
Proof.
  refine (proj2 (proj2 (proj2 (PORT_accepts_exactly_valid_ports 0)))
            (Some "8080") 8080%Z _).
  reflexivity.
Defined.

(** X16. White space before the number and any text after it that does not
    begin with a digit are ignored: such a [PORT] is treated like the
    number alone. *)
Theorem PORT_ignores_padding_and_trailing_text (n : Z) (pad rest : string) :
  all_white pad = true -> no_leading_digit rest = true ->
  PORT (Some (pad ++ Server.show_int n ++ rest)%string)
  = PORT (Some (Server.show_int n)).
Proof.
  intros Hpad Hrest.
  rewrite PORT_of_bare_numeral. now apply PORT_of_numeral.
Qed.

Lemma PORT_ignores_padding_witness :
  PORT (Some ("  " ++ Server.show_int 8080 ++ "abc")%string)
  = PORT (Some (Server.show_int 8080)).
Proof.
  apply (PORT_ignores_padding_and_trailing_text 8080 "  " "abc").
  - reflexivity.
  - reflexivity.
Defined.

End PortFacts.

(* ================================================================== *)
(** ** Facts about [findPath] *)

Module PathFacts.
Import PathFinding.

Lemma same_cell_spec (a b : Point) : same_cell a b = true <-> a = b.
Proof.
  destruct a as [ax ay], b as [bx by_]. unfold same_cell. simpl.
  rewrite andb_true_iff, !Z.eqb_eq. split.
  - intros [-> ->]. reflexivity.
  - intros H. inversion H. auto.
Qed.

Lemma has_spec k visited : has k visited = true <-> In k visited.
Proof.
  unfold has. rewrite existsb_exists. split.
  - intros [k' [Hin Heq]]. apply String.eqb_eq in Heq. now subst.
  - intros Hin. exists k. split; [assumption|apply String.eqb_refl].
Qed.

(** *** The key of a cell determines the cell *)

Lemma free_of_comma_uint d : free_of ","%char (NilEmpty.string_of_uint d) = true.
Proof. induction d; simpl; auto. Qed.

Lemma free_of_comma_show_int n : free_of ","%char (Server.show_int n) = true.
Proof.
  unfold Server.show_int, NilEmpty.string_of_int.
  destruct (Z.to_int n); simpl; apply free_of_comma_uint.
Qed.

Lemma split_at_char ch a a' b b' :
  free_of ch a = true -> free_of ch a' = true ->
  (a ++ String ch b)%string = (a' ++ String ch b')%string ->
  a = a' /\ b = b'.
Proof.
  revert a'. induction a as [|c0 a IH]; intros [|c1 a'] Ha Ha' H; simpl in *.
  - inversion H. auto.
  - inversion H; subst. rewrite Ascii.eqb_refl in Ha'. discriminate.
  - inversion H; subst. rewrite Ascii.eqb_refl in Ha. discriminate.
  - inversion H; subst.
    apply andb_true_iff in Ha, Ha'. destruct Ha as [_ Ha]. destruct Ha' as [_ Ha'].
    destruct (IH a' Ha Ha' H2) as [-> ->]. auto.
Qed.

Lemma key_inj (p p' : Point) : key p = key p' -> p = p'.
Proof.
  unfold key. intros H.
  apply split_at_char in H; try apply free_of_comma_show_int.
  destruct H as [Hx Hy].
  apply ServerFacts.show_int_inj in Hx, Hy.
  destruct p, p'. simpl in *. congruence.
Qed.

(** *** The grid is finite *)

Lemma in_grid_cells n : in_grid n = true -> In n grid_cells.
Proof.
  unfold in_grid, GRID_WIDTH, GRID_HEIGHT. intros H.
  apply andb_true_iff in H. destruct H as [H Hy2].
  apply andb_true_iff in H. destruct H as [H Hy1].
  apply andb_true_iff in H. destruct H as [Hx1 Hx2].
  apply Z.leb_le in Hx1, Hy1. apply Z.ltb_lt in Hx2, Hy2.
  unfold grid_cells. apply in_flat_map. exists (Z.to_nat (x n)). split.
  - apply in_seq. lia.
  - apply in_map_iff. exists (Z.to_nat (y n)). split.
    + destruct n as [nx ny]. simpl in *. f_equal; lia.
    + apply in_seq. lia.
Qed.

Lemma visited_bound start visited :
  NoDup visited ->
  (forall k, In k visited ->
     k = key start \/ exists n, in_grid n = true /\ k = key n) ->
  (List.length visited <= 301)%nat.
Proof.
  intros Hnd Hcells.
  change 301%nat with (List.length (key start :: map key grid_cells)).
  apply NoDup_incl_length; [assumption|].
  intros k Hin. destruct (Hcells k Hin) as [->|[n [Hn ->]]].
  - now left.
  - right. apply in_map. now apply in_grid_cells.
Qed.

(** *** Walks *)

Lemma last_cons {A : Type} (a : A) (l : list A) :
  forall d, last (a :: l) d = last l a.
Proof.
  revert a. induction l as [|b l IH]; intros a d; [reflexivity|].
  change (last (a :: b :: l) d) with (last (b :: l) d).
  rewrite (IH b d), (IH b a). reflexivity.
Qed.

Lemma walk_snoc w from steps n :
  walk w from steps ->
  In n (neighbors (walk_end from steps)) -> open_cell w n ->
  walk w from (steps ++ [n]) /\ walk_end from (steps ++ [n]) = n.
Proof.
  unfold walk_end. intros Hw Hn Ho. split; [|apply last_last].
  revert from Hw Hn. induction steps as [|s steps IH]; intros from Hw Hn.
  - simpl in *. auto.
  - destruct Hw as (Hs & Hos & Hw). rewrite last_cons in Hn.
    cbn [app walk]. split; [exact Hs|]. split; [exact Hos|].
    now apply IH.
Qed.

(** *** The neighbour loop *)

Lemma visit_spec w pth ns : forall q v q' v',
  visit w pth ns q v = (q', v') ->
  (forall k, In k v -> In k v') /\
  (forall nd, In nd q -> In nd q') /\
  (forall nd, In nd q' ->
     In nd q \/
     (In (pos nd) ns /\ open_cell w (pos nd) /\ path nd = pth ++ [pos nd] /\
      In (key (pos nd)) v')) /\
  (forall k, In k v' ->
     In k v \/ exists nd, In nd q' /\ key (pos nd) = k /\ in_grid (pos nd) = true) /\
  (forall n, In n ns -> open_cell w n -> In (key n) v') /\
  (NoDup v -> NoDup v') /\
  (List.length v' + List.length q = List.length v + List.length q')%nat.
Proof.
  induction ns as [|n ns IH]; intros q v q' v' H; simpl in H.
  - inversion H; subst. repeat split; auto. intros n [].
  - destruct (in_grid n && negb (has (key n) v) && w (x n) (y n)) eqn:Hcond.
    + apply andb_true_iff in Hcond. destruct Hcond as [Hcond Hw].
      apply andb_true_iff in Hcond. destruct Hcond as [Hg Hnv].
      apply negb_true_iff in Hnv.
      assert (Hnotin : ~ In (key n) v).
      { intros Hin. apply has_spec in Hin. congruence. }
      destruct (IH _ _ _ _ H) as (I1 & I2 & I3 & I4 & I5 & I6 & I7).
      split; [|split; [|split; [|split; [|split; [|split]]]]].
      * intros k Hk. apply I1, in_or_app. now left.
      * intros nd Hnd. apply I2, in_or_app. now left.
      * intros nd Hnd. destruct (I3 nd Hnd) as [Hold|(Hp & Ho & Hpath & Hk)].
        -- apply in_app_or in Hold. destruct Hold as [Hold|[<-|[]]]; [now left|].
           right. cbn [pos path].
           split; [now left|]. split; [split; assumption|].
           split; [reflexivity|].
           apply I1, in_or_app. right. now left.
        -- right. split; [now right|]. split; [exact Ho|]. split; assumption.
      * intros k Hk. destruct (I4 k Hk) as [Hold|Hnew]; [|now right].
        apply in_app_or in Hold. destruct Hold as [Hold|[<-|[]]]; [now left|].
        right. exists {| pos := n; path := pth ++ [n] |}. cbn [pos].
        split; [|split; [reflexivity|exact Hg]].
        apply I2, in_or_app. right. now left.
      * intros n0 [<-|Hn0] Ho; [|now apply I5].
        apply I1, in_or_app. right. now left.
      * intros Hnd. apply I6. apply NoDup_app; [assumption| |].
        -- constructor; [intros []|constructor].
        -- intros a Ha [<-|[]]. contradiction.
      * rewrite !length_app in I7. simpl in I7. lia.
    + destruct (IH _ _ _ _ H) as (I1 & I2 & I3 & I4 & I5 & I6 & I7).
      split; [exact I1|]. split; [exact I2|].
      split; [|split; [exact I4|split; [|split; [exact I6|exact I7]]]].
      * intros nd Hnd. destruct (I3 nd Hnd) as [Hold|(Hp & Ho & Hpath & Hk)];
          [now left|].
        right. split; [now right|]. split; [exact Ho|]. split; assumption.
      * intros n0 [<-|Hn0] Ho; [|now apply I5].
        destruct Ho as [Hg Hw]. rewrite Hg, Hw in Hcond.
        rewrite andb_true_r in Hcond. simpl in Hcond.
        apply negb_false_iff in Hcond. apply I1. now apply has_spec.
Qed.

(** *** The loop invariant *)

Lemma search_inv_init w start target :
  search_inv w start target [] [{| pos := start; path := [] |}] [key start].
Proof.
  constructor.
  - now left.
  - intros nd [<-|[]]. now left.
  - intros k [<-|[]]. exists start. split; [reflexivity|].
    right. eexists. split; [now left|reflexivity].
  - intros p n [].
  - intros p [].
  - constructor; [intros []|constructor].
  - intros k [<-|[]]. now left.
  - intros nd [<-|[]]. simpl. auto.
Qed.

Lemma search_inv_step w start target processed nd rest v q' v' :
  search_inv w start target processed (nd :: rest) v ->
  same_cell (pos nd) target = false ->
  visit w (path nd) (neighbors (pos nd)) rest v = (q', v') ->
  search_inv w start target (pos nd :: processed) q' v'.
Proof.
  intros Hinv Hnt Hvisit.
  destruct (visit_spec _ _ _ _ _ _ _ Hvisit) as (I1 & I2 & I3 & I4 & I5 & I6 & _).
  destruct Hinv as [Hs Hq Hcov Hcl Hnot Hnd Hcells Hpaths].
  constructor.
  - now apply I1.
  - intros nd' Hin. destruct (I3 nd' Hin) as [Hold|(_ & _ & _ & Hk)]; [|exact Hk].
    apply I1, Hq. now right.
  - intros k Hk. destruct (I4 k Hk) as [Hold|(nd' & Hin & Hkey & _)].
    + destruct (Hcov k Hold) as (p & Hp & [Hproc|(nd0 & [<-|Hin0] & Hpos)]).
      * exists p. split; [assumption|]. left. now right.
      * exists p. split; [assumption|]. left. left. exact Hpos.
      * exists p. split; [assumption|]. right. exists nd0. split; auto.
    + exists (pos nd'). split; [assumption|]. right. exists nd'. auto.
  - intros p n [<-|Hp] Hn Ho.
    + now apply I5.
    + apply I1. eapply Hcl; eauto.
  - intros p [<-|Hp].
    + intros Heq. apply same_cell_spec in Heq. congruence.
    + now apply Hnot.
  - now apply I6.
  - intros k Hk. destruct (I4 k Hk) as [Hold|(nd' & _ & <- & Hg)].
    + now apply Hcells.
    + right. exists (pos nd'). auto.
  - intros nd' Hin.
    destruct (I3 nd' Hin) as [Hold|(Hn & Ho & Hpath & _)].
    + apply Hpaths. now right.
    + destruct (Hpaths nd (or_introl eq_refl)) as [Hw Hend].
      rewrite Hpath. apply walk_snoc; [assumption| |assumption].
      now rewrite Hend.
Qed.

(** *** Soundness *)

Lemma search_sound w start target : forall remaining processed q v pth,
  search_inv w start target processed q v ->
  search remaining target w q v = Some pth ->
  walk w start pth /\ walk_end start pth = target.
Proof.
  induction remaining as [|r IH]; intros processed q v pth Hinv H;
    cbn [search] in H; [discriminate|].
  destruct q as [|nd rest]; [discriminate|].
  destruct (same_cell (pos nd) target) eqn:Hsame.
  - inversion H; subst. apply same_cell_spec in Hsame.
    destruct (inv_paths _ _ _ _ _ _ Hinv nd (or_introl eq_refl)) as [Hw Hend].
    split; [assumption|congruence].
  - destruct (visit w (path nd) (neighbors (pos nd)) rest v) as [q' v'] eqn:Hvisit.
    eapply IH; [|exact H].
    eapply search_inv_step; eauto.
Qed.

(** X17. A path returned by [findPath] is a walk from [start] to the target:
    every cell on it is inside the 20 x 15 grid and walkable, each is
    one step up, down, left or right of the cell before it (the first
    of [start]), and the last one is the target, which is walkable
    too.  The start cell itself is not on the path. *)
Theorem findPath_returns_a_walk
  (start target : Point) (isWalkable : Z -> Z -> bool) (steps : list Point) :
  findPath start target isWalkable = Some steps ->
  isWalkable (x target) (y target) = true /\
  walk isWalkable start steps /\
  walk_end start steps = target.
Proof.
  unfold findPath. intros H.
  destruct (isWalkable (x target) (y target)) eqn:Hw; [|discriminate].
  split; [reflexivity|]. cbn [negb] in H.
  destruct (same_cell start target) eqn:Hsame.
  - inversion H; subst. apply same_cell_spec in Hsame. simpl. auto.
  - eapply search_sound; [apply search_inv_init|exact H].
Qed.

Lemma findPath_returns_a_walk_witness :
  walk maze {| x := 0; y := 13 |}
    [{| x := 0; y := 14 |}; {| x := 1; y := 14 |}; {| x := 2; y := 14 |};
     {| x := 3; y := 14 |}; {| x := 4; y := 14 |}; {| x := 4; y := 13 |}].
Proof.
  refine (proj1 (proj2 (findPath_returns_a_walk
                          {| x := 0; y := 13 |} {| x := 4; y := 13 |} maze _ _))).
  vm_compute. reflexivity.
Defined.

(** *** Completeness on the grid *)

(** With an empty queue the visited cells are closed under steps. *)
Lemma exhausted_closed w start target processed v steps : forall p,
  search_inv w start target processed [] v ->
  In (key p) v -> walk w p steps -> In (key (walk_end p steps)) v.
Proof.
  unfold walk_end. revert steps.
  induction steps as [|n steps IH]; intros p Hinv Hp Hw; [exact Hp|].
  destruct Hw as (Hn & Ho & Hw). rewrite last_cons.
  apply IH; [assumption| |assumption].
  destruct (inv_cover _ _ _ _ _ _ Hinv _ Hp) as (p' & Hkey & [Hproc|(nd & [] & _)]).
  apply key_inj in Hkey. subst p'.
  eapply (inv_closed _ _ _ _ _ _ Hinv); eauto.
Qed.

Lemma exhausted_unreachable w start target processed v steps :
  search_inv w start target processed [] v ->
  walk w start steps -> walk_end start steps = target -> False.
Proof.
  intros Hinv Hw Hend.
  assert (Hin : In (key target) v).
  { rewrite <- Hend. eapply exhausted_closed; eauto.
    apply (inv_start _ _ _ _ _ _ Hinv). }
  destruct (inv_cover _ _ _ _ _ _ Hinv _ Hin) as (p' & Hkey & [Hproc|(nd & [] & _)]).
  apply key_inj in Hkey. subst p'.
  now apply (inv_not_target _ _ _ _ _ _ Hinv target).
Qed.

Lemma search_complete w start target steps :
  walk w start steps -> walk_end start steps = target ->
  forall remaining processed q v,
    search_inv w start target processed q v ->
    (List.length q + 302 <= remaining + List.length v)%nat ->
    exists pth, search remaining target w q v = Some pth.
Proof.
  intros Hw Hend.
  induction remaining as [|r IH]; intros processed q v Hinv Hfuel.
  - pose proof (visited_bound start v (inv_nodup _ _ _ _ _ _ Hinv)
                  (inv_cells _ _ _ _ _ _ Hinv)). lia.
  - destruct q as [|nd rest].
    + exfalso. eapply exhausted_unreachable; eauto.
    + cbn [search]. destruct (same_cell (pos nd) target) eqn:Hsame; [eauto|].
      destruct (visit w (path nd) (neighbors (pos nd)) rest v) as [q' v'] eqn:Hvisit.
      apply (IH (pos nd :: processed)).
      * eapply search_inv_step; eauto.
      * destruct (visit_spec _ _ _ _ _ _ _ Hvisit) as (_ & _ & _ & _ & _ & _ & Hlen).
        simpl in Hfuel. lia.
Qed.

(** X18. On the 20 x 15 grid the cap of 1000 iterations is never what ends
    the search: whenever the target is walkable and some walk through
    walkable grid cells leads from [start] to it, [findPath] returns a
    path.  The start cell may be anywhere, unwalkable or outside the
    grid. *)
Theorem findPath_finds_every_reachable_target
  (start target : Point) (isWalkable : Z -> Z -> bool) (steps : list Point) :
  isWalkable (x target) (y target) = true ->
  walk isWalkable start steps ->
  walk_end start steps = target ->
  exists found, findPath start target isWalkable = Some found.
Proof.
  intros Hwt Hw Hend. unfold findPath. rewrite Hwt. cbn [negb].
  destruct (same_cell start target); [eauto|].
  eapply search_complete; [exact Hw|exact Hend|apply search_inv_init|].
  cbn [List.length]. unfold MAX_ITERATIONS. lia.
Qed.

Lemma findPath_finds_witness :
  exists found,
    findPath {| x := 0; y := 13 |} {| x := 4; y := 13 |} maze = Some found.
Proof.
  refine (findPath_finds_every_reachable_target
            {| x := 0; y := 13 |} {| x := 4; y := 13 |} maze
            [{| x := 0; y := 14 |}; {| x := 1; y := 14 |}; {| x := 2; y := 14 |};
             {| x := 3; y := 14 |}; {| x := 4; y := 14 |}; {| x := 4; y := 13 |}]
            _ _ _).
  - reflexivity.
  - simpl. unfold open_cell. simpl. intuition.
  - reflexivity.
Defined.

(** *** Shortest paths *)

Lemma visit_added w pth ns : forall q v q' v',
  visit w pth ns q v = (q', v') ->
  exists added,
    q' = q ++ added /\
    forall nd, In nd added ->
      In (pos nd) ns /\ open_cell w (pos nd) /\
      path nd = pth ++ [pos nd] /\ ~ In (key (pos nd)) v.
Proof.
  induction ns as [|n ns IH]; intros q v q' v' H; cbn [visit] in H.
  - inversion H; subst. exists []. split; [now rewrite app_nil_r|intros nd []].
  - destruct (in_grid n && negb (has (key n) v) && w (x n) (y n)) eqn:Hcond.
    + apply andb_true_iff in Hcond. destruct Hcond as [Hcond Hw].
      apply andb_true_iff in Hcond. destruct Hcond as [Hg Hnv].
      apply negb_true_iff in Hnv.
      destruct (IH _ _ _ _ H) as (added & Hq & Hadded).
      exists ({| pos := n; path := pth ++ [n] |} :: added). split.
      * rewrite Hq, <- app_assoc. reflexivity.
      * intros nd [<-|Hin].
        -- cbn [pos path]. split; [now left|]. split; [split; assumption|].
           split; [reflexivity|].
           intros Hin. apply has_spec in Hin. congruence.
        -- destruct (Hadded nd Hin) as (Hp & Ho & Hpath & Hk).
           split; [now right|]. split; [exact Ho|]. split; [exact Hpath|].
           intros Hin'. apply Hk, in_or_app. now left.
    + destruct (IH _ _ _ _ H) as (added & Hq & Hadded).
      exists added. split; [exact Hq|].
      intros nd Hin. destruct (Hadded nd Hin) as (Hp & Ho & Hpath & Hk).
      split; [now right|]. split; [exact Ho|]. split; assumption.
Qed.

Lemma walk_unsnoc w steps c : forall from,
  walk w from (steps ++ [c]) ->
  walk w from steps /\ In c (neighbors (walk_end from steps)) /\ open_cell w c.
Proof.
  unfold walk_end. induction steps as [|s steps IH]; intros from H.
  - cbn [app walk] in H. destruct H as (Hc & Ho & _). simpl. auto.
  - cbn [app walk] in H. destruct H as (Hs & Hos & Hw).
    destruct (IH s Hw) as (Hw' & Hc & Ho).
    rewrite last_cons. cbn [walk]. auto.
Qed.

Lemma exists_last_or_nil {A : Type} (l : list A) :
  l = [] \/ exists l' a, l = l' ++ [a].
Proof.
  destruct l as [|b l]; [now left|right].
  destruct (@exists_last A (b :: l)) as (l' & a & H); [discriminate|].
  eauto.
Qed.

(** A cell reached by a walk of at most [d] steps, all cells fewer
    than [d] steps away being processed, has been visited. *)
Lemma near_cell_visited w start target processed q v d steps :
  search_inv w start target processed q v ->
  (forall steps', walk w start steps' -> (List.length steps' < d)%nat ->
                  In (walk_end start steps') processed) ->
  walk w start steps -> (List.length steps <= d)%nat ->
  In (key (walk_end start steps)) v.
Proof.
  intros Hinv Hdone Hw Hlen.
  destruct (exists_last_or_nil steps) as [->|(steps' & c & ->)].
  - apply (inv_start _ _ _ _ _ _ Hinv).
  - destruct (walk_unsnoc _ _ _ _ Hw) as (Hw' & Hc & Ho).
    unfold walk_end. rewrite last_last.
    rewrite length_app in Hlen. simpl in Hlen.
    eapply (inv_closed _ _ _ _ _ _ Hinv); [|exact Hc|exact Ho].
    apply Hdone; [assumption|lia].
Qed.

Lemma shortest_inv_init w start :
  shortest_inv w start [] [{| pos := start; path := [] |}] 0.
Proof.
  constructor.
  - exists [{| pos := start; path := [] |}], []. split; [reflexivity|].
    split; [intros nd [<-|[]]; reflexivity|]. split; [intros nd []|discriminate].
  - intros nd steps [<-|[]] _ _. simpl. lia.
  - intros steps _ H. lia.
Qed.

Lemma shortest_inv_step w start target processed nd rest v q' v' d :
  search_inv w start target processed (nd :: rest) v ->
  shortest_inv w start processed (nd :: rest) d ->
  visit w (path nd) (neighbors (pos nd)) rest v = (q', v') ->
  exists d', shortest_inv w start (pos nd :: processed) q' d'.
Proof.
  intros Hinv [(lo & hi & Hq & Hlo & Hhi & Hempty) Hmin Hdone] Hvisit.
  destruct lo as [|nd0 lo'].
  { rewrite (Hempty eq_refl) in Hq. discriminate. }
  cbn [app] in Hq. inversion Hq; subst nd0 rest. clear Hq.
  assert (Hd : List.length (path nd) = d) by (apply Hlo; now left).
  destruct (visit_added _ _ _ _ _ _ _ Hvisit) as (added & -> & Hadded).
  assert (Hlen_added : forall nd', In nd' added -> List.length (path nd') = S d).
  { intros nd' Hin. destruct (Hadded nd' Hin) as (_ & _ & -> & _).
    rewrite length_app. simpl. lia. }
  assert (Hmin_added : forall nd' steps, In nd' added ->
            walk w start steps -> walk_end start steps = pos nd' ->
            (S d <= List.length steps)%nat).
  { intros nd' steps Hin Hw Hend.
    destruct (Nat.le_gt_cases (S d) (List.length steps)) as [|Hshort];
      [assumption|exfalso].
    destruct (Hadded nd' Hin) as (_ & _ & _ & Hk). apply Hk.
    rewrite <- Hend.
    eapply near_cell_visited; [exact Hinv|exact Hdone|exact Hw|lia]. }
  assert (Hmin' : forall nd' steps, In nd' ((lo' ++ hi) ++ added) ->
            walk w start steps -> walk_end start steps = pos nd' ->
            (List.length (path nd') <= List.length steps)%nat).
  { intros nd' steps Hin Hw Hend. apply in_app_or in Hin.
    destruct Hin as [Hin|Hin].
    - apply Hmin; [now right|assumption|assumption].
    - rewrite (Hlen_added nd' Hin). eapply Hmin_added; eauto. }
  destruct lo' as [|nd1 lo''].
  - (* the last path of length d has been taken: next level *)
    exists (S d). constructor.
    + exists (hi ++ added), []. split; [now rewrite app_nil_r|].
      split; [|split; [intros nd' []|reflexivity]].
      intros nd' Hin. apply in_app_or in Hin. destruct Hin; auto.
    + exact Hmin'.
    + intros steps Hw Hlen.
      destruct (Nat.lt_ge_cases (List.length steps) d) as [Hlt|Hge].
      { right. now apply Hdone. }
      assert (Hvis : In (key (walk_end start steps)) v).
      { eapply near_cell_visited; [exact Hinv|exact Hdone|exact Hw|lia]. }
      destruct (inv_cover _ _ _ _ _ _ Hinv _ Hvis)
        as (p & Hkey & [Hproc|(nd0 & [<-|Hin0] & Hpos)]);
        apply key_inj in Hkey; subst p.
      * now right.
      * left. exact Hpos.
      * exfalso. cbn [app] in Hin0.
        assert (Hle : (List.length (path nd0) <= List.length steps)%nat).
        { apply Hmin; [now right|assumption|now symmetry]. }
        rewrite (Hhi nd0 Hin0) in Hle. lia.
  - exists d. constructor.
    + exists (nd1 :: lo''), (hi ++ added). split; [now rewrite app_assoc|].
      split; [intros nd' Hin; apply Hlo; now right|].
      split; [|discriminate].
      intros nd' Hin. apply in_app_or in Hin. destruct Hin; auto.
    + exact Hmin'.
    + intros steps Hw Hlen. right. now apply Hdone.
Qed.

Lemma search_shortest w start target steps :
  walk w start steps -> walk_end start steps = target ->
  forall remaining processed q v d found,
    search_inv w start target processed q v ->
    shortest_inv w start processed q d ->
    search remaining target w q v = Some found ->
    (List.length found <= List.length steps)%nat.
Proof.
  intros Hw Hend.
  induction remaining as [|r IH]; intros processed q v d found Hinv Hopt H;
    cbn [search] in H; [discriminate|].
  destruct q as [|nd rest]; [discriminate|].
  destruct (same_cell (pos nd) target) eqn:Hsame.
  - inversion H; subst. apply same_cell_spec in Hsame.
    apply (opt_min _ _ _ _ _ Hopt nd steps); [now left|assumption|congruence].
  - destruct (visit w (path nd) (neighbors (pos nd)) rest v) as [q' v'] eqn:Hvisit.
    destruct (shortest_inv_step _ _ _ _ _ _ _ _ _ _ Hinv Hopt Hvisit) as [d' Hopt'].
    eapply IH; [|exact Hopt'|exact H].
    eapply search_inv_step; eauto.
Qed.

(** X19. The path [findPath] returns is a shortest one: no walk through
    walkable grid cells from [start] to the target takes fewer steps. *)
Theorem findPath_returns_a_shortest_path
  (start target : Point) (isWalkable : Z -> Z -> bool)
  (found steps : list Point) :
  findPath start target isWalkable = Some found ->
  walk isWalkable start steps ->
  walk_end start steps = target ->
  (List.length found <= List.length steps)%nat.
Proof.
  unfold findPath. intros H Hw Hend.
  destruct (isWalkable (x target) (y target)); [|discriminate].
  cbn [negb] in H. destruct (same_cell start target).
  - inversion H. simpl. lia.
  - eapply search_shortest;
      [exact Hw|exact Hend|apply search_inv_init|apply shortest_inv_init|exact H].
Qed.

Lemma findPath_shortest_witness :
  (List.length
     [{| x := 0; y := 14 |}; {| x := 1; y := 14 |}; {| x := 2; y := 14 |};
      {| x := 3; y := 14 |}; {| x := 4; y := 14 |}; {| x := 4; y := 13 |}]
   <= List.length
        [{| x := 0; y := 12 |}; {| x := 0; y := 13 |};
         {| x := 0; y := 14 |}; {| x := 1; y := 14 |}; {| x := 2; y := 14 |};
         {| x := 3; y := 14 |}; {| x := 4; y := 14 |}; {| x := 4; y := 13 |}])%nat.
Proof.
  refine (findPath_returns_a_shortest_path
            {| x := 0; y := 13 |} {| x := 4; y := 13 |} maze _ _ _ _ _).
  - vm_compute. reflexivity.
  - simpl. unfold open_cell. simpl. intuition.
  - reflexivity.
Defined.

End PathFacts.
